(** * Verification of the chat client core: stream decoder, message fold,
      attachment optimizer and request mapping.

    The development is a shallow embedding of

    - [src/lib/chat/streaming.ts]   (module [Streaming]),
    - [lib/chat/messages] and the event fold of [sendMessage] in
      [components/chat/chat-panel.tsx]   (module [Messages]),
    - [lib/chat/attachments]   (module [Attachments]),
    - [src/lib/chat/api.ts]   (module [Api]).

    JavaScript strings are modelled as [string] (sequences of code units,
    here restricted to the code units below 256), arrays as [list],
    [undefined] as [None].  The host functions are inputs of the model:
    [JSON.parse] is a parameter of the decoder, [Date.now()] an argument of
    the message updaters, the canvas a parameter of the compression loop. *)

From Stdlib Require Import String Ascii List Bool Arith ZArith QArith Qround Qpower
  Qabs Floats Lia Lqa.
Import ListNotations.

Set Warnings "-register-all".
Local Close Scope Q_scope.
Local Open Scope string_scope.

(** ** JavaScript string primitives used by the sources *)

Module JsString.

Definition nl : ascii := "010"%char.

(** [WhiteSpace] and [LineTerminator] code units below 256, the characters
    removed by [String.prototype.trim]: TAB, LF, VT, FF, CR, SP, NBSP. *)
Definition is_ws (c : ascii) : bool :=
  match nat_of_ascii c with
  | 9 | 10 | 11 | 12 | 13 | 32 | 160 => true
  | _ => false
  end.

Fixpoint trimStart (s : string) : string :=
  match s with
  | "" => ""
  | String c s' => if is_ws c then trimStart s' else s
  end.

(** [trimEnd] drops the maximal all-whitespace suffix. *)
Fixpoint trimEnd (s : string) : string :=
  match s with
  | "" => ""
  | String c s' =>
      match trimEnd s' with
      | "" => if is_ws c then "" else String c ""
      | t => String c t
      end
  end.

Definition trim (s : string) : string := trimEnd (trimStart s).

Definition startsWith (p s : string) : bool := String.prefix p s.

(** [s.endsWith(suf)]: [s] is [suf] or a proper suffix of [s] ends with it. *)
Fixpoint endsWith (suf s : string) : bool :=
  (s =? suf) ||
  match s with
  | "" => false
  | String _ s' => endsWith suf s'
  end.

(** [s.slice(n)] for [0 <= n]. *)
Fixpoint slice (n : nat) (s : string) : string :=
  match n, s with
  | O, _ => s
  | S k, String _ s' => slice k s'
  | S _, "" => ""
  end.

(** Prepend a code unit to the first element of a list of segments. *)
Definition cons_head (c : ascii) (l : list string) : list string :=
  match l with
  | seg :: rest => String c seg :: rest
  | [] => [String c ""]
  end.

(** [s.split(sep)] for a non-empty separator: the matches are found from
    left to right and do not overlap.  [skip] counts the code units of the
    current match that are still to be passed over.  The head of the result
    is the segment that starts at the current position. *)
Fixpoint split_go (sep : string) (skip : nat) (s : string) : list string :=
  match s with
  | "" => [""]
  | String c s' =>
      match skip with
      | S k => split_go sep k s'
      | O =>
          if String.prefix sep s
          then "" :: split_go sep (String.length sep - 1) s'
          else cons_head c (split_go sep 0 s')
      end
  end.

Definition split (sep s : string) : list string := split_go sep 0 s.

(** [l.join("")] on an array of strings. *)
Definition join (l : list string) : string := String.concat "" l.

(** [n] copies of a code unit. *)
Fixpoint replicate (n : nat) (c : ascii) : string :=
  match n with
  | O => ""
  | S k => String c (replicate k c)
  end.

End JsString.

Import JsString.

(** ** Values produced by [JSON.parse] *)

Module Json.

(** A parsed JSON document.  An object is the list of its own properties;
    [JSON.parse] keeps one value per key, and [lookup] reads the first
    binding of a key.  A number is kept as written: the decoder never
    inspects one. *)
Inductive JValue : Type :=
| JNull
| JBool (b : bool)
| JNumber (lexeme : string)
| JString (s : string)
| JArray (items : list JValue)
| JObject (fields : list (string * JValue)).

Fixpoint lookup (name : string) (fields : list (string * JValue)) : option JValue :=
  match fields with
  | [] => None
  | (k, v) :: rest => if k =? name then Some v else lookup name rest
  end.

(** [f(record.name)] when the property is present, [d] otherwise; written
    with the function first so that recursive calls through it are
    structural. *)
Definition withField {A : Type} (name : string) (f : JValue -> A) (d : A)
  : list (string * JValue) -> A :=
  fix go (fields : list (string * JValue)) : A :=
    match fields with
    | [] => d
    | (k, v) :: rest => if k =? name then f v else go rest
    end.

(** [entries.map(f).join("")]. *)
Definition joinMap (f : JValue -> string) : list JValue -> string :=
  fix go (items : list JValue) : string :=
    match items with
    | [] => ""
    | x :: rest => f x ++ go rest
    end.

(** A JavaScript value read out of a parsed document: [None] is
    [undefined]. *)
Definition JsValue : Type := option JValue.

(** [v?.name] for one of the property names the decoder reads ([choices],
    [delta], [message], [content], [reasoning], [reasoning_details]): only an
    object can carry them; [null], [undefined], primitives and arrays give
    [undefined]. *)
Definition getProp (name : string) (v : JsValue) : JsValue :=
  match v with
  | Some (JObject fields) => lookup name fields
  | _ => None
  end.

(** [v?.[0]]: first element of an array, first code unit of a string,
    property ["0"] of an object. *)
Definition getIndex0 (v : JsValue) : JsValue :=
  match v with
  | Some (JArray (x :: _)) => Some x
  | Some (JString (String c _)) => Some (JString (String c ""))
  | Some (JObject fields) => lookup "0" fields
  | _ => None
  end.

(** [a ?? b]. *)
Definition nullish (a b : JsValue) : JsValue :=
  match a with
  | None | Some JNull => b
  | Some _ => a
  end.

End Json.

Import Json.

(** ** [src/lib/chat/types.ts] *)

Module Types.

Inductive ChatRole : Type := user | assistant.

Record ChatAttachment : Type := {
  att_id : string;
  att_name : string;
  att_size : Z;
  att_type : string;
  dataUrl : string
}.

(** Timestamps are milliseconds since the epoch, durations are seconds. *)
Record ChatMessage : Type := {
  id : string;
  role : ChatRole;
  content : string;
  attachments : option (list ChatAttachment);
  reasoning : option string;
  reasoningDurationSeconds : option Z;
  reasoningStartedAt : option Z;
  reasoningStoppedAt : option Z;
  isReasoningStreaming : option bool
}.

Inductive ChatRequestContentPart : Type :=
| TextPart (text : string)
| ImageUrlPart (url : string).

(** [StreamEvent]: the [delta] variant has two optional fields. *)
Inductive StreamEvent : Type :=
| Delta (content reasoning : option string)
| Done
| Error (error : string).

End Types.

Import Types.

(** ** [src/lib/chat/streaming.ts] *)

Module Streaming.

Fixpoint extractTextFromContent (source : JValue) : string :=
  match source with
  | JString s => s
  | JArray items => joinMap extractTextFromContent items
  | JObject record =>
      match lookup "text" record with
      | Some (JString text) => text
      | _ => withField "content" extractTextFromContent "" record
      end
  | _ => ""
  end.

Fixpoint extractReasoningText (source : JValue) : string :=
  match source with
  | JString s => s
  | JArray items => joinMap extractReasoningText items
  | JObject record =>
      match lookup "text" record with
      | Some (JString text) => text
      | _ =>
          match lookup "summary" record with
          | Some (JString summary) => summary ++ String nl (String nl "")
          | _ =>
              match lookup "data" record with
              | Some (JString data) => data
              | _ => withField "content" extractReasoningText "" record
              end
          end
      end
  | _ => ""
  end.

(** The two extractors applied to a possibly [undefined] argument. *)
Definition textOf (v : JsValue) : string :=
  match v with Some j => extractTextFromContent j | None => "" end.

Definition reasoningOf (v : JsValue) : string :=
  match v with Some j => extractReasoningText j | None => "" end.

(** [array.indexOf(x)]. *)
Fixpoint indexOf (x : string) (l : list string) : option nat :=
  match l with
  | [] => None
  | y :: rest =>
      if y =? x then Some 0
      else match indexOf x rest with Some i => Some (S i) | None => None end
  end.

(** [chunks.filter((chunk, index, array) => array.indexOf(chunk) === index)]. *)
Definition firstOccurrences (chunks : list string) : list string :=
  map snd
    (filter (fun ic => match indexOf (snd ic) chunks with
                       | Some j => Nat.eqb j (fst ic)
                       | None => false
                       end)
            (combine (seq 0 (List.length chunks)) chunks)).

Definition nonEmpty (s : string) : bool := negb (s =? "").

Definition delimiter : string := String nl (String nl "").
Definition newline : string := String nl "".

Definition parseFailure : string := "Failed to parse streaming chunk.".

(** The body of the [try] block, once [JSON.parse] has returned. *)
Definition deltaEvents (parsed : JValue) : list StreamEvent :=
  let choice := getIndex0 (getProp "choices" (Some parsed)) in
  let deltaRoot :=
    nullish (getProp "delta" choice)
      (nullish (getProp "message" choice)
         (nullish (getProp "delta" (Some parsed))
            (nullish (getProp "message" (Some parsed))
               (Some (JObject []))))) in
  let contentDelta :=
    textOf (nullish (getProp "content" deltaRoot)
                    (getProp "content" (getProp "message" choice))) in
  let reasoningChunks :=
    filter nonEmpty
      [ reasoningOf (nullish (getProp "reasoning" deltaRoot)
                             (getProp "reasoning" (getProp "message" choice)));
        reasoningOf (nullish (getProp "reasoning_details" deltaRoot)
                             (getProp "reasoning_details" (getProp "message" choice))) ] in
  let reasoningDelta :=
    match reasoningChunks with
    | [] => ""
    | _ => join (firstOccurrences reasoningChunks)
    end in
  if nonEmpty contentDelta || nonEmpty reasoningDelta
  then [ Delta (if nonEmpty contentDelta then Some contentDelta else None)
               (if nonEmpty reasoningDelta then Some reasoningDelta else None) ]
  else [].

Section Decoder.

(** [JSON.parse] is the host's: [None] stands for a thrown [SyntaxError]. *)
Variable JSON_parse : string -> option JValue.

(** The [data:] payload a frame hands on, if it has one: the first line
    starting with [data:], trimmed, and not empty. *)
Definition framePayload (segment : string) : option string :=
  match find (startsWith "data:") (split newline segment) with
  | None => None
  | Some dataLine =>
      let payload := trim (slice (String.length "data:") dataLine) in
      if payload =? "" then None else Some payload
  end.

(** One iteration of the [for (const segment of segments)] loop: the events
    it pushes. *)
Definition segmentEvents (segment : string) : list StreamEvent :=
  match framePayload segment with
  | None => []
  | Some payload =>
      if payload =? "[DONE]" then [Done]
      else
        match JSON_parse payload with
        | Some parsed => deltaEvents parsed
        | None => [Error parseFailure]
        end
  end.

Record Decoded : Type := {
  events : list StreamEvent;
  remainder : string
}.

Definition extractEventsFromBuffer (buffer : string) : Decoded :=
  let segments := split delimiter buffer in
  let isTerminated := endsWith delimiter buffer in
  let remainder := if isTerminated then "" else last segments "" in
  let segments := if isTerminated then segments else removelast segments in
  {| events := flat_map segmentEvents segments; remainder := remainder |}.

(** The segments a call iterates over: every element of the split when the
    buffer is terminated, all but the popped one otherwise. *)
Definition completeFrames (buffer : string) : list string :=
  if endsWith delimiter buffer
  then split delimiter buffer
  else removelast (split delimiter buffer).

(** Decoding chunk by chunk, as the read loop drives it: each call receives
    the previous remainder followed by the next chunk. *)
Fixpoint feed (buffer : string) (chunks : list string) : list StreamEvent * string :=
  match chunks with
  | [] => ([], buffer)
  | chunk :: rest =>
      let r := extractEventsFromBuffer (buffer ++ chunk) in
      let '(evs, final) := feed (remainder r) rest in
      ((events r ++ evs)%list, final)
  end.

End Decoder.

(** The scan behind [split("\n\n")] in two parts: the segments closed by a
    delimiter, and the text after the last delimiter. *)
Definition consScan (c : ascii) (r : list string * string) : list string * string :=
  match fst r with
  | [] => ([], String c (snd r))
  | seg :: rest => (String c seg :: rest, snd r)
  end.

Definition closeScan (r : list string * string) : list string * string :=
  ("" :: fst r, snd r).

Fixpoint scan (s : string) : list string * string :=
  match s with
  | "" => ([], "")
  | String c s' =>
      match s' with
      | String c' s'' =>
          if (Ascii.eqb c nl && Ascii.eqb c' nl)%bool
          then closeScan (scan s'')
          else consScan c (scan s')
      | "" => consScan c (scan s')
      end
  end.

(** Two strings that are equal, or differ by one line feed in front of a
    string that does not itself start with one. *)
Definition noLeadingNewline (s : string) : Prop :=
  match s with
  | String c _ => c <> nl
  | "" => True
  end.

Definition upToNewline (a b : string) : Prop :=
  a = b
  \/ (a = String nl b /\ noLeadingNewline b)
  \/ (b = String nl a /\ noLeadingNewline a).

(** The part of a buffer made of its closed segments, each followed by the
    delimiter. *)
Definition closedText (s : string) : string :=
  join (map (fun seg => seg ++ delimiter) (fst (scan s))).

End Streaming.

Import Streaming.

(** Reading of the specification's extraction procedure: every string leaf
    below a [content], [text], [summary] or [data] field, and every element
    of an array, is collected, in the order met. *)
Module ExtractionSpec.

Definition recognised (k : string) : bool :=
  (k =? "content") || (k =? "text") || (k =? "summary") || (k =? "data").

Fixpoint allLeaves (source : JValue) : string :=
  match source with
  | JString s => s
  | JArray items => joinMap allLeaves items
  | JObject record =>
      (fix go (fields : list (string * JValue)) : string :=
         match fields with
         | [] => ""
         | (k, v) :: rest =>
             (if recognised k then allLeaves v else "") ++ go rest
         end) record
  | _ => ""
  end.

End ExtractionSpec.

(** ** [lib/chat/messages] and the message updaters of [sendMessage] *)

Module Messages.

Definition createPlaceholderMessage (newId : string) : ChatMessage :=
  {| id := newId;
     role := assistant;
     content := "";
     attachments := None;
     reasoning := Some "";
     reasoningDurationSeconds := None;
     reasoningStartedAt := None;
     reasoningStoppedAt := None;
     isReasoningStreaming := Some false |}.

(** [messages.findIndex((message) => message.id === id)], [None] for [-1]. *)
Fixpoint findIndex (target : string) (messages : list ChatMessage) : option nat :=
  match messages with
  | [] => None
  | m :: rest =>
      if id m =? target then Some 0
      else match findIndex target rest with Some i => Some (S i) | None => None end
  end.

(** [next[index] = value] on a copy, for an index inside the array. *)
Fixpoint setAt (index : nat) (value : ChatMessage) (messages : list ChatMessage)
  : list ChatMessage :=
  match messages, index with
  | [], _ => []
  | _ :: rest, O => value :: rest
  | m :: rest, S i => m :: setAt i value rest
  end.

Definition updateMessageById (messages : list ChatMessage) (target : string)
    (updater : ChatMessage -> ChatMessage) : list ChatMessage :=
  match findIndex target messages with
  | None => messages
  | Some index =>
      match nth_error messages index with
      | Some m => setAt index (updater m) messages
      | None => messages
      end
  end.

(** [content.replace(/\s+$/g, "")]. *)
Definition formatAssistantMessage (content : string) : string := trimEnd content.

Local Open Scope Z_scope.

(** [Math.max(1, Math.round((stoppedAt - startedAt) / 1000))] on integer
    timestamps; [Math.round] rounds halves up. *)
Definition elapsedSeconds (startedAt stoppedAt : Z) : Z :=
  Z.max 1 ((stoppedAt - startedAt + 500) / 1000).

Definition hasText (s : option string) : bool :=
  match s with
  | Some t => negb (t =? "")%string
  | None => false
  end.

Definition truthy (b : option bool) : bool :=
  match b with Some true => true | _ => false end.

(** The updater applied for a [delta] event; [now] is [Date.now()]. *)
Definition applyDelta (now : Z) (content reasoning : option string)
    (message : ChatMessage) : ChatMessage :=
  let hasContent := hasText content in
  let hasReasoning := hasText reasoning in
  let nextContent :=
    if hasContent
    then (Types.content message ++ match content with Some c => c | None => "" end)%string
    else Types.content message in
  if hasReasoning then
    {| id := id message;
       role := role message;
       content := nextContent;
       attachments := attachments message;
       reasoning :=
         Some (match Types.reasoning message with Some r => r | None => "" end
               ++ match reasoning with Some r => r | None => "" end)%string;
       reasoningDurationSeconds := reasoningDurationSeconds message;
       reasoningStartedAt :=
         match reasoningStartedAt message with
         | Some t => Some t
         | None => Some now
         end;
       reasoningStoppedAt := Some now;
       isReasoningStreaming := Some true |}
  else if hasContent && truthy (isReasoningStreaming message) then
    {| id := id message;
       role := role message;
       content := nextContent;
       attachments := attachments message;
       reasoning := Types.reasoning message;
       reasoningDurationSeconds :=
         match reasoningDurationSeconds message, reasoningStartedAt message with
         | None, Some startedAt =>
             let stoppedAt :=
               match reasoningStoppedAt message with
               | Some t => t
               | None => startedAt
               end in
             Some (elapsedSeconds startedAt stoppedAt)
         | d, _ => d
         end;
       reasoningStartedAt := reasoningStartedAt message;
       reasoningStoppedAt := reasoningStoppedAt message;
       isReasoningStreaming := Some false |}
  else
    {| id := id message;
       role := role message;
       content := nextContent;
       attachments := attachments message;
       reasoning := Types.reasoning message;
       reasoningDurationSeconds := reasoningDurationSeconds message;
       reasoningStartedAt := reasoningStartedAt message;
       reasoningStoppedAt := reasoningStoppedAt message;
       isReasoningStreaming := isReasoningStreaming message |}.

(** The updater applied when the reader reports the end of the stream. *)
Definition finalizeDone (now : Z) (message : ChatMessage) : ChatMessage :=
  let trimmedContent := formatAssistantMessage (Types.content message) in
  let cleanedReasoning := option_map trim (Types.reasoning message) in
  let startedAt := reasoningStartedAt message in
  let stoppedAt :=
    match reasoningStoppedAt message, startedAt with
    | Some t, _ => Some t
    | None, Some _ => if truthy (isReasoningStreaming message) then Some now else None
    | None, None => None
    end in
  let reasoningDuration :=
    match reasoningDurationSeconds message, startedAt, stoppedAt with
    | None, Some t0, Some t1 =>
        if t0 <=? t1 then Some (elapsedSeconds t0 t1) else None
    | d, _, _ => d
    end in
  {| id := id message;
     role := role message;
     content := trimmedContent;
     attachments := attachments message;
     reasoning :=
       match cleanedReasoning with
       | Some r => if (r =? "")%string then None else Some r
       | None => None
       end;
     reasoningDurationSeconds := reasoningDuration;
     reasoningStartedAt := None;
     reasoningStoppedAt := None;
     isReasoningStreaming := Some false |}.

(** The warning sign and the space that open a failure message. *)
Definition failureMarker : string :=
  String (ascii_of_nat 226) (String (ascii_of_nat 154) (String (ascii_of_nat 160)
  (String (ascii_of_nat 239) (String (ascii_of_nat 184) (String (ascii_of_nat 143) " "))))).

(** The updater applied in the [catch] block. *)
Definition finalizeError (fallback : string) (message : ChatMessage) : ChatMessage :=
  {| id := id message;
     role := role message;
     content := (failureMarker ++ fallback)%string;
     attachments := attachments message;
     reasoning := None;
     reasoningDurationSeconds := None;
     reasoningStartedAt := None;
     reasoningStoppedAt := None;
     isReasoningStreaming := Some false |}.

(** What [sendMessage] folds into the placeholder: a [delta] event read at
    time [now], the end of the stream, or a failure (an [error] event or a
    rejected request). *)
Inductive Fold : Type :=
| FoldDelta (now : Z) (content reasoning : option string)
| FoldStreamEnd (now : Z)
| FoldFailure (fallback : string).

Definition foldInto (message : ChatMessage) (f : Fold) : ChatMessage :=
  match f with
  | FoldDelta now content reasoning =>
      if negb (hasText content) && negb (hasText reasoning) then message
      else applyDelta now content reasoning message
  | FoldStreamEnd now => finalizeDone now message
  | FoldFailure fallback => finalizeError fallback message
  end.

Definition foldAll (message : ChatMessage) (fs : list Fold) : ChatMessage :=
  fold_left foldInto fs message.

Definition isFailure (f : Fold) : bool :=
  match f with FoldFailure _ => true | _ => false end.

End Messages.

Import Messages.

(** ** [src/lib/chat/api.ts] *)

Module Api.

Definition ATTACHMENT_ONLY_FALLBACK_TEXT : string :=
  "Please analyze the attached image(s) and describe what you see.".

Definition imagePart (attachment : ChatAttachment) : ChatRequestContentPart :=
  ImageUrlPart (dataUrl attachment).

(** [message.attachments?.length] as a condition. *)
Definition hasAttachments (message : ChatMessage) : bool :=
  match attachments message with
  | Some (_ :: _) => true
  | _ => false
  end.

Definition mapMessageToApiContent (message : ChatMessage)
  : string + list ChatRequestContentPart :=
  let text := content message in
  let trimmedText := trim text in
  let textParts :=
    if negb (trimmedText =? "") then [TextPart text]
    else if hasAttachments message then [TextPart ATTACHMENT_ONLY_FALLBACK_TEXT]
    else [] in
  let imageParts :=
    match attachments message with
    | Some (a :: rest) => map imagePart (a :: rest)
    | _ => []
    end in
  let parts := (textParts ++ imageParts)%list in
  match parts with
  | [] => inl ""
  | [TextPart text] => inl text
  | _ => inr parts
  end.

End Api.

Import Api.

(** ** [lib/chat/attachments] *)

Module Attachments.

Local Open Scope Z_scope.

Definition MAX_BASE64_ATTACHMENT_BYTES : Z := 1572864.   (* 1.5 * 1024 * 1024 *)
Definition MAX_ATTACHMENT_EDGE : Z := 1600.
Definition MIN_ATTACHMENT_EDGE : Z := 512.

(** *** Numbers.

    A number of the program is kept as the rational it denotes.  [double x]
    is the double nearest to [x], ties going to the even significand: the
    value IEEE 754 binary64 arithmetic gives to an operation whose exact
    result is [x], and the value [Number("...")] and a decimal literal give
    to the decimal [x].  The exponent range is not limited; the numbers of
    this program are far inside the range of normal doubles. *)

Definition pow2 (e : Z) : Q := Qpower 2 e.

(** The integer part of the binary logarithm of a positive rational. *)
Definition exponentOf (x : Q) : Z :=
  let k := Z.log2 (Qnum x) - Z.log2 (Z.pos (Qden x)) in
  if Qle_bool (pow2 k) x then k else k - 1.

Definition roundHalfEven (x : Q) : Z :=
  let f := Qfloor x in
  match Qcompare (x - inject_Z f) (1 # 2) with
  | Lt => f
  | Gt => f + 1
  | Eq => if Z.even f then f else f + 1
  end.

(** The 53-bit significand of the double nearest to a positive rational. *)
Definition significand (x : Q) : Z :=
  roundHalfEven (x / pow2 (exponentOf x - 52)).

Definition double (x : Q) : Q :=
  match Qnum x with
  | Z0 => 0
  | Zpos _ => Qred (inject_Z (significand x) * pow2 (exponentOf x - 52))
  | Zneg _ =>
      Qred (- (inject_Z (significand (- x)) * pow2 (exponentOf (- x) - 52)))
  end.

(** The rational a float of the kernel denotes, and the float quotient of two
    small integers: the kernel computes on binary64 floats with the
    processor's arithmetic. *)
Definition floatValue (f : float) : Q :=
  match Prim2SF f with
  | S754_finite negative m e =>
      Qred ((if negative then - 1 else 1) * inject_Z (Z.pos m) * pow2 e)
  | _ => 0
  end.

Definition floatOf (n d : Z) : float :=
  PrimFloat.div (PrimFloat.of_uint63 (Uint63.of_Z n))
                (PrimFloat.of_uint63 (Uint63.of_Z d)).

Definition DEFAULT_JPEG_QUALITY : Q := double (85 # 100).
Definition MIN_JPEG_QUALITY : Q := double (55 # 100).
Definition DOWNSCALE_STEP : Q := double (85 # 100).

Record OptimizedImageAttachment : Type := {
  out_dataUrl : string;
  out_size : Z;
  out_type : string;
  out_name : string
}.

(** [const [, base64 = ""] = dataUrl.split(",")]. *)
Definition base64Part (dataUrl : string) : string :=
  match split "," dataUrl with
  | _ :: base64 :: _ => base64
  | _ => ""%string
  end.

(** [base64.endsWith("==") ? 2 : base64.endsWith("=") ? 1 : 0]. *)
Definition paddingOf (base64 : string) : Z :=
  if endsWith "==" base64 then 2
  else if endsWith "=" base64 then 1
  else 0.

Definition estimateBase64Size (dataUrl : string) : Z :=
  let base64 := base64Part dataUrl in
  if (base64 =? "")%string then 0
  else
    let padding := paddingOf base64 in
    Z.max 0 (Z.of_nat (String.length base64) * 3 / 4 - padding).

(** *** Standard base64 (RFC 4648), the encoding of the data URLs handed to
    [estimateBase64Size] by [FileReader.readAsDataURL] and
    [canvas.toDataURL]. *)

Definition alphabet : string :=
  "ABCDEFGHIJKLMNOPQRSTUVWXYZabcdefghijklmnopqrstuvwxyz0123456789+/".

Definition sextet (n : N) : ascii :=
  match String.get (N.to_nat (n mod 64)) alphabet with
  | Some c => c
  | None => "A"%char
  end.

Fixpoint base64_encode (payload : list Byte.byte) : string :=
  match payload with
  | [] => ""
  | [a] =>
      let x := Byte.to_N a in
      String (sextet (x / 4)) (String (sextet ((x mod 4) * 16)) "==")
  | [a; b] =>
      let x := Byte.to_N a in
      let y := Byte.to_N b in
      String (sextet (x / 4))
        (String (sextet ((x mod 4) * 16 + y / 16))
           (String (sextet ((y mod 16) * 4)) "="))
  | a :: b :: c :: rest =>
      let x := Byte.to_N a in
      let y := Byte.to_N b in
      let z := Byte.to_N c in
      String (sextet (x / 4))
        (String (sextet ((x mod 4) * 16 + y / 16))
           (String (sextet ((y mod 16) * 4 + z / 64))
              (String (sextet (z mod 64)) (base64_encode rest))))
  end%N.

(** Code units other than the separator and the pad character. *)
Definition notComma (c : ascii) : bool := negb (Ascii.eqb c ","%char).
Definition notPad (c : ascii) : bool := negb (Ascii.eqb c "="%char).

Fixpoint everyChar (p : ascii -> bool) (s : string) : bool :=
  match s with
  | EmptyString => true
  | String c s' => p c && everyChar p s'
  end.

(** *** Arithmetic of the compression loop. *)

(** [Math.round(x)]: the nearest integer, halves going up. *)
Definition roundHalfUp (x : Q) : Z := Qfloor (x + (1 # 2)).

(** [Number(x.toFixed(digits))].  [toFixed] writes the sign and, for the
    absolute value, the integer [n] for which [n / 10^digits] is nearest to
    it, the larger one when two are as near; [Number] reads the decimal
    back as the nearest double. *)
Definition toFixed (digits : nat) (x : Q) : Q :=
  let unit := Z.pow 10 (Z.of_nat digits) in
  let n := roundHalfUp (Qabs x * inject_Z unit) in
  double ((if Qle_bool 0 x then n else - n) # Z.to_pos unit).

Definition Qgtb (a b : Q) : bool := negb (Qle_bool a b).

(** [Math.max(a, b)] and [Math.min(a, b)]. *)
Definition qmax (a b : Q) : Q := if Qle_bool a b then b else a.
Definition qmin (a b : Q) : Q := if Qle_bool a b then a else b.

(** [Math.max(Math.round(original * scale), 1)]. *)
Definition scaledEdge (original : Z) (scale : Q) : Z :=
  Z.max (roundHalfUp (double (inject_Z original * scale))) 1.

(** [file.name.replace(/\.[^/.]+$/, "")]: a final extension, made of a dot
    and at least one character other than a dot or a slash, is removed. *)
Definition extensionChar (c : ascii) : bool :=
  negb (Ascii.eqb c "."%char) && negb (Ascii.eqb c "/"%char).

Fixpoint stripExtension (name : string) : string :=
  match name with
  | EmptyString => ""
  | String c rest =>
      if Ascii.eqb c "."%char && negb (rest =? "")%string && everyChar extensionChar rest
      then ""
      else String c (stripExtension rest)
  end.

(** [(MAX_BASE64_ATTACHMENT_BYTES / 1024 / 1024).toFixed(1)]. *)
Definition maxMb : string := "1.5".

Definition compressionFailure (fileName : string) : string :=
  ("We couldn't compress " ++ fileName ++ " below " ++ maxMb
     ++ " MB. Try a smaller image.")%string.

(** The qualities of the policy: 0.85, lowered by 0.10 per iteration down to
    0.55, each the double its decimal denotes. *)
Definition qualityAfter (n : nat) : Q :=
  match n with
  | 0%nat => double (85 # 100)
  | 1%nat => double (75 # 100)
  | 2%nat => double (65 # 100)
  | _ => double (55 # 100)
  end.

Section Compression.

(** The decoded image's dimensions (positive integers once the dimension
    check has passed) and the canvas: [render width height quality] is the
    data URL of [canvas.toDataURL("image/jpeg", quality)] after drawing at
    that size. *)
Variable originalWidth originalHeight : Z.
Variable render : Z -> Z -> Q -> string.

Definition longestEdge : Q := inject_Z (Z.max originalWidth originalHeight).

Definition initialScale : Q :=
  let s := qmin 1 (double (inject_Z MAX_ATTACHMENT_EDGE / longestEdge)) in
  if Qle_bool s 0 then 1%Q else s.

Definition minScale : Q :=
  qmin 1 (double (inject_Z MIN_ATTACHMENT_EDGE / longestEdge)).

(** The variables the [while] loop reads and writes. *)
Record LoopState : Type := {
  quality : Q;
  currentScale : Q;
  width : Z;
  height : Z;
  dataUrl : string;
  size : Z
}.

Definition initialState : LoopState :=
  let w := scaledEdge originalWidth initialScale in
  let h := scaledEdge originalHeight initialScale in
  let d := render w h DEFAULT_JPEG_QUALITY in
  {| quality := DEFAULT_JPEG_QUALITY;
     currentScale := initialScale;
     width := w;
     height := h;
     dataUrl := d;
     size := estimateBase64Size d |}.

Definition loopCondition (st : LoopState) : bool :=
  (MAX_BASE64_ATTACHMENT_BYTES <? size st)
  && (Qgtb (quality st) MIN_JPEG_QUALITY || Qgtb (currentScale st) minScale).

(** The [if / else if] that adjusts one axis. *)
Definition adjust (st : LoopState) : LoopState :=
  if Qgtb (quality st) MIN_JPEG_QUALITY then
    {| quality :=
         qmax MIN_JPEG_QUALITY (toFixed 2 (double (quality st - double (1 # 10))));
       currentScale := currentScale st;
       width := width st;
       height := height st;
       dataUrl := dataUrl st;
       size := size st |}
  else if Qgtb (currentScale st) minScale then
    let scale :=
      qmax minScale (toFixed 4 (double (currentScale st * DOWNSCALE_STEP))) in
    {| quality := quality st;
       currentScale := scale;
       width := scaledEdge originalWidth scale;
       height := scaledEdge originalHeight scale;
       dataUrl := dataUrl st;
       size := size st |}
  else st.

(** The two statements that close the loop body. *)
Definition rerender (st : LoopState) : LoopState :=
  let d := render (width st) (height st) (quality st) in
  {| quality := quality st;
     currentScale := currentScale st;
     width := width st;
     height := height st;
     dataUrl := d;
     size := estimateBase64Size d |}.

Definition loopBody (st : LoopState) : LoopState := rerender (adjust st).

(** The state after [n] executions of the loop body. *)
Fixpoint iterate (n : nat) (st : LoopState) : LoopState :=
  match n with
  | O => st
  | S k => iterate k (loopBody st)
  end.

(** The [while] loop with a bound on the number of iterations: [None] when
    the bound is reached with the condition still true. *)
Fixpoint whileLoop (fuel : nat) (st : LoopState) : option LoopState :=
  if loopCondition st then
    match fuel with
    | O => None
    | S k => whileLoop k (loopBody st)
    end
  else Some st.

(** What follows the loop: the thrown message ([inl]) or the artifact. *)
Definition finish (fileName : string) (st : LoopState)
  : string + OptimizedImageAttachment :=
  if MAX_BASE64_ATTACHMENT_BYTES <? size st then inl (compressionFailure fileName)
  else
    let baseName := stripExtension fileName in
    inr {| out_dataUrl := dataUrl st;
           out_size := size st;
           out_type := "image/jpeg";
           out_name := if (baseName =? "")%string
                       then (fileName ++ ".jpg")%string
                       else (baseName ++ ".jpg")%string |}.

(** [compressImageFile] from the first render on, for at most [fuel]
    iterations of its loop. *)
Definition compressImageFile (fuel : nat) (fileName : string)
  : option (string + OptimizedImageAttachment) :=
  option_map (finish fileName) (whileLoop fuel initialState).

End Compression.

(** The quality and scale the loop goes through on an image whose longest
    edge is 5,000,000 pixels: quality falls to its floor, then the scale goes
    from 0.00032 to 0.0003, where the rounding to four decimals holds it,
    [Number((0.0003 * 0.85).toFixed(4))] being [0.0003] again. *)
Definition stalledPhases : list (Q * Q) :=
  [ (double (85 # 100), double (1600 # 5000000));
    (double (3 # 4), double (1600 # 5000000));
    (double (13 # 20), double (1600 # 5000000));
    (double (11 # 20), double (1600 # 5000000));
    (double (11 # 20), double (3 # 10000)) ]%Q.

Definition stalled (st : LoopState) : Prop :=
  MAX_BASE64_ATTACHMENT_BYTES < size st
  /\ In (quality st, currentScale st) stalledPhases.

(** The last of these phases. *)
Definition stuck (st : LoopState) : Prop :=
  MAX_BASE64_ATTACHMENT_BYTES < size st
  /\ quality st = double (11 # 20)
  /\ currentScale st = double (3 # 10000).

End Attachments.

Import Attachments.

(** ** Sample inputs *)

Module Samples.

(** A stand-in for [JSON.parse] that knows two documents and rejects every
    other text. *)
Definition hiDocument : JValue :=
  JObject [("choices",
            JArray [JObject [("delta", JObject [("content", JString "Hi")])]])].

Definition quote : string := String (ascii_of_nat 34) "".

(** The text [{"choices":[{"delta":{"content":"Hi"}}]}]. *)
Definition hiText : string :=
  "{" ++ quote ++ "choices" ++ quote ++ ":[{" ++ quote ++ "delta" ++ quote
  ++ ":{" ++ quote ++ "content" ++ quote ++ ":" ++ quote ++ "Hi" ++ quote ++ "}}]}".

Definition sampleParse (payload : string) : option JValue :=
  if payload =? hiText then Some hiDocument
  else if payload =? "{}" then Some (JObject [])
  else None.

(** Three line feeds, then a chunk boundary, then a fourth. *)
Definition oddNewlineChunks : list string :=
  ["x" ++ delimiter ++ newline; newline ++ "y"].

(** A malformed frame between two well-formed ones. *)
Definition mixedBuffer : string :=
  "data: {}" ++ delimiter ++ "data: {oops" ++ delimiter
  ++ "data: [DONE]" ++ delimiter ++ "data: {".

(** An object with a [text] and a [content] field. *)
Definition textAndContent : JValue :=
  JObject [("text", JString "a"); ("content", JString "b")].

(** A placeholder that has received reasoning and then content. *)
Definition answeredMessage : ChatMessage :=
  foldAll (createPlaceholderMessage "m1")
    [FoldDelta 1000 None (Some "hmm"); FoldDelta 3600 (Some "Hi") None].

(** A message without text that carries two images. *)
Definition imageOnlyMessage : ChatMessage :=
  {| id := "u1";
     role := user;
     content := "  ";
     attachments :=
       Some [ {| att_id := "a1"; att_name := "one.jpg"; att_size := 3;
                 att_type := "image/jpeg";
                 Types.dataUrl := "data:image/jpeg;base64,QUJD" |};
              {| att_id := "a2"; att_name := "two.jpg"; att_size := 2;
                 att_type := "image/jpeg";
                 Types.dataUrl := "data:image/jpeg;base64,QUI=" |} ];
     reasoning := None;
     reasoningDurationSeconds := None;
     reasoningStartedAt := None;
     reasoningStoppedAt := None;
     isReasoningStreaming := None |}.

(** A canvas whose every rendering is one byte above the ceiling: the data
    URL of 1572865 zero bytes. *)
Definition oversizedPayload : list Byte.byte :=
  repeat Byte.x00 (Z.to_nat (MAX_BASE64_ATTACHMENT_BYTES + 1)).

Definition oversizedRender (w h : Z) (q : Q) : string :=
  "data:image/jpeg;base64" ++ String "," (base64_encode oversizedPayload).

(** A small canvas: every rendering is the data URL of three bytes. *)
Definition smallRender (w h : Z) (q : Q) : string :=
  "data:image/jpeg;base64,QUJD".

End Samples.

Import Samples.

(** ** More of [src/lib/chat/streaming.ts]: what an event may look like *)

Module StreamShapes.

(** The events the decoder is able to build: [done], [error] with the fixed
    message, and [delta] with at least one field, none of them empty. *)
Definition wellFormed (e : StreamEvent) : Prop :=
  match e with
  | Done => True
  | Error message => message = parseFailure
  | Delta content reasoning =>
      (content <> None \/ reasoning <> None)
      /\ content <> Some "" /\ reasoning <> Some ""
  end.

Definition notNewline (c : ascii) : bool := negb (Ascii.eqb c nl).

(** A field of an event: present when its text is not empty. *)
Definition presentField (s : string) : option string :=
  if nonEmpty s then Some s else None.

(** Empty, or starting with a character that is not white space. *)
Definition tightStart (s : string) : Prop :=
  match s with
  | "" => True
  | String c _ => is_ws c = false
  end.

(** White space other than the line feed. *)
Definition isBlank (c : ascii) : bool := is_ws c && notNewline c.

(** Two line feeds in a row somewhere in the text. *)
Fixpoint hasDelimiter (s : string) : bool :=
  match s with
  | "" => false
  | String c s' =>
      match s' with
      | String c' _ => (Ascii.eqb c nl && Ascii.eqb c' nl) || hasDelimiter s'
      | "" => false
      end
  end.

(** The document [{"choices":[{"delta":{"content":c,"reasoning":a,
    "reasoning_details":b}}]}]. *)
Definition choiceDelta (c a b : string) : JValue :=
  JObject [("choices",
            JArray [JObject [("delta",
                              JObject [("content", JString c);
                                       ("reasoning", JString a);
                                       ("reasoning_details", JString b)])]])].

(** The document [{"choices":[{"delta":delta,"message":message}]}]. *)
Definition choiceOf (delta message : JValue) : JValue :=
  JObject [("choices", JArray [JObject [("delta", delta); ("message", message)]])].

(** The content of the event of a frame, [None] when the frame gives no
    event or an event without content. *)
Definition contentChannel (evs : list StreamEvent) : option string :=
  match evs with
  | Delta content _ :: _ => content
  | _ => None
  end.

(** A list of content parts [{"type":"text","text":t}]. *)
Definition textParts (texts : list string) : JValue :=
  JArray (map (fun t => JObject [("type", JString "text"); ("text", JString t)])
              texts).

End StreamShapes.

Import StreamShapes.

(** ** More of [components/chat/chat-panel.tsx]: the composer *)

Module ChatPanel.

Definition MAX_ATTACHMENTS : nat := 4.
Definition MAX_FILE_SIZE_BYTES : Z := 5 * 1024 * 1024.

(** What the code reads of a browser [File]. *)
Record File : Type := {
  file_name : string;
  file_type : string;
  file_size : Z
}.

(** The two tests of the validation loop of [handleAttachmentsSelect]. *)
Definition isImage (file : File) : bool := startsWith "image/" (file_type file).
Definition withinFileLimit (file : File) : bool :=
  (file_size file <=? MAX_FILE_SIZE_BYTES)%Z.

(** [errorMessages.add(message)] on a [Set] kept in insertion order. *)
Definition addMessage (message : string) (messages : list string) : list string :=
  if existsb (String.eqb message) messages then messages
  else (messages ++ [message])%list.

Definition onlyImages : string := "Only image files are supported.".
Definition tooBig : string := "Images must be 5 MB or smaller.".

(** The validation loop: the messages collected and the files kept. *)
Fixpoint validate (files : list File) (errors : list string) (valid : list File)
  : list string * list File :=
  match files with
  | [] => (errors, valid)
  | file :: rest =>
      if negb (isImage file) then validate rest (addMessage onlyImages errors) valid
      else if negb (withinFileLimit file)
      then validate rest (addMessage tooBig errors) valid
      else validate rest errors (valid ++ [file])%list
  end.

(** The updater handed to [setAttachments]: the new list and [addedCount]. *)
Definition addAttachments (prev attachmentsToAdd : list ChatAttachment)
  : list ChatAttachment * nat :=
  let remainingSlots := (MAX_ATTACHMENTS - List.length prev)%nat in
  if Nat.leb remainingSlots 0 then (prev, 0%nat)
  else
    let allowed := firstn remainingSlots attachmentsToAdd in
    if Nat.eqb (List.length allowed) 0 then (prev, 0%nat)
    else ((prev ++ allowed)%list, List.length allowed).

(** [handleAttachmentRemove]. *)
Definition removeAttachment (target : string) (prev : list ChatAttachment)
  : list ChatAttachment :=
  filter (fun attachment => negb (att_id attachment =? target)) prev.

(** What the user does to the attachment list. *)
Inductive ComposerAction : Type :=
| Select (attachmentsToAdd : list ChatAttachment)
| Remove (target : string)
| Sent.

Definition composerStep (attachments : list ChatAttachment) (a : ComposerAction)
  : list ChatAttachment :=
  match a with
  | Select toAdd => fst (addAttachments attachments toAdd)
  | Remove target => removeAttachment target attachments
  | Sent => []
  end.

(** [canSend]. *)
Definition canSend (isStreaming : bool) (input : string)
    (attachments : list ChatAttachment) : bool :=
  negb isStreaming
  && (negb (trim input =? "") || negb (Nat.eqb (List.length attachments) 0)).

(** The head of [sendMessage]: nothing is sent ([None]) for a blank input
    without attachments; otherwise the user's message is built. *)
Definition userMessage (newId input : string) (attachments : list ChatAttachment)
  : option ChatMessage :=
  let trimmed := trim input in
  if (trimmed =? "") && Nat.eqb (List.length attachments) 0 then None
  else
    Some {| id := newId;
            role := user;
            content := trimmed;
            attachments :=
              match attachments with
              | [] => None
              | _ => Some (map (fun a => a) attachments)
              end;
            reasoning := None;
            reasoningDurationSeconds := None;
            reasoningStartedAt := None;
            reasoningStoppedAt := None;
            isReasoningStreaming := None |}.

(** The message list as [sendMessage] drives it: every fold goes through
    [updateMessageById] with the placeholder's id. *)
Definition foldIntoList (target : string) (messages : list ChatMessage) (f : Fold)
  : list ChatMessage :=
  updateMessageById messages target (fun message => foldInto message f).

(** A [delta] event that carries reasoning text only, read at [fst]. *)
Definition reasoningFold (event : Z * string) : Fold :=
  FoldDelta (fst event) None (Some (snd event)).

(** The time of the last of a run of events that starts at [first]. *)
Definition lastTime (first : Z) (events : list (Z * string)) : Z :=
  last (map fst events) first.

(** The text a fold adds to a channel. *)
Definition addedContent (f : Fold) : string :=
  match f with
  | FoldDelta _ (Some c) _ => c
  | _ => ""
  end.

Definition addedReasoning (f : Fold) : string :=
  match f with
  | FoldDelta _ _ (Some r) => r
  | _ => ""
  end.

Definition isDeltaFold (f : Fold) : bool :=
  match f with FoldDelta _ _ _ => true | _ => false end.

(** [message.reasoning ?? ""], the reasoning text the panel shows. *)
Definition reasoningText (message : ChatMessage) : string :=
  match Types.reasoning message with
  | Some r => r
  | None => ""
  end.

(** No message of the list has the given id. *)
Definition absent (target : string) (messages : list ChatMessage) : bool :=
  forallb (fun m => negb (id m =? target)) messages.

End ChatPanel.

Import ChatPanel.

(** ** More of [lib/chat/attachments]: decoding and [prepareImageAttachment] *)

Module Prepare.

Local Open Scope Z_scope.

Definition COMPRESS_THRESHOLD_BYTES : Z := 900 * 1024.

(** The outcome of one [readFileAsDataURL]: the data URL, or the error the
    reader rejects with. *)
Inductive ReadResult : Type :=
| ReadOk (dataUrl : string)
| ReadFailed (message : string).

Definition undecodable : string := "Unable to decode the selected image.".
Definition noCanvas : string := "Image compression is not supported in this browser.".
Definition noDimensions : string := "We couldn't read the image dimensions.".

Definition tooLarge (fileName : string) : string :=
  (fileName ++ " is too large to send. Please choose an image under " ++ maxMb
     ++ " MB after compression.")%string.

(** [compressImageFile] from its first line: [loaded] is the size of the
    decoded image ([None] when [loadImageFromFile] rejects), [hasContext]
    tells whether [canvas.getContext("2d")] gave a context.  [None] is a run
    that is still in the loop after [fuel] iterations. *)
Definition compressFile (loaded : option (Z * Z)) (hasContext : bool)
    (render : Z -> Z -> Q -> string) (fuel : nat) (file : File)
  : option (string + OptimizedImageAttachment) :=
  match loaded with
  | None => Some (inl undecodable)
  | Some (originalWidth, originalHeight) =>
      if negb hasContext then Some (inl noCanvas)
      else if (originalWidth =? 0) || (originalHeight =? 0)
      then Some (inl noDimensions)
      else compressImageFile originalWidth originalHeight render fuel (file_name file)
  end.

Definition unmodified (file : File) (dataUrl : string) : OptimizedImageAttachment :=
  {| out_dataUrl := dataUrl;
     out_size := estimateBase64Size dataUrl;
     out_type := file_type file;
     out_name := file_name file |}.

(** The [catch] block: the file is read as it is. *)
Definition fallback (file : File) (catchRead : ReadResult)
  : string + OptimizedImageAttachment :=
  match catchRead with
  | ReadFailed message => inl message
  | ReadOk dataUrl =>
      if MAX_BASE64_ATTACHMENT_BYTES <? estimateBase64Size dataUrl
      then inl (tooLarge (file_name file))
      else inr (unmodified file dataUrl)
  end.

(** [prepareImageAttachment].  [tryRead] is the outcome of the read inside
    the [try] block, [catchRead] of the read inside the [catch] block,
    [compressed] of [compressImageFile]; each is looked at only on the paths
    that make the call. *)
Definition prepareImageAttachment (file : File) (tryRead catchRead : ReadResult)
    (compressed : option (string + OptimizedImageAttachment))
  : option (string + OptimizedImageAttachment) :=
  let needsCompression :=
    negb (file_type file =? "image/jpeg")%string
    || (COMPRESS_THRESHOLD_BYTES <? file_size file) in
  let compress :=
    match compressed with
    | None => None
    | Some (inr artifact) => Some (inr artifact)
    | Some (inl _) => Some (fallback file catchRead)
    end in
  if needsCompression then compress
  else
    match tryRead with
    | ReadFailed _ => Some (fallback file catchRead)
    | ReadOk dataUrl =>
        if estimateBase64Size dataUrl <=? MAX_BASE64_ATTACHMENT_BYTES
        then Some (inr (unmodified file dataUrl))
        else compress
    end.

(** An artifact whose size is the estimate of its data URL and is within
    the ceiling. *)
Definition withinBudget (artifact : OptimizedImageAttachment) : Prop :=
  out_size artifact = estimateBase64Size (out_dataUrl artifact)
  /\ out_size artifact <= MAX_BASE64_ATTACHMENT_BYTES.

End Prepare.

Import Prepare.

(** ** The read loop of [sendMessage] *)

Module ReadLoop.

Definition isDelta (e : StreamEvent) : bool :=
  match e with Delta _ _ => true | _ => false end.

Definition isDone (e : StreamEvent) : bool :=
  match e with Done => true | _ => false end.

Definition isError (e : StreamEvent) : bool :=
  match e with Error _ => true | _ => false end.

(** The text an event carries on each channel. *)
Definition eventContent (e : StreamEvent) : string :=
  match e with
  | Delta (Some c) _ => c
  | _ => ""
  end.

Definition eventReasoning (e : StreamEvent) : string :=
  match e with
  | Delta _ (Some r) => r
  | _ => ""
  end.

(** How the body of the response ends: the reader reports [done], or a
    [read()] rejects; [fallback] is the text the [catch] block derives from
    what was thrown. *)
Inductive Ending : Type :=
| Closed
| Rejected (fallback : string).

(** The frame that closes a response. *)
Definition doneFrame : string := "data: [DONE]" ++ delimiter.

Section Loop.

Variable JSON_parse : string -> option JValue.

(** [clock n] is what [Date.now()] returns inside update number [n] of the
    placeholder. *)
Variable clock : nat -> Z.

(** The [for (const event of events)] loop.  [applied] lists the updates of
    the placeholder so far.  The result is [inl] when an [error] event throws
    (the [catch] block then folds the failure), and otherwise the buffer and
    the updates at the end of the loop. *)
Fixpoint forEvents (evs : list StreamEvent) (buffer : string) (applied : list Fold)
  : list Fold + (string * list Fold) :=
  match evs with
  | [] => inr (buffer, applied)
  | Delta content reasoning :: rest =>
      if negb (hasText content) && negb (hasText reasoning)
      then forEvents rest buffer applied
      else forEvents rest buffer
             (applied ++ [FoldDelta (clock (List.length applied)) content reasoning])
  | Error message :: _ => inl (applied ++ [FoldFailure message])
  | Done :: rest => forEvents rest "" applied
  end%list.

(** The [while (true)] loop over the chunks the reader delivers: all the
    updates of the placeholder, in order. *)
Fixpoint readLoop (chunks : list string) (ending : Ending) (buffer : string)
    (applied : list Fold) : list Fold :=
  match chunks with
  | [] =>
      match ending with
      | Closed => applied ++ [FoldStreamEnd (clock (List.length applied))]
      | Rejected fallback => applied ++ [FoldFailure fallback]
      end
  | chunk :: rest =>
      let r := extractEventsFromBuffer JSON_parse (buffer ++ chunk) in
      match forEvents (events r) (remainder r) applied with
      | inl thrown => thrown
      | inr (buffer', applied') => readLoop rest ending buffer' applied'
      end
  end%list.

(** The placeholder at the end of a response read from the first chunk. *)
Definition respond (newId : string) (chunks : list string) (ending : Ending)
  : ChatMessage :=
  foldAll (createPlaceholderMessage newId) (readLoop chunks ending "" []).

(** No call that emits a [done] event is followed by more text. *)
Fixpoint doneIsLast (buffer : string) (chunks : list string) : Prop :=
  match chunks with
  | [] => True
  | chunk :: rest =>
      let r := extractEventsFromBuffer JSON_parse (buffer ++ chunk) in
      (existsb isDone (events r) = true -> join rest = "")
      /\ doneIsLast (remainder r) rest
  end.

End Loop.

(** What [finalizeDone] leaves of a reasoning text. *)
Definition cleaned (reasoning : string) : option string :=
  if trim reasoning =? "" then None else Some (trim reasoning).

End ReadLoop.

Import ReadLoop.

(** ** More sample inputs *)

Module MoreSamples.

Definition photo : File :=
  {| file_name := "holiday.photo.png"; file_type := "image/png"; file_size := 2000000 |}.

Definition smallJpeg : File :=
  {| file_name := "small.jpg"; file_type := "image/jpeg"; file_size := 400000 |}.

(** Milliseconds on a clock that advances one second per update. *)
Definition tickClock (n : nat) : Z := (1000 * Z.of_nat n)%Z.

(** A content frame. *)
Definition hiFrame : string := "data: " ++ hiText ++ delimiter.

(** Two content frames and the closing frame, cut inside a delimiter and
    inside the sentinel. *)
Definition hiChunks : list string :=
  ["data: " ++ hiText ++ newline;
   newline ++ hiFrame ++ "data: [DO";
   "NE]" ++ delimiter].

End MoreSamples.

Import MoreSamples.

(** * Properties *)

(** ** The model on the scenarios of the specification *)

Example split_three_newlines :
  split delimiter ("a" ++ delimiter ++ newline ++ "b") = ["a"; newline ++ "b"].
Proof. reflexivity. Qed.

Example split_empty : split "," "" = [""].
Proof. reflexivity. Qed.

Example trim_example : trim ("  [DONE] " ++ newline) = "[DONE]".
Proof. reflexivity. Qed.

(** Scenario A: a content frame and the sentinel in one buffer. *)
Example scenario_single_buffer :
  extractEventsFromBuffer sampleParse
    ("data: " ++ hiText ++ delimiter ++ "data: [DONE]" ++ delimiter)
  = {| events := [Delta (Some "Hi") None; Done]; remainder := "" |}.
Proof. reflexivity. Qed.

(** Scenario B: the same content frame cut in two chunks. *)
Example scenario_two_chunks :
  extractEventsFromBuffer sampleParse "data: {"
  = {| events := []; remainder := "data: {" |}
  /\ feed sampleParse ""
       ["data: {" ++ quote ++ "choices" ++ quote ++ ":[{" ++ quote ++ "delta"
          ++ quote ++ ":{" ++ quote ++ "content" ++ quote ++ ":" ++ quote ++ "Hi";
        quote ++ "}}]}" ++ delimiter]
     = ([Delta (Some "Hi") None], "").
Proof. split; reflexivity. Qed.

(** A frame without a [data:] line, and one with an empty payload, are
    skipped. *)
Example keep_alive_frames :
  events (extractEventsFromBuffer sampleParse
            (": ping" ++ delimiter ++ "data:   " ++ delimiter))
  = [].
Proof. reflexivity. Qed.

Example duration_rounds_half_up :
  elapsedSeconds 1000 2500 = 2%Z /\ elapsedSeconds 1000 2499 = 1%Z
  /\ elapsedSeconds 1000 1000 = 1%Z.
Proof. repeat split. Qed.

Example strip_extension :
  stripExtension "photo.final.png" = "photo.final"
  /\ stripExtension "archive.d/photo" = "archive.d/photo"
  /\ stripExtension ".png" = "".
Proof. repeat split. Qed.

(** ** Strings *)

Section StringFacts.

Lemma append_nil_r (s : string) : s ++ "" = s.
Proof. induction s as [|c s IH]; simpl; [reflexivity | now rewrite IH]. Qed.

Lemma append_assoc (a b c : string) : (a ++ b) ++ c = a ++ (b ++ c).
Proof. induction a as [|x a IH]; simpl; [reflexivity | now rewrite IH]. Qed.

Lemma length_append (a b : string) :
  String.length (a ++ b) = String.length a + String.length b.
Proof. induction a as [|x a IH]; simpl; [reflexivity | now rewrite IH]. Qed.

(** Induction two code units at a time, the pace of the delimiter scan. *)
Lemma string_pair_ind (P : string -> Prop) :
  P "" ->
  (forall c, P (String c "")) ->
  (forall c c' s, P s -> P (String c' s) -> P (String c (String c' s))) ->
  forall s, P s.
Proof.
  intros H0 H1 H2 s.
  assert (H : P s /\ forall c, P (String c s)).
  { induction s as [|c' s [IHs IHc]].
    - split; [exact H0 | exact H1].
    - split; [apply IHc | intros c; apply H2; [exact IHs | apply IHc]]. }
  exact (proj1 H).
Qed.

Lemma prefix_nil (s : string) : String.prefix "" s = true.
Proof. destruct s; reflexivity. Qed.

Lemma endsWith_self (suf : string) : endsWith suf suf = true.
Proof. destruct suf; cbn [endsWith]; rewrite String.eqb_refl; reflexivity. Qed.

Lemma endsWith_append (suf pre : string) : endsWith suf (pre ++ suf) = true.
Proof.
  induction pre as [|c pre IH].
  - apply endsWith_self.
  - cbn [append endsWith]. rewrite IH. apply orb_true_r.
Qed.

Lemma join_cons (chunk : string) (rest : list string) :
  join (chunk :: rest) = chunk ++ join rest.
Proof.
  unfold join. destruct rest as [|c rest]; cbn [String.concat].
  - symmetry. apply append_nil_r.
  - reflexivity.
Qed.

Lemma endsWith_append_l (suf a b : string) :
  endsWith suf b = true -> endsWith suf (a ++ b) = true.
Proof.
  intros H. induction a as [|c a IH]; [exact H|].
  cbn [append endsWith]. rewrite IH. apply orb_true_r.
Qed.

End StringFacts.

(** ** The frame scan of the decoder *)

Section ScanFacts.

Lemma split_delimiter_nil : split delimiter "" = [""].
Proof. reflexivity. Qed.

Lemma split_delimiter_close (s : string) :
  split delimiter (String nl (String nl s)) = "" :: split delimiter s.
Proof.
  unfold split, delimiter. cbn [split_go String.prefix].
  destruct (ascii_dec nl nl) as [_|N]; [|now elim N].
  rewrite prefix_nil. reflexivity.
Qed.

Lemma split_delimiter_single (c : ascii) :
  split delimiter (String c "") = [String c ""].
Proof.
  unfold split, delimiter. cbn [split_go String.prefix].
  destruct (ascii_dec nl c); reflexivity.
Qed.

Lemma split_delimiter_other (c c' : ascii) (s : string) :
  (Ascii.eqb c nl && Ascii.eqb c' nl)%bool = false ->
  split delimiter (String c (String c' s))
  = cons_head c (split delimiter (String c' s)).
Proof.
  intros H. unfold split, delimiter.
  cbn [split_go String.prefix].
  destruct (ascii_dec nl c) as [<-|Hc]; [|reflexivity].
  destruct (ascii_dec nl c') as [<-|Hc']; [|reflexivity].
  rewrite !Ascii.eqb_refl in H. discriminate.
Qed.

Lemma scan_close (s : string) :
  scan (String nl (String nl s)) = closeScan (scan s).
Proof. reflexivity. Qed.

Lemma scan_other (c c' : ascii) (s : string) :
  (Ascii.eqb c nl && Ascii.eqb c' nl)%bool = false ->
  scan (String c (String c' s)) = consScan c (scan (String c' s)).
Proof. intros H. cbn [scan]. rewrite H. reflexivity. Qed.

(** The split is the closed segments followed by the open one. *)
Lemma split_scan (s : string) :
  split delimiter s = (fst (scan s) ++ [snd (scan s)])%list.
Proof.
  induction s as [| c | c c' s IHs IHc] using string_pair_ind.
  - reflexivity.
  - rewrite split_delimiter_single. reflexivity.
  - destruct (Ascii.eqb c nl && Ascii.eqb c' nl)%bool eqn:E.
    + apply andb_prop in E. destruct E as [E1 E2].
      apply Ascii.eqb_eq in E1, E2. subst c c'.
      rewrite split_delimiter_close, scan_close, IHs. reflexivity.
    + rewrite (split_delimiter_other _ _ _ E), (scan_other _ _ _ E), IHc.
      unfold consScan.
      destruct (fst (scan (String c' s))); reflexivity.
Qed.

(** With no closed segment the open one is the whole input. *)
Lemma scan_open_all (s : string) :
  fst (scan s) = [] -> snd (scan s) = s.
Proof.
  induction s as [| c | c c' s IHs IHc] using string_pair_ind; intros H.
  - reflexivity.
  - reflexivity.
  - destruct (Ascii.eqb c nl && Ascii.eqb c' nl)%bool eqn:E.
    + apply andb_prop in E. destruct E as [E1 E2].
      apply Ascii.eqb_eq in E1, E2. subst c c'.
      rewrite scan_close in H. discriminate H.
    + rewrite (scan_other _ _ _ E) in H |- *.
      unfold consScan in H |- *.
      destruct (fst (scan (String c' s))) eqn:F; [|discriminate H].
      cbn [snd]. rewrite (IHc eq_refl). reflexivity.
Qed.

(** Scanning a buffer and then more text is scanning the open segment
    followed by that text. *)
Lemma scan_append (p c : string) :
  scan (p ++ c)
  = ((fst (scan p) ++ fst (scan (snd (scan p) ++ c)))%list,
     snd (scan (snd (scan p) ++ c))).
Proof.
  induction p as [| x | x y p IHp IHy] using string_pair_ind.
  - cbn [scan fst snd app append]. apply surjective_pairing.
  - change (scan (String x "")) with (@nil string, String x "").
    cbn [fst snd app]. apply surjective_pairing.
  - destruct (Ascii.eqb x nl && Ascii.eqb y nl)%bool eqn:E.
    + apply andb_prop in E. destruct E as [E1 E2].
      apply Ascii.eqb_eq in E1, E2. subst x y.
      change (String nl (String nl p) ++ c) with (String nl (String nl (p ++ c))).
      rewrite !scan_close, IHp. reflexivity.
    + rewrite (scan_other x y p E).
      destruct (fst (scan (String y p))) as [|seg rest] eqn:F.
      * pose proof (scan_open_all _ F) as T.
        unfold consScan. rewrite F, T. cbn [fst snd app].
        apply surjective_pairing.
      * change (String x (String y p) ++ c) with (String x (String y (p ++ c))).
        rewrite (scan_other _ _ _ E).
        change (String y (p ++ c)) with (String y p ++ c).
        rewrite IHy.
        unfold consScan. rewrite F. cbn [fst snd app]. reflexivity.
Qed.

Lemma endsWith_cons (suf : string) (c : ascii) (s : string) :
  endsWith suf (String c s) = ((String c s =? suf) || endsWith suf s)%bool.
Proof. reflexivity. Qed.

(** When the buffer ends with the delimiter, the open segment is empty or
    a single line feed (the third of three line feeds in a row). *)
Lemma terminated_open (s : string) :
  endsWith delimiter s = true ->
  snd (scan s) = "" \/ snd (scan s) = newline.
Proof.
  induction s as [| c | c c' s IHs IHc] using string_pair_ind; intros H.
  - discriminate H.
  - rewrite endsWith_cons in H. apply orb_prop in H.
    destruct H as [H|H]; [|discriminate H].
    apply String.eqb_eq in H. discriminate H.
  - rewrite endsWith_cons in H.
    destruct (Ascii.eqb c nl && Ascii.eqb c' nl)%bool eqn:E.
    + apply andb_prop in E. destruct E as [E1 E2].
      apply Ascii.eqb_eq in E1, E2. subst c c'.
      rewrite scan_close. cbn [closeScan snd].
      apply orb_prop in H. destruct H as [H|H].
      * apply String.eqb_eq in H. injection H as ->. left. reflexivity.
      * rewrite endsWith_cons in H. apply orb_prop in H. destruct H as [H|H].
        -- apply String.eqb_eq in H. injection H as ->. right. reflexivity.
        -- apply IHs, H.
    + apply orb_prop in H. destruct H as [H|H].
      * apply String.eqb_eq in H. unfold delimiter in H.
        injection H as -> -> _. rewrite !Ascii.eqb_refl in E. discriminate E.
      * rewrite (scan_other _ _ _ E). unfold consScan.
        destruct (fst (scan (String c' s))) as [|seg rest] eqn:F.
        -- pose proof (scan_open_all _ F) as T.
           destruct (IHc H) as [U|U]; rewrite T in U.
           ++ discriminate U.
           ++ unfold newline in U. injection U as -> ->.
              discriminate H.
        -- cbn [snd]. apply IHc, H.
Qed.

Lemma upToNewline_sym (a b : string) : upToNewline a b -> upToNewline b a.
Proof. unfold upToNewline. intuition. Qed.

Lemma upToNewline_refl (a : string) : upToNewline a a.
Proof. left. reflexivity. Qed.

(** If one of two related open segments is what a terminated buffer leaves,
    the other is related to the empty remainder. *)
Lemma upToNewline_terminated (u w : string) :
  upToNewline u w -> u = "" \/ u = newline -> upToNewline w "".
Proof.
  unfold upToNewline, newline.
  intros [E | [[E N] | [E N]]] [U | U]; subst.
  - left. reflexivity.
  - right. left. split; [reflexivity | exact I].
  - discriminate U.
  - injection U as ->. left. reflexivity.
  - right. left. split; [reflexivity | exact I].
  - simpl in N. now elim N.
Qed.

(** The open segment holds no delimiter. *)
Lemma scan_open_idem (s : string) : fst (scan (snd (scan s))) = [].
Proof.
  induction s as [| c | c c' s IHs IHc] using string_pair_ind.
  - reflexivity.
  - reflexivity.
  - destruct (Ascii.eqb c nl && Ascii.eqb c' nl)%bool eqn:E.
    + apply andb_prop in E. destruct E as [E1 E2].
      apply Ascii.eqb_eq in E1, E2. subst c c'.
      rewrite scan_close. exact IHs.
    + rewrite (scan_other _ _ _ E). unfold consScan.
      destruct (fst (scan (String c' s))) as [|seg rest] eqn:F.
      * cbn [snd]. rewrite (scan_open_all _ F), (scan_other _ _ _ E).
        unfold consScan. rewrite F. reflexivity.
      * exact IHc.
Qed.

Lemma split_open (s : string) :
  split delimiter (snd (scan s)) = [snd (scan s)].
Proof.
  rewrite split_scan, (scan_open_all _ (scan_open_idem s)), scan_open_idem.
  reflexivity.
Qed.

Lemma closedText_cons (seg : string) (rest : list string) :
  join (map (fun x => x ++ delimiter) (seg :: rest))
  = seg ++ delimiter ++ join (map (fun x => x ++ delimiter) rest).
Proof. cbn [map]. rewrite join_cons. apply append_assoc. Qed.

(** A buffer is its closed text followed by its open segment, and the
    closed text scans to the same closed segments with nothing left open. *)
Lemma scan_closedText (s : string) :
  s = closedText s ++ snd (scan s)
  /\ scan (closedText s) = (fst (scan s), "").
Proof.
  unfold closedText.
  induction s as [| c | c c' s IHs IHc] using string_pair_ind.
  - split; reflexivity.
  - split; reflexivity.
  - destruct (Ascii.eqb c nl && Ascii.eqb c' nl)%bool eqn:E.
    + apply andb_prop in E. destruct E as [E1 E2].
      apply Ascii.eqb_eq in E1, E2. subst c c'.
      destruct IHs as [I1 I2].
      rewrite scan_close. cbn [closeScan fst snd].
      rewrite closedText_cons.
      change ("" ++ delimiter ++ ?k) with (String nl (String nl k)).
      split.
      * cbn [append]. rewrite <- I1. reflexivity.
      * rewrite scan_close, I2. reflexivity.
    + destruct IHc as [I1 I2].
      rewrite (scan_other _ _ _ E). unfold consScan.
      destruct (fst (scan (String c' s))) as [|seg rest] eqn:F.
      * cbn [fst snd map]. split; [|reflexivity].
        rewrite (scan_open_all _ F). reflexivity.
      * cbn [fst snd]. rewrite closedText_cons in *.
        change (String c seg ++ ?k) with (String c (seg ++ k)).
        remember (seg ++ delimiter ++ join (map (fun x => x ++ delimiter) rest))
          as K eqn:HK.
        split.
        -- cbn [append]. rewrite <- I1. reflexivity.
        -- destruct K as [|k K'].
           ++ discriminate I2.
           ++ cbn [append] in I1. injection I1 as <- _.
              rewrite (scan_other _ _ _ E), I2. reflexivity.
Qed.

Lemma closedText_terminated (s : string) :
  closedText s = "" \/ endsWith delimiter (closedText s) = true.
Proof.
  unfold closedText.
  induction (fst (scan s)) as [|seg rest IH].
  - left. reflexivity.
  - right. rewrite closedText_cons, <- append_assoc.
    destruct IH as [-> | IH].
    + rewrite append_nil_r. apply endsWith_append.
    + apply endsWith_append_l, IH.
Qed.

End ScanFacts.

(** ** The decoder *)

Section DecoderFacts.

Variable JSON_parse : string -> option JValue.

Local Abbreviation segmentEvents := (segmentEvents JSON_parse).
Local Abbreviation extractEventsFromBuffer := (extractEventsFromBuffer JSON_parse).
Local Abbreviation feed := (feed JSON_parse).

Lemma split_newline_leading (seg : string) :
  split newline (String nl seg) = "" :: split newline seg.
Proof.
  unfold split, newline. cbn [split_go String.prefix].
  destruct (ascii_dec nl nl) as [_|N]; [|now elim N].
  rewrite prefix_nil. reflexivity.
Qed.

Lemma framePayload_leading (seg : string) :
  framePayload (String nl seg) = framePayload seg.
Proof. unfold framePayload. rewrite split_newline_leading. reflexivity. Qed.

(** A line feed in front of a frame does not change its events. *)
Lemma segmentEvents_leading (seg : string) :
  segmentEvents (String nl seg) = segmentEvents seg.
Proof. unfold Streaming.segmentEvents. rewrite framePayload_leading. reflexivity. Qed.

Lemma segmentEvents_nil : segmentEvents "" = [].
Proof. reflexivity. Qed.

Lemma segmentEvents_newline : segmentEvents newline = [].
Proof. reflexivity. Qed.

(** The frames a call iterates over are the closed segments, with the open
    segment added when the buffer is terminated; that one is silent. *)
Lemma completeFrames_scan (buffer : string) :
  completeFrames buffer
  = if endsWith delimiter buffer
    then (fst (scan buffer) ++ [snd (scan buffer)])%list
    else fst (scan buffer).
Proof.
  unfold completeFrames. rewrite split_scan.
  destruct (endsWith delimiter buffer); [reflexivity|].
  apply removelast_last.
Qed.

Lemma events_completeFrames (buffer : string) :
  events (extractEventsFromBuffer buffer)
  = flat_map segmentEvents (completeFrames buffer).
Proof.
  unfold Streaming.extractEventsFromBuffer, completeFrames.
  destruct (endsWith delimiter buffer); reflexivity.
Qed.

Lemma events_scan (buffer : string) :
  events (extractEventsFromBuffer buffer)
  = flat_map segmentEvents (fst (scan buffer)).
Proof.
  rewrite events_completeFrames, completeFrames_scan.
  destruct (endsWith delimiter buffer) eqn:T; [|reflexivity].
  rewrite flat_map_app. cbn [flat_map].
  destruct (terminated_open _ T) as [-> | ->];
    rewrite ?segmentEvents_nil, ?segmentEvents_newline, !app_nil_r; reflexivity.
Qed.

Lemma remainder_scan (buffer : string) :
  remainder (extractEventsFromBuffer buffer)
  = if endsWith delimiter buffer then "" else snd (scan buffer).
Proof.
  unfold Streaming.extractEventsFromBuffer. cbn [remainder].
  destruct (endsWith delimiter buffer); [reflexivity|].
  rewrite split_scan. apply last_last.
Qed.

(** One more line feed in front of the input: the closed segments keep
    their events, and the open segments stay related. *)
Lemma scan_leading (x : string) :
  flat_map segmentEvents (fst (scan (String nl x)))
  = flat_map segmentEvents (fst (scan x))
  /\ upToNewline (snd (scan (String nl x))) (snd (scan x)).
Proof.
  induction x as [|c x [IHe IHt]].
  - split; [reflexivity|].
    right. left. split; [reflexivity | exact I].
  - destruct (Ascii.eqb c nl) eqn:C.
    + apply Ascii.eqb_eq in C. subst c.
      rewrite scan_close. cbn [closeScan fst snd flat_map].
      rewrite segmentEvents_nil. cbn [app]. split.
      * symmetry. exact IHe.
      * apply upToNewline_sym, IHt.
    + assert (E : (Ascii.eqb nl nl && Ascii.eqb c nl)%bool = false)
        by (rewrite C; apply andb_false_r).
      rewrite (scan_other _ _ _ E). unfold consScan.
      destruct (fst (scan (String c x))) as [|seg rest] eqn:F.
      * cbn [fst snd flat_map]. split; [reflexivity|].
        right. left. split; [reflexivity|].
        rewrite (scan_open_all _ F). cbn.
        intros ->. rewrite Ascii.eqb_refl in C. discriminate C.
      * cbn [fst snd flat_map]. rewrite segmentEvents_leading.
        split; [reflexivity | apply upToNewline_refl].
Qed.

(** One call of the decoder on [buffer ++ chunk], against the scan of the
    whole input continued over the same chunk. *)
Lemma decode_step (open buffer chunk : string) :
  upToNewline open buffer ->
  flat_map segmentEvents (fst (scan (open ++ chunk)))
  = events (extractEventsFromBuffer (buffer ++ chunk))
  /\ upToNewline (snd (scan (open ++ chunk)))
                 (remainder (extractEventsFromBuffer (buffer ++ chunk))).
Proof.
  intros R. rewrite events_scan, remainder_scan.
  destruct R as [E | [[E N] | [E N]]]; subst.
  - split; [reflexivity|].
    destruct (endsWith delimiter (buffer ++ chunk)) eqn:T.
    + apply (upToNewline_terminated _ _ (upToNewline_refl _)).
      apply terminated_open, T.
    + apply upToNewline_refl.
  - change (String nl buffer ++ chunk) with (String nl (buffer ++ chunk)).
    destruct (scan_leading (buffer ++ chunk)) as [He Ht].
    split; [exact He|].
    destruct (endsWith delimiter (buffer ++ chunk)) eqn:T; [|exact Ht].
    apply (upToNewline_terminated _ _ (upToNewline_sym _ _ Ht)).
    apply terminated_open, T.
  - change (String nl open ++ chunk) with (String nl (open ++ chunk)).
    destruct (scan_leading (open ++ chunk)) as [He Ht].
    split; [symmetry; exact He|].
    destruct (endsWith delimiter (String nl (open ++ chunk))) eqn:T.
    + apply (upToNewline_terminated _ _ Ht).
      apply terminated_open, T.
    + apply upToNewline_sym, Ht.
Qed.

(** The read loop against the scan of everything received so far. *)
Lemma feed_scan (chunks : list string) :
  forall received buffer,
    upToNewline (snd (scan received)) buffer ->
    flat_map segmentEvents (fst (scan (received ++ join chunks)))
    = (flat_map segmentEvents (fst (scan received)) ++ fst (feed buffer chunks))%list
    /\ upToNewline (snd (scan (received ++ join chunks)))
                   (snd (feed buffer chunks)).
Proof.
  induction chunks as [|chunk rest IH]; intros received buffer R.
  - change (join []) with "". rewrite append_nil_r.
    cbn [Streaming.feed fst snd]. rewrite app_nil_r. split; [reflexivity | exact R].
  - rewrite join_cons, <- append_assoc.
    destruct (decode_step _ _ chunk R) as [He Ht].
    assert (R' : upToNewline (snd (scan (received ++ chunk)))
                   (remainder (extractEventsFromBuffer (buffer ++ chunk)))).
    { rewrite scan_append. cbn [snd]. exact Ht. }
    destruct (IH _ _ R') as [IHe IHt].
    cbn [Streaming.feed].
    destruct (Streaming.feed JSON_parse
                (remainder (extractEventsFromBuffer (buffer ++ chunk))) rest)
      as [evs final] eqn:F.
    cbn [fst snd] in *. split; [|exact IHt].
    rewrite IHe, scan_append. cbn [fst].
    rewrite flat_map_app, He, app_assoc. reflexivity.
Qed.

End DecoderFacts.

(** ** Claims about the decoder *)

Section DecoderClaims.

Variable JSON_parse : string -> option JValue.

Local Abbreviation segmentEvents := (segmentEvents JSON_parse).
Local Abbreviation extractEventsFromBuffer := (extractEventsFromBuffer JSON_parse).
Local Abbreviation feed := (feed JSON_parse).

(** C1 (amended).  Decoding chunk by chunk, each call fed the previous
    remainder followed by the next chunk, yields the same events in the same
    order as one call on the concatenation of the chunks.  The final
    remainders are equal or differ by one leading line feed: a call whose
    buffer ends with three line feeds returns the empty remainder, where the
    single call keeps the third line feed for the next delimiter. *)
Theorem chunking_preserves_events (chunks : list string) :
  fst (feed "" chunks) = events (extractEventsFromBuffer (join chunks))
  /\ upToNewline (remainder (extractEventsFromBuffer (join chunks)))
                 (snd (feed "" chunks)).
Proof.
  destruct (feed_scan JSON_parse chunks "" "" (upToNewline_refl _)) as [He Ht].
  cbn [append scan fst flat_map app] in He, Ht.
  rewrite events_scan, remainder_scan. split; [symmetry; exact He|].
  destruct (endsWith delimiter (join chunks)) eqn:T; [|exact Ht].
  apply upToNewline_sym.
  apply (upToNewline_terminated _ _ Ht).
  apply terminated_open, T.
Qed.

(** C7.  For a buffer that does not end with the delimiter, the remainder
    is the last segment of the split, verbatim: the buffer is some text that
    is empty or ends with a delimiter, followed by the remainder, which holds
    no delimiter; the events are those of the segments before it, that is,
    the events of the buffer cut in front of the remainder.  For a buffer
    that ends with the delimiter the remainder is the empty string. *)
Theorem remainder_is_last_segment (buffer : string) :
  (endsWith delimiter buffer = false ->
     let r := extractEventsFromBuffer buffer in
     remainder r = last (split delimiter buffer) ""
     /\ events r = flat_map segmentEvents (removelast (split delimiter buffer))
     /\ split delimiter (remainder r) = [remainder r]
     /\ exists closed,
          buffer = closed ++ remainder r
          /\ (closed = "" \/ endsWith delimiter closed = true)
          /\ events r = events (extractEventsFromBuffer closed))
  /\ (endsWith delimiter buffer = true ->
        remainder (extractEventsFromBuffer buffer) = "").
Proof.
  split; intros T.
  - cbn zeta.
    assert (R : remainder (extractEventsFromBuffer buffer) = snd (scan buffer))
      by (rewrite remainder_scan, T; reflexivity).
    rewrite R. repeat split.
    + rewrite split_scan. symmetry. apply last_last.
    + rewrite events_scan, split_scan, removelast_last. reflexivity.
    + apply split_open.
    + exists (closedText buffer).
      destruct (scan_closedText buffer) as [S1 S2].
      repeat split.
      * exact S1.
      * apply closedText_terminated.
      * rewrite !events_scan, S2. reflexivity.
  - rewrite remainder_scan, T. reflexivity.
Qed.

End DecoderClaims.

(** C1, as stated, fails: after the chunk ["x\n\n\n"] the remainder is
    empty, so the chunk ["\ny"] leaves ["\ny"], while the single call on
    ["x\n\n\n\ny"] leaves ["y"]. *)
Lemma chunking_remainder_differs :
  feed sampleParse "" oddNewlineChunks = ([], String nl "y")
  /\ extractEventsFromBuffer sampleParse (join oddNewlineChunks)
     = {| events := []; remainder := "y" |}
  /\ snd (feed sampleParse "" oddNewlineChunks)
     <> remainder (extractEventsFromBuffer sampleParse (join oddNewlineChunks)).
Proof.
  split; [reflexivity|]. split; [reflexivity|].
  vm_compute. discriminate.
Qed.

Lemma remainder_is_last_segment_witness :
  endsWith delimiter mixedBuffer = false
  /\ remainder (extractEventsFromBuffer sampleParse mixedBuffer) = "data: {"
  /\ endsWith delimiter ("data: [DONE]" ++ delimiter) = true
  /\ remainder (extractEventsFromBuffer sampleParse ("data: [DONE]" ++ delimiter)) = "".
Proof.
  split; [reflexivity|]. split.
  - exact (proj1 (proj1 (remainder_is_last_segment sampleParse mixedBuffer) eq_refl)).
  - split; [reflexivity|].
    exact (proj2 (remainder_is_last_segment sampleParse ("data: [DONE]" ++ delimiter))
             eq_refl).
Defined.

(** ** Claims about text extraction *)

Section ExtractionClaims.

Lemma withField_lookup {A : Type} (name : string) (f : JValue -> A) (d : A)
    (record : list (string * JValue)) :
  withField name f d record
  = match lookup name record with Some v => f v | None => d end.
Proof.
  induction record as [|[k v] rest IH]; [reflexivity|].
  cbn [withField lookup]. destruct (k =? name); [reflexivity | exact IH].
Qed.

Lemma joinMap_join (f : JValue -> string) (items : list JValue) :
  joinMap f items = join (map f items).
Proof.
  induction items as [|x rest IH]; [reflexivity|].
  cbn [joinMap map]. rewrite join_cons, <- IH. reflexivity.
Qed.

(** C5 (amended).  Both extractors return a string as it is and join the
    extractions of the elements of an array in order.  On an object they
    use one field only, the first that applies: [text] when it is a string;
    then, for reasoning only, [summary] when it is a string (followed by two
    line feeds) and [data] when it is a string; then [content], extracted
    recursively, when it is present; an object with none of these gives the
    empty string. *)
Theorem extraction_uses_first_field
    (s : string) (items : list JValue) (record : list (string * JValue)) :
  extractTextFromContent (JString s) = s
  /\ extractReasoningText (JString s) = s
  /\ extractTextFromContent (JArray items) = join (map extractTextFromContent items)
  /\ extractReasoningText (JArray items) = join (map extractReasoningText items)
  /\ extractTextFromContent (JObject record)
     = match lookup "text" record with
       | Some (JString text) => text
       | _ =>
           match lookup "content" record with
           | Some c => extractTextFromContent c
           | None => ""
           end
       end
  /\ extractReasoningText (JObject record)
     = match lookup "text" record with
       | Some (JString text) => text
       | _ =>
           match lookup "summary" record with
           | Some (JString summary) => summary ++ delimiter
           | _ =>
               match lookup "data" record with
               | Some (JString data) => data
               | _ =>
                   match lookup "content" record with
                   | Some c => extractReasoningText c
                   | None => ""
                   end
               end
           end
       end.
Proof.
  split; [reflexivity|]. split; [reflexivity|].
  split; [apply (joinMap_join extractTextFromContent)|].
  split; [apply (joinMap_join extractReasoningText)|].
  split.
  - cbn [extractTextFromContent]. rewrite withField_lookup. reflexivity.
  - cbn [extractReasoningText]. rewrite withField_lookup. reflexivity.
Qed.

End ExtractionClaims.

(** C5, as stated, fails: of an object with a [text] and a [content] field
    only the [text] is extracted; the string under [content] is not
    contributed. *)
Lemma extraction_drops_second_field :
  extractTextFromContent textAndContent = "a"
  /\ extractReasoningText textAndContent = "a"
  /\ ExtractionSpec.allLeaves textAndContent = "ab"
  /\ extractTextFromContent textAndContent <> ExtractionSpec.allLeaves textAndContent
  /\ extractReasoningText textAndContent <> ExtractionSpec.allLeaves textAndContent.
Proof. repeat split; try reflexivity; vm_compute; discriminate. Qed.

(** ** Claims about the message fold *)

Section MessageClaims.

(** An event for a message that is no longer in the list changes nothing. *)
Lemma updateMessageById_absent
    (messages : list ChatMessage) (target : string)
    (updater : ChatMessage -> ChatMessage) :
  findIndex target messages = None ->
  updateMessageById messages target updater = messages.
Proof. intros H. unfold updateMessageById. rewrite H. reflexivity. Qed.

(** The first message with the given id is replaced by its update. *)
Lemma updateMessageById_first
    (m : ChatMessage) (rest : list ChatMessage)
    (updater : ChatMessage -> ChatMessage) :
  updateMessageById (m :: rest) (id m) updater = updater m :: rest.
Proof.
  unfold updateMessageById. cbn [findIndex].
  rewrite String.eqb_refl. reflexivity.
Qed.

Lemma delta_keeps_duration (now : Z) (content reasoning : option string)
    (message : ChatMessage) (d : Z) :
  reasoningDurationSeconds message = Some d ->
  reasoningDurationSeconds (applyDelta now content reasoning message) = Some d.
Proof.
  intros H. unfold applyDelta.
  destruct (hasText reasoning); [exact H|].
  destruct (hasText content && truthy (isReasoningStreaming message))%bool;
    cbn [reasoningDurationSeconds]; [|exact H].
  rewrite H. reflexivity.
Qed.

Lemma streamEnd_keeps_duration (now : Z) (message : ChatMessage) (d : Z) :
  reasoningDurationSeconds message = Some d ->
  reasoningDurationSeconds (finalizeDone now message) = Some d.
Proof.
  intros H. unfold finalizeDone. cbn [reasoningDurationSeconds].
  rewrite H. reflexivity.
Qed.

Lemma fold_keeps_duration (message : ChatMessage) (d : Z) (f : Fold) :
  isFailure f = false ->
  reasoningDurationSeconds message = Some d ->
  reasoningDurationSeconds (foldInto message f) = Some d.
Proof.
  intros N H. destruct f as [now content reasoning | now | fallback];
    cbn [foldInto].
  - destruct (negb (hasText content) && negb (hasText reasoning))%bool;
      [exact H | apply delta_keeps_duration, H].
  - apply streamEnd_keeps_duration, H.
  - discriminate N.
Qed.

(** C3 (amended).  Once [reasoningDurationSeconds] is set, every later
    [delta] event, with reasoning or with content, and the finalization at
    the end of the stream leave its value as it is, over any sequence of
    them.  The finalization after a failure does not keep it: it resets the
    field to [undefined]. *)
Theorem duration_frozen_until_failure
    (message : ChatMessage) (d : Z) (fs : list Fold) (fallback : string) :
  reasoningDurationSeconds message = Some d ->
  forallb (fun f => negb (isFailure f)) fs = true ->
  reasoningDurationSeconds (foldAll message fs) = Some d
  /\ reasoningDurationSeconds (foldInto (foldAll message fs) (FoldFailure fallback))
     = None.
Proof.
  intros H Hfs. split; [|reflexivity].
  unfold foldAll. revert message H.
  induction fs as [|f fs IH]; intros message H; [exact H|].
  cbn [forallb] in Hfs. apply andb_prop in Hfs. destruct Hfs as [Hf Hfs].
  cbn [fold_left]. apply (IH Hfs).
  apply fold_keeps_duration; [|exact H].
  destruct (isFailure f); [discriminate Hf | reflexivity].
Qed.

(** C4 (amended).  [reasoningStoppedAt] is assigned by the [delta] events
    that carry reasoning text, each of which sets it to the current time.
    A [delta] event without reasoning text leaves it as it is, also when it
    ends the reasoning phase, and both finalizations reset it to
    [undefined]. *)
Theorem stoppedAt_follows_reasoning (message : ChatMessage) (f : Fold) :
  reasoningStoppedAt (foldInto message f)
  = match f with
    | FoldDelta now _ reasoning =>
        if hasText reasoning then Some now else reasoningStoppedAt message
    | FoldStreamEnd _ => None
    | FoldFailure _ => None
    end.
Proof.
  destruct f as [now content reasoning | now | fallback]; cbn [foldInto];
    [|reflexivity|reflexivity].
  unfold applyDelta.
  destruct (hasText reasoning); cbn [negb andb].
  - rewrite andb_false_r. reflexivity.
  - destruct (hasText content); cbn [negb andb]; [|reflexivity].
    destruct (truthy (isReasoningStreaming message)); reflexivity.
Qed.

End MessageClaims.

(** C3, as stated, fails on the failure path: a message whose duration was
    frozen at one second loses it when a failure is folded in. *)
Lemma failure_clears_duration :
  reasoningDurationSeconds answeredMessage = Some 1%Z
  /\ reasoningDurationSeconds (foldInto answeredMessage (FoldFailure "boom")) = None
  /\ reasoningDurationSeconds (foldInto answeredMessage (FoldFailure "boom"))
     <> reasoningDurationSeconds answeredMessage.
Proof. repeat split; try reflexivity. vm_compute. discriminate. Qed.

Lemma duration_frozen_until_failure_witness :
  reasoningDurationSeconds answeredMessage = Some 1%Z
  /\ reasoningDurationSeconds
       (foldAll answeredMessage
          [FoldDelta 4000 None (Some "more"); FoldDelta 5000 (Some "!") None;
           FoldStreamEnd 6000])
     = Some 1%Z.
Proof.
  split; [reflexivity|].
  exact (proj1 (duration_frozen_until_failure answeredMessage 1
                  [FoldDelta 4000 None (Some "more"); FoldDelta 5000 (Some "!") None;
                   FoldStreamEnd 6000] "boom" eq_refl eq_refl)).
Defined.

(** C4, as stated, fails: a [delta] event that carries only reasoning text
    assigns [reasoningStoppedAt]. *)
Lemma reasoning_delta_assigns_stoppedAt :
  reasoningStoppedAt (createPlaceholderMessage "m1") = None
  /\ reasoningStoppedAt
       (foldInto (createPlaceholderMessage "m1") (FoldDelta 1000 None (Some "hmm")))
     = Some 1000%Z.
Proof. split; reflexivity. Qed.

(** ** Claims about the request mapping *)

Section ApiClaims.

(** C10.  A message whose content trims to the empty string and that has at
    least one attachment is mapped to a list of parts: first a text part
    with the fixed fallback sentence, then one [image_url] part per
    attachment, in order, each with the attachment's data URL. *)
Theorem attachment_only_message_gets_fallback
    (message : ChatMessage) (first : ChatAttachment) (others : list ChatAttachment) :
  trim (content message) = "" ->
  attachments message = Some (first :: others) ->
  mapMessageToApiContent message
  = inr (TextPart "Please analyze the attached image(s) and describe what you see."
         :: map (fun a => ImageUrlPart (Types.dataUrl a)) (first :: others)).
Proof.
  intros Ht Ha. unfold mapMessageToApiContent, hasAttachments.
  rewrite Ht, Ha. reflexivity.
Qed.

End ApiClaims.

Lemma attachment_only_message_gets_fallback_witness :
  trim (content imageOnlyMessage) = ""
  /\ mapMessageToApiContent imageOnlyMessage
     = inr [TextPart ATTACHMENT_ONLY_FALLBACK_TEXT;
            ImageUrlPart "data:image/jpeg;base64,QUJD";
            ImageUrlPart "data:image/jpeg;base64,QUI="].
Proof.
  split; [reflexivity|].
  exact (attachment_only_message_gets_fallback imageOnlyMessage _ _ eq_refl eq_refl).
Defined.

(** ** Claims about the size estimate *)

Section EstimateFacts.

Local Open Scope Z_scope.

Lemma list_triple_ind {A : Type} (P : list A -> Prop) :
  P [] ->
  (forall a, P [a]) ->
  (forall a b, P [a; b]) ->
  (forall a b c rest, P rest -> P (a :: b :: c :: rest)) ->
  forall l, P l.
Proof.
  intros H0 H1 H2 H3 l.
  assert (H : P l /\ (forall a, P (a :: l)) /\ (forall a b, P (a :: b :: l))).
  { induction l as [|x l (IH0 & IH1 & IH2)].
    - repeat split; auto.
    - repeat split; auto. }
  exact (proj1 H).
Qed.

Lemma split_comma_hit (s : string) :
  split "," (String "," s) = ""%string :: split "," s.
Proof. unfold split. cbn [split_go String.prefix]. rewrite prefix_nil. reflexivity. Qed.

Lemma split_comma_other (c : ascii) (s : string) :
  notComma c = true ->
  split "," (String c s) = cons_head c (split "," s).
Proof.
  intros H. unfold split. cbn [split_go String.prefix].
  destruct (ascii_dec "," c) as [<-|N]; [discriminate H | reflexivity].
Qed.

Lemma split_comma_none (s : string) :
  everyChar notComma s = true -> split "," s = [s].
Proof.
  induction s as [|c s IH]; intros H; [reflexivity|].
  cbn [everyChar] in H. apply andb_prop in H. destruct H as [Hc Hs].
  rewrite (split_comma_other _ _ Hc), (IH Hs). reflexivity.
Qed.

Lemma split_comma_first (header rest : string) :
  everyChar notComma header = true ->
  split "," (header ++ String "," rest) = header :: split "," rest.
Proof.
  induction header as [|c header IH]; intros H.
  - apply split_comma_hit.
  - cbn [everyChar] in H. apply andb_prop in H. destruct H as [Hc Hs].
    cbn [append]. rewrite (split_comma_other _ _ Hc), (IH Hs). reflexivity.
Qed.

(** The encoded portion of a data URL whose header and payload hold no
    comma. *)
Lemma base64Part_after_header (header body : string) :
  everyChar notComma header = true ->
  everyChar notComma body = true ->
  base64Part (header ++ String "," body) = body.
Proof.
  intros Hh Hb. unfold base64Part.
  rewrite (split_comma_first _ _ Hh), (split_comma_none _ Hb). reflexivity.
Qed.

Lemma sextet_plain (n : N) :
  notComma (sextet n) = true /\ notPad (sextet n) = true.
Proof.
  unfold sextet.
  assert (B : (N.to_nat (n mod 64) < 64)%nat).
  { pose proof (N.mod_upper_bound n 64). lia. }
  destruct (N.to_nat (n mod 64)) as [|k]; [split; reflexivity|].
  do 63 (destruct k as [|k]; [split; reflexivity|]).
  lia.
Qed.

Lemma paddingOf_cons (c : ascii) (s : string) :
  notPad c = true -> paddingOf (String c s) = paddingOf s.
Proof.
  intros H. unfold paddingOf. rewrite !endsWith_cons.
  assert (E : forall t, (String c s =? String "=" t)%string = false).
  { intros t. apply String.eqb_neq. intros [= -> _]. discriminate H. }
  rewrite !E. reflexivity.
Qed.

(** The encoding has four characters for every three bytes started, none
    of them a comma, and as many pad characters as bytes are missing from
    the last group. *)
Lemma base64_encode_shape (payload : list Byte.byte) :
  everyChar notComma (base64_encode payload) = true
  /\ exists groups : Z,
       0 <= groups
       /\ Z.of_nat (String.length (base64_encode payload)) = 4 * groups
       /\ 3 * groups - paddingOf (base64_encode payload)
          = Z.of_nat (List.length payload)
       /\ 0 <= paddingOf (base64_encode payload) <= 2.
Proof.
  induction payload as [| a | a b | a b c rest [IHc (g & G0 & G1 & G2 & G3)]]
    using list_triple_ind.
  - split; [reflexivity|]. exists 0. repeat split; reflexivity || (cbv; discriminate).
  - cbn [base64_encode]. split.
    + cbn [everyChar]. rewrite !(proj1 (sextet_plain _)). reflexivity.
    + exists 1. rewrite !paddingOf_cons by apply sextet_plain.
      repeat split; reflexivity || (cbv; discriminate).
  - cbn [base64_encode]. split.
    + cbn [everyChar]. rewrite !(proj1 (sextet_plain _)). reflexivity.
    + exists 1. rewrite !paddingOf_cons by apply sextet_plain.
      repeat split; reflexivity || (cbv; discriminate).
  - cbn [base64_encode]. split.
    + cbn [everyChar]. rewrite !(proj1 (sextet_plain _)), IHc. reflexivity.
    + exists (g + 1). rewrite !paddingOf_cons by apply sextet_plain.
      cbn [String.length List.length]. repeat split; lia.
Qed.

Lemma estimate_of_encoding (header : string) (payload : list Byte.byte) :
  everyChar notComma header = true ->
  estimateBase64Size (header ++ String "," (base64_encode payload))
  = Z.of_nat (List.length payload).
Proof.
  intros Hh.
  destruct (base64_encode_shape payload) as (Hc & g & G0 & G1 & G2 & G3).
  unfold estimateBase64Size. rewrite (base64Part_after_header _ _ Hh Hc).
  destruct (base64_encode payload =? "")%string eqn:E.
  - apply String.eqb_eq in E. rewrite E in G1, G2.
    change (paddingOf "") with 0 in G2.
    change (Z.of_nat (String.length "")) with 0 in G1. lia.
  - rewrite G1.
    replace (4 * g * 3) with (3 * g * 4) by lia.
    rewrite Z.div_mul by lia. lia.
Qed.

(** C8.  For a data URL whose text after the first comma is the standard
    base64 encoding of a payload, [estimateBase64Size] returns the length of
    the payload, whether the encoding ends with no, one or two pad
    characters. *)
Theorem estimateBase64Size_exact (header : string) (payload : list Byte.byte) :
  everyChar notComma header = true ->
  estimateBase64Size (header ++ "," ++ base64_encode payload)
  = Z.of_nat (List.length payload)
  /\ paddingOf (base64_encode payload)
     = (3 - Z.of_nat (List.length payload) mod 3) mod 3.
Proof.
  intros Hh. split; [apply estimate_of_encoding, Hh|].
  destruct (base64_encode_shape payload) as (_ & g & G0 & G1 & G2 & G3).
  assert (L : Z.of_nat (List.length payload)
              = 3 * g - paddingOf (base64_encode payload)) by lia.
  rewrite L.
  replace (3 * g - paddingOf (base64_encode payload))
    with (- paddingOf (base64_encode payload) + g * 3) by lia.
  rewrite Z.mod_add by lia.
  assert (C : paddingOf (base64_encode payload) = 0
              \/ paddingOf (base64_encode payload) = 1
              \/ paddingOf (base64_encode payload) = 2) by lia.
  destruct C as [-> | [-> | ->]]; reflexivity.
Qed.

End EstimateFacts.

Lemma estimateBase64Size_exact_witness :
  everyChar notComma "data:image/png;base64" = true
  /\ base64_encode [Byte.x41; Byte.x42; Byte.x43; Byte.x44] = "QUJDRA=="%string
  /\ estimateBase64Size "data:image/png;base64,QUJDRA==" = 4%Z.
Proof.
  split; [reflexivity|]. split; [reflexivity|].
  exact (proj1 (estimateBase64Size_exact "data:image/png;base64"
                  [Byte.x41; Byte.x42; Byte.x43; Byte.x44] eq_refl)).
Defined.

(** ** Claims about the compression loop *)

Section RationalFacts.

Local Open Scope Q_scope.

Lemma Qle_bool_false (a b : Q) : Qle_bool a b = false -> b < a.
Proof.
  intros E. destruct (Qlt_le_dec b a) as [L|L]; [exact L|].
  apply Qle_bool_iff in L. congruence.
Qed.

Lemma Qgtb_true (a b : Q) : Qgtb a b = true <-> b < a.
Proof.
  unfold Qgtb. split.
  - intros H. apply Qle_bool_false. destruct (Qle_bool a b); [discriminate H | reflexivity].
  - intros H. destruct (Qle_bool a b) eqn:E; [|reflexivity].
    apply Qle_bool_iff in E. exfalso. apply (Qlt_irrefl b).
    apply Qlt_le_trans with a; assumption.
Qed.

Lemma qmax_ge_l (a b : Q) : a <= qmax a b.
Proof.
  unfold qmax. destruct (Qle_bool a b) eqn:E;
    [apply Qle_bool_iff, E | apply Qle_refl].
Qed.

Lemma qmin_le_l (a b : Q) : qmin a b <= a.
Proof.
  unfold qmin. destruct (Qle_bool a b) eqn:E; [apply Qle_refl|].
  apply Qlt_le_weak, Qle_bool_false, E.
Qed.

Lemma qmin_mono_r (a b c : Q) : b <= c -> qmin a b <= qmin a c.
Proof.
  intros H. unfold qmin.
  destruct (Qle_bool a b) eqn:A; destruct (Qle_bool a c) eqn:C.
  - apply Qle_refl.
  - apply Qle_bool_iff in A. apply Qle_bool_false in C.
    exfalso. apply (Qlt_irrefl a).
    apply Qle_lt_trans with c; [|exact C].
    apply Qle_trans with b; assumption.
  - apply Qlt_le_weak, Qle_bool_false, A.
  - exact H.
Qed.

Lemma qmin_pos_r (a b : Q) : 0 < qmin a b -> 0 < a -> 0 < b.
Proof.
  unfold qmin. destruct (Qle_bool a b) eqn:A; intros H Ha; [|exact H].
  apply Qle_bool_iff in A. apply Qlt_le_trans with a; assumption.
Qed.

Lemma edge_ratio_le (m : Z) :
  0 < inject_Z MAX_ATTACHMENT_EDGE / inject_Z m ->
  0 <= inject_Z MIN_ATTACHMENT_EDGE / inject_Z m
  /\ inject_Z MIN_ATTACHMENT_EDGE / inject_Z m
     <= inject_Z MAX_ATTACHMENT_EDGE / inject_Z m.
Proof.
  unfold Qlt, Qle, Qdiv, Qmult, Qinv, inject_Z,
    MIN_ATTACHMENT_EDGE, MAX_ATTACHMENT_EDGE.
  destruct m as [|p|p]; cbn; lia.
Qed.

End RationalFacts.

(** ** Doubles *)

Section NumberFacts.

Local Open Scope Q_scope.

Lemma pow2_pos (e : Z) : 0 < pow2 e.
Proof. apply Qpower_0_lt. reflexivity. Qed.

Lemma pow2_plus (a b : Z) : pow2 (a + b) == pow2 a * pow2 b.
Proof. apply Qpower_plus. discriminate. Qed.

Lemma pow2_succ (a : Z) : pow2 (a + 1) == 2 * pow2 a.
Proof. rewrite pow2_plus. change (pow2 1) with 2. ring. Qed.

Lemma pow2_le (a b : Z) : (a <= b)%Z -> pow2 a <= pow2 b.
Proof. intros H. apply Qpower_le_compat_l; [exact H | discriminate]. Qed.

Lemma pow2_lt_inv (a b : Z) : pow2 a < pow2 b -> (a < b)%Z.
Proof. intros H. apply (Qpower_lt_compat_l_inv 2); [exact H | reflexivity]. Qed.

Lemma pow2_Z (a : Z) : (0 <= a)%Z -> pow2 a == inject_Z (2 ^ a).
Proof. intros H. unfold pow2. rewrite Zpower_Qpower by exact H. reflexivity. Qed.

(** [exponentOf x] is the integer part of the binary logarithm. *)
Lemma exponentOf_spec (x : Q) :
  0 < x -> pow2 (exponentOf x) <= x /\ x < pow2 (exponentOf x + 1).
Proof.
  intros P. destruct x as [n d].
  assert (Pn : (0 < n)%Z) by (unfold Qlt in P; cbn in P; lia).
  unfold exponentOf. cbn [Qnum Qden].
  set (a := Z.log2 n). set (b := Z.log2 (Z.pos d)).
  destruct (Z.log2_spec n Pn) as [La Ua]. fold a in La, Ua.
  destruct (Z.log2_spec (Z.pos d) (Pos2Z.is_pos d)) as [Lb Ub]. fold b in Lb, Ub.
  assert (A0 : (0 <= a)%Z) by apply Z.log2_nonneg.
  assert (B0 : (0 <= b)%Z) by apply Z.log2_nonneg.
  assert (E : n # d == inject_Z n / inject_Z (Z.pos d)) by apply Qmake_Qdiv.
  assert (Dp : 0 < inject_Z (Z.pos d)) by reflexivity.
  rewrite Zle_Qle in La, Lb. rewrite Zlt_Qlt in Ua, Ub.
  replace (Z.succ a) with (a + 1)%Z in Ua by lia.
  replace (Z.succ b) with (b + 1)%Z in Ub by lia.
  rewrite <- pow2_Z in La, Lb, Ua, Ub by lia.
  rewrite pow2_succ in Ua, Ub.
  pose proof (pow2_pos a) as Pa. pose proof (pow2_pos b) as Pb.
  assert (K : pow2 (a - b) * pow2 b == pow2 a).
  { rewrite <- pow2_plus. replace (a - b + b)%Z with a by lia. reflexivity. }
  pose proof (pow2_pos (a - b)) as Pk.
  set (N := inject_Z n) in *. set (D := inject_Z (Z.pos d)) in *.
  set (A := pow2 a) in *. set (B := pow2 b) in *. set (C := pow2 (a - b)) in *.
  assert (X : (n # d) * D == N).
  { rewrite E. field. intros Z0. rewrite Z0 in Dp. discriminate Dp. }
  destruct (Qle_bool C (n # d)) eqn:T.
  - apply Qle_bool_iff in T. split; [exact T|].
    rewrite pow2_succ. fold C.
    (* x * D = N < 2A = 2 C B <= 2 C D *)
    apply Qmult_lt_r with D; [exact Dp|]. rewrite X.
    apply Qlt_le_trans with (2 * A); [exact Ua|].
    rewrite <- K. 
    setoid_replace (2 * (C * B)) with (2 * C * B) by ring.
    apply Qmult_le_l; [lra|exact Lb].
  - assert (T' : n # d < C).
    { destruct (Qlt_le_dec (n # d) C) as [L|L]; [exact L|].
      apply Qle_bool_iff in L. congruence. }
    replace (a - b - 1 + 1)%Z with (a - b)%Z by lia. split; [|exact T'].
    (* 2^(a-b-1) * D <= C/2 * 2B = C B = A <= N = x D *)
    assert (H2 : pow2 (a - b - 1) * 2 == C).
    { unfold C. replace (a - b)%Z with (a - b - 1 + 1)%Z at 2 by lia.
      rewrite pow2_succ. ring. }
    apply Qmult_le_r with D; [exact Dp|]. rewrite X.
    apply Qle_trans with A; [|exact La].
    rewrite <- K, <- H2.
    pose proof (pow2_pos (a - b - 1)) as Ph.
    set (Hh := pow2 (a - b - 1)) in *.
    setoid_replace (Hh * 2 * B) with (Hh * (2 * B)) by ring.
    apply Qmult_le_l; [exact Ph | lra].
Qed.

Lemma exponentOf_unique (x : Q) (e : Z) :
  pow2 e <= x -> x < pow2 (e + 1) -> exponentOf x = e.
Proof.
  intros L U.
  assert (P : 0 < x) by (apply Qlt_le_trans with (pow2 e); [apply pow2_pos | exact L]).
  destruct (exponentOf_spec x P) as [L' U'].
  assert (A : (exponentOf x < e + 1)%Z)
    by (apply pow2_lt_inv; apply Qle_lt_trans with x; assumption).
  assert (B : (e < exponentOf x + 1)%Z)
    by (apply pow2_lt_inv; apply Qle_lt_trans with x; assumption).
  lia.
Qed.

Lemma exponentOf_comp (x y : Q) : 0 < x -> x == y -> exponentOf x = exponentOf y.
Proof.
  intros P E. destruct (exponentOf_spec x P) as [L U].
  symmetry. apply exponentOf_unique; rewrite <- E; assumption.
Qed.

Lemma exponentOf_le (x y : Q) : 0 < x -> x <= y -> (exponentOf x <= exponentOf y)%Z.
Proof.
  intros P H.
  assert (Py : 0 < y) by (apply Qlt_le_trans with x; assumption).
  destruct (exponentOf_spec x P) as [L _].
  destruct (exponentOf_spec y Py) as [_ U].
  assert (A : (exponentOf x < exponentOf y + 1)%Z).
  { apply pow2_lt_inv. apply Qle_lt_trans with x; [exact L|].
    apply Qle_lt_trans with y; assumption. }
  lia.
Qed.

(** Rounding to the nearest integer, ties to the even one. *)
Lemma roundHalfEven_near (x : Q) :
  x - (1 # 2) <= inject_Z (roundHalfEven x) /\ inject_Z (roundHalfEven x) <= x + (1 # 2).
Proof.
  unfold roundHalfEven.
  pose proof (Qfloor_le x) as L. pose proof (Qlt_floor x) as U.
  rewrite inject_Z_plus in U. change (inject_Z 1) with 1 in U.
  set (f := Qfloor x) in *.
  destruct (Qcompare (x - inject_Z f) (1 # 2)) eqn:C.
  - apply Qeq_alt in C. destruct (Z.even f); rewrite ?inject_Z_plus;
      change (inject_Z 1) with 1; split; lra.
  - apply Qlt_alt in C. split; lra.
  - apply Qgt_alt in C. rewrite inject_Z_plus. change (inject_Z 1) with 1.
    split; lra.
Qed.

Lemma roundHalfEven_comp (x y : Q) : x == y -> roundHalfEven x = roundHalfEven y.
Proof.
  intros E. unfold roundHalfEven.
  rewrite (Qfloor_comp _ _ E).
  assert (C : Qcompare (x - inject_Z (Qfloor y)) (1 # 2)
              = Qcompare (y - inject_Z (Qfloor y)) (1 # 2))
    by (rewrite E; reflexivity).
  rewrite C. reflexivity.
Qed.

Lemma roundHalfEven_Z (z : Z) : roundHalfEven (inject_Z z) = z.
Proof.
  unfold roundHalfEven. rewrite Qfloor_Z.
  assert (C : Qcompare (inject_Z z - inject_Z z) (1 # 2) = Lt).
  { apply Qlt_alt. setoid_replace (inject_Z z - inject_Z z) with 0 by ring.
    reflexivity. }
  rewrite C. reflexivity.
Qed.

Lemma roundHalfEven_le (x y : Q) : x <= y -> (roundHalfEven x <= roundHalfEven y)%Z.
Proof.
  intros H.
  destruct (Z_le_gt_dec (roundHalfEven x) (roundHalfEven y)) as [L|G]; [exact L|].
  exfalso.
  destruct (roundHalfEven_near x) as [_ Ux].
  destruct (roundHalfEven_near y) as [Ly _].
  assert (G' : (roundHalfEven y + 1 <= roundHalfEven x)%Z) by lia.
  rewrite Zle_Qle, inject_Z_plus in G'. change (inject_Z 1) with 1 in G'.
  assert (E : x == y) by (apply Qle_antisym; [exact H | clear - G' Ux Ly; lra]).
  rewrite (roundHalfEven_comp _ _ E) in G. lia.
Qed.

(** ** The double nearest to a positive rational *)

Lemma double_pos_eq (x : Q) :
  0 < x -> double x == inject_Z (significand x) * pow2 (exponentOf x - 52).
Proof.
  intros P. unfold double. destruct x as [[|p|p] d]; try discriminate P.
  cbn [Qnum]. apply Qred_correct.
Qed.

Lemma double_0 (x : Q) : x == 0 -> double x = 0.
Proof.
  intros E. unfold double. destruct x as [[|p|p] d]; try discriminate E. reflexivity.
Qed.

Lemma double_neg_eq (x : Q) : x < 0 -> double x == - double (- x).
Proof.
  intros N. unfold double. destruct x as [[|p|p] d]; try discriminate N.
  cbn [Qnum Qopp Z.opp]. rewrite !Qred_correct. reflexivity.
Qed.

Lemma scaled_range (x : Q) :
  0 < x ->
  pow2 52 <= x / pow2 (exponentOf x - 52) /\ x / pow2 (exponentOf x - 52) < pow2 53.
Proof.
  intros P. destruct (exponentOf_spec x P) as [L U].
  set (e := exponentOf x) in *.
  pose proof (pow2_pos (e - 52)) as Pe.
  assert (A : pow2 52 * pow2 (e - 52) == pow2 e).
  { rewrite <- pow2_plus. replace (52 + (e - 52))%Z with e by lia. reflexivity. }
  assert (B : pow2 53 * pow2 (e - 52) == pow2 (e + 1)).
  { rewrite <- pow2_plus. replace (53 + (e - 52))%Z with (e + 1)%Z by lia. reflexivity. }
  assert (X : x / pow2 (e - 52) * pow2 (e - 52) == x).
  { field. intros Z0. rewrite Z0 in Pe. discriminate Pe. }
  split.
  - apply Qmult_le_r with (pow2 (e - 52)); [exact Pe|]. rewrite X, A. exact L.
  - apply Qmult_lt_r with (pow2 (e - 52)); [exact Pe|]. rewrite X, B. exact U.
Qed.

Lemma significand_range (x : Q) :
  0 < x -> (2 ^ 52 <= significand x <= 2 ^ 53)%Z.
Proof.
  intros P. destruct (scaled_range x P) as [L U]. unfold significand.
  rewrite (pow2_Z 52) in L by lia. rewrite (pow2_Z 53) in U by lia.
  split.
  - rewrite <- (roundHalfEven_Z (2 ^ 52)). apply roundHalfEven_le, L.
  - rewrite <- (roundHalfEven_Z (2 ^ 53)). apply roundHalfEven_le, Qlt_le_weak, U.
Qed.

Lemma double_positive (x : Q) : 0 < x -> 0 < double x.
Proof.
  intros P. rewrite (double_pos_eq x P).
  destruct (significand_range x P) as [L _].
  apply Qmult_lt_0_compat; [|apply pow2_pos].
  apply Qlt_le_trans with (inject_Z (2 ^ 52)); [reflexivity|].
  rewrite <- Zle_Qle. exact L.
Qed.

Lemma double_nonpositive (x : Q) : x <= 0 -> double x <= 0.
Proof.
  intros H. destruct (Qlt_le_dec x 0) as [N|N].
  - rewrite (double_neg_eq x N).
    assert (P : 0 < - x) by lra.
    pose proof (double_positive _ P). lra.
  - rewrite (double_0 x); [apply Qle_refl | apply Qle_antisym; assumption].
Qed.

Lemma double_canonical (x : Q) : Qred (double x) = double x.
Proof.
  unfold double. destruct (Qnum x); [reflexivity| |];
    apply Qred_complete, Qred_correct.
Qed.

Lemma double_comp_eq (x y : Q) : x == y -> double x == double y.
Proof.
  intros E.
  assert (S : forall u v, 0 < u -> u == v -> double u == double v).
  { intros u v P Euv.
    assert (Pv : 0 < v) by (rewrite <- Euv; exact P).
    rewrite (double_pos_eq u P), (double_pos_eq v Pv). unfold significand.
    rewrite (exponentOf_comp _ _ P Euv).
    rewrite (roundHalfEven_comp (u / pow2 (exponentOf v - 52))
                                (v / pow2 (exponentOf v - 52)));
      [reflexivity|].
    rewrite Euv. reflexivity. }
  destruct (Q_dec x 0) as [[N|P]|Z0].
  - assert (Ny : y < 0) by (rewrite <- E; exact N).
    rewrite (double_neg_eq x N), (double_neg_eq y Ny).
    assert (Eo : - x == - y) by (rewrite E; reflexivity).
    assert (Po : 0 < - x) by lra.
    rewrite (S _ _ Po Eo). reflexivity.
  - apply S; assumption.
  - rewrite (double_0 x Z0), (double_0 y); [reflexivity|].
    rewrite <- E. exact Z0.
Qed.

Lemma double_comp (x y : Q) : x == y -> double x = double y.
Proof.
  intros E. rewrite <- (double_canonical x), <- (double_canonical y).
  apply Qred_complete, double_comp_eq, E.
Qed.

(** The relative error of a rounding is at most 2^-53. *)
Lemma double_error (x : Q) :
  0 < x ->
  x - x * pow2 (-53) <= double x /\ double x <= x + x * pow2 (-53).
Proof.
  intros P. rewrite (double_pos_eq x P). unfold significand.
  destruct (scaled_range x P) as [L _].
  set (e := (exponentOf x - 52)%Z) in *.
  pose proof (pow2_pos e) as Pe.
  destruct (roundHalfEven_near (x / pow2 e)) as [N1 N2].
  set (m := inject_Z (roundHalfEven (x / pow2 e))) in *.
  assert (X : x / pow2 e * pow2 e == x).
  { field. intros Z0. rewrite Z0 in Pe. discriminate Pe. }
  (* pow2 e / 2 <= x * 2^-53 *)
  assert (H : (1 # 2) * pow2 e <= x * pow2 (-53)).
  { assert (A : pow2 52 * pow2 e <= x).
    { rewrite <- X. apply Qmult_le_r; [exact Pe | exact L]. }
    assert (B : pow2 (-53) * pow2 52 == 1 # 2) by reflexivity.
    setoid_replace ((1 # 2) * pow2 e) with (pow2 (-53) * (pow2 52 * pow2 e))
      by (rewrite <- B; ring).
    rewrite (Qmult_comm x). apply Qmult_le_l; [reflexivity | exact A]. }
  assert (M1 : (x / pow2 e - (1 # 2)) * pow2 e <= m * pow2 e)
    by (apply Qmult_le_r; [exact Pe | exact N1]).
  assert (M2 : m * pow2 e <= (x / pow2 e + (1 # 2)) * pow2 e)
    by (apply Qmult_le_r; [exact Pe | exact N2]).
  setoid_replace ((x / pow2 e - (1 # 2)) * pow2 e)
    with (x / pow2 e * pow2 e - (1 # 2) * pow2 e) in M1 by ring.
  setoid_replace ((x / pow2 e + (1 # 2)) * pow2 e)
    with (x / pow2 e * pow2 e + (1 # 2) * pow2 e) in M2 by ring.
  rewrite X in M1, M2.
  split; lra.
Qed.

(** Rounding is monotone. *)
Lemma double_le_pos (x y : Q) : 0 < x -> x <= y -> double x <= double y.
Proof.
  intros P H.
  assert (Py : 0 < y) by (apply Qlt_le_trans with x; assumption).
  rewrite (double_pos_eq x P), (double_pos_eq y Py).
  pose proof (exponentOf_le x y P H) as E.
  destruct (Z.eq_dec (exponentOf x) (exponentOf y)) as [Eq|Ne].
  - unfold significand. rewrite Eq.
    pose proof (pow2_pos (exponentOf y - 52)) as Pe.
    apply Qmult_le_r; [exact Pe|].
    rewrite <- Zle_Qle. apply roundHalfEven_le.
    apply Qmult_le_r with (pow2 (exponentOf y - 52)); [exact Pe|].
    assert (X : forall u, u / pow2 (exponentOf y - 52) * pow2 (exponentOf y - 52) == u).
    { intros u. field. intros Z0. rewrite Z0 in Pe. discriminate Pe. }
    rewrite !X. exact H.
  - destruct (significand_range x P) as [_ Ux].
    destruct (significand_range y Py) as [Ly _].
    rewrite Zle_Qle in Ux, Ly. rewrite <- !pow2_Z in Ux, Ly by lia.
    pose proof (pow2_pos (exponentOf x - 52)) as Pex.
    pose proof (pow2_pos (exponentOf y - 52)) as Pey.
    apply Qle_trans with (pow2 53 * pow2 (exponentOf x - 52));
      [apply Qmult_le_r; assumption|].
    apply Qle_trans with (pow2 52 * pow2 (exponentOf y - 52));
      [|apply Qmult_le_r; assumption].
    rewrite <- !pow2_plus. apply pow2_le. lia.
Qed.

Lemma double_le (x y : Q) : 0 <= x -> x <= y -> double x <= double y.
Proof.
  intros N H. destruct (Qlt_le_dec 0 x) as [P|Z0].
  - apply double_le_pos; assumption.
  - rewrite (double_0 x) by (apply Qle_antisym; assumption).
    destruct (Qlt_le_dec 0 y) as [Py|Zy].
    + apply Qlt_le_weak, double_positive, Py.
    + rewrite (double_0 y); [apply Qle_refl|]. apply Qle_antisym; [exact Zy | lra].
Qed.

(** Integers below 2^53 are doubles. *)
Lemma double_Z (z : Z) : (0 <= z < 2 ^ 53)%Z -> double (inject_Z z) == inject_Z z.
Proof.
  intros [L U]. destruct (Z.eq_dec z 0) as [->|Nz]; [reflexivity|].
  assert (P : 0 < inject_Z z) by (rewrite <- (Zlt_Qlt 0); lia).
  rewrite (double_pos_eq _ P). unfold significand.
  destruct (exponentOf_spec _ P) as [_ Ue].
  set (e := exponentOf (inject_Z z)) in *.
  assert (E52 : (e <= 52)%Z).
  { destruct (Z_le_gt_dec e 52) as [Le|G]; [exact Le|]. exfalso.
    destruct (exponentOf_spec _ P) as [Le _]. fold e in Le.
    assert (B : pow2 53 <= pow2 e) by (apply pow2_le; lia).
    rewrite (pow2_Z 53) in B by lia.
    assert (C : inject_Z (2 ^ 53) <= inject_Z z) by (apply Qle_trans with (pow2 e); assumption).
    rewrite <- Zle_Qle in C. lia. }
  pose proof (pow2_pos (e - 52)) as Pe.
  assert (I : inject_Z z / pow2 (e - 52) == inject_Z (z * 2 ^ (52 - e))).
  { rewrite inject_Z_mult, <- pow2_Z by lia.
    assert (K : pow2 (52 - e) * pow2 (e - 52) == 1).
    { rewrite <- pow2_plus. replace (52 - e + (e - 52))%Z with 0%Z by lia. reflexivity. }
    apply Qmult_inj_r with (pow2 (e - 52)).
    - intros Z0. rewrite Z0 in Pe. discriminate Pe.
    - setoid_replace (inject_Z z * pow2 (52 - e) * pow2 (e - 52))
        with (inject_Z z * (pow2 (52 - e) * pow2 (e - 52))) by ring.
      rewrite K. field. intros Z0. rewrite Z0 in Pe. discriminate Pe. }
  rewrite (roundHalfEven_comp _ _ I), roundHalfEven_Z, <- I.
  field. intros Z0. rewrite Z0 in Pe. discriminate Pe.
Qed.

Lemma double_nonneg (x : Q) : 0 <= x -> 0 <= double x.
Proof.
  intros H. destruct (Qlt_le_dec 0 x) as [P|Z0].
  - apply Qlt_le_weak, double_positive, P.
  - rewrite (double_0 x); [apply Qle_refl | apply Qle_antisym; assumption].
Qed.

(** [Number(x.toFixed(digits))] for a number that is not negative. *)
Lemma toFixed_nonneg (digits : nat) (x : Q) :
  0 <= x ->
  toFixed digits x
  = double (Qfloor (x * inject_Z (10 ^ Z.of_nat digits) + (1 # 2))
            # Z.to_pos (10 ^ Z.of_nat digits)).
Proof.
  intros H. unfold toFixed, roundHalfUp.
  assert (B : Qle_bool 0 x = true) by (apply Qle_bool_iff, H).
  rewrite B.
  assert (E : Qabs x * inject_Z (10 ^ Z.of_nat digits) + (1 # 2)
              == x * inject_Z (10 ^ Z.of_nat digits) + (1 # 2))
    by (rewrite (Qabs_pos x H); reflexivity).
  rewrite (Qfloor_comp _ _ E). reflexivity.
Qed.

Lemma toFixed_nonneg_result (digits : nat) (x : Q) : 0 <= x -> 0 <= toFixed digits x.
Proof.
  intros H. rewrite (toFixed_nonneg digits x H). apply double_nonneg.
  unfold Qle. cbn [Qnum Qden]. rewrite Z.mul_1_r, Z.mul_0_l.
  change 0%Z with (Qfloor 0). apply Qfloor_resp_le.
  assert (U : 0 <= inject_Z (10 ^ Z.of_nat digits)).
  { rewrite <- (Zle_Qle 0). apply Z.pow_nonneg. lia. }
  pose proof (Qmult_le_0_compat _ _ H U) as M.
  set (u := x * inject_Z (10 ^ Z.of_nat digits)) in *. clearbody u. lra.
Qed.

End NumberFacts.


(** ** [double] against the floats of the kernel *)

(** The doubles of the decimals the loop meets, its products, its
    differences and its quotients, computed by [double] and by the
    processor. *)
Example double_of_decimals :
  let decimals :=
    [(85, 100); (75, 100); (65, 100); (55, 100); (1, 10); (289, 1000);
     (2456, 10000); (3, 10000); (4, 10000); (1600, 5000000); (512, 5000000);
     (1600, 8255); (512, 4000)]%Z in
  map (fun p => double (fst p # Z.to_pos (snd p))) decimals
  = map (fun p => floatValue (floatOf (fst p) (snd p))) decimals.
Proof. vm_compute. reflexivity. Qed.

Example double_of_products :
  let scales := [2890; 3; 3400; 4000; 1938; 1]%Z in
  map (fun n => double (double (n # 10000) * double (85 # 100))) scales
  = map (fun n => floatValue (PrimFloat.mul (floatOf n 10000) (floatOf 85 100)))
      scales.
Proof. vm_compute. reflexivity. Qed.

Example double_of_differences :
  let qualities := [85; 75; 65]%Z in
  map (fun n => double (double (n # 100) - double (1 # 10))) qualities
  = map (fun n => floatValue (PrimFloat.sub (floatOf n 100) (floatOf 1 10)))
      qualities.
Proof. vm_compute. reflexivity. Qed.

(** The seventh rendering of a photograph of 4000 by 3000 pixels is at
    scale 0.2456: the product of the doubles 0.289 and 0.85 is below
    0.24565. *)
Example downscale_below_tie :
  toFixed 4 (double (double (289 # 1000) * DOWNSCALE_STEP)) = double (2456 # 10000).
Proof. vm_compute. reflexivity. Qed.

Section CompressionClaims.

Local Open Scope Q_scope.

Variable originalWidth originalHeight : Z.
Variable render : Z -> Z -> Q -> string.

Local Abbreviation initialState := (initialState originalWidth originalHeight render).
Local Abbreviation loopBody := (loopBody originalWidth originalHeight render).
Local Abbreviation adjust := (adjust originalWidth originalHeight).
Local Abbreviation iterate := (iterate originalWidth originalHeight render).
Local Abbreviation minScale := (minScale originalWidth originalHeight).
Local Abbreviation initialScale := (initialScale originalWidth originalHeight).
Local Abbreviation whileLoop := (whileLoop originalWidth originalHeight render).
Local Abbreviation loopCondition := (loopCondition originalWidth originalHeight).

Lemma minScale_le_initial : minScale <= initialScale.
Proof.
  unfold Attachments.minScale, Attachments.initialScale, longestEdge.
  set (m := Z.max originalWidth originalHeight).
  destruct (Qle_bool (qmin 1 (double (inject_Z MAX_ATTACHMENT_EDGE / inject_Z m))) 0)
    eqn:E; [apply qmin_le_l|].
  apply Qle_bool_false in E.
  assert (P : 0 < double (inject_Z MAX_ATTACHMENT_EDGE / inject_Z m))
    by (apply (qmin_pos_r 1); [exact E | reflexivity]).
  assert (R : 0 < inject_Z MAX_ATTACHMENT_EDGE / inject_Z m).
  { destruct (Qlt_le_dec 0 (inject_Z MAX_ATTACHMENT_EDGE / inject_Z m)) as [L|L];
      [exact L|].
    pose proof (double_nonpositive _ L) as N. exfalso.
    apply (Qlt_irrefl 0). apply Qlt_le_trans with (1 := P). exact N. }
  destruct (edge_ratio_le m R) as [L U].
  apply qmin_mono_r, double_le; assumption.
Qed.

Lemma iterate_succ (n : nat) (st : LoopState) :
  iterate (S n) st = loopBody (iterate n st).
Proof.
  revert st. induction n as [|n IH]; intros st; [reflexivity|].
  change (iterate (S (S n)) st) with (iterate (S n) (loopBody st)).
  rewrite IH. reflexivity.
Qed.

(** Above the floor of quality the body lowers quality and nothing else. *)
Lemma adjust_quality (st : LoopState) :
  Qgtb (quality st) MIN_JPEG_QUALITY = true ->
  quality (adjust st)
  = qmax MIN_JPEG_QUALITY (toFixed 2 (double (quality st - double (1 # 10))))
  /\ currentScale (adjust st) = currentScale st
  /\ width (adjust st) = width st
  /\ height (adjust st) = height st.
Proof. intros H. unfold Attachments.adjust. rewrite H. repeat split. Qed.

(** At the floor of quality the body moves the scale, clamped at its floor,
    computes the size of the canvas from the new scale, and leaves quality
    alone. *)
Lemma adjust_scale (st : LoopState) :
  Qgtb (quality st) MIN_JPEG_QUALITY = false ->
  quality (adjust st) = quality st
  /\ if Qgtb (currentScale st) minScale
     then currentScale (adjust st)
          = qmax minScale (toFixed 4 (double (currentScale st * DOWNSCALE_STEP)))
          /\ width (adjust st) = scaledEdge originalWidth (currentScale (adjust st))
          /\ height (adjust st) = scaledEdge originalHeight (currentScale (adjust st))
     else currentScale (adjust st) = currentScale st
          /\ width (adjust st) = width st
          /\ height (adjust st) = height st.
Proof.
  intros H. unfold Attachments.adjust. rewrite H.
  destruct (Qgtb (currentScale st) minScale); repeat split.
Qed.

Lemma loopBody_fields (st : LoopState) :
  quality (loopBody st) = quality (adjust st)
  /\ currentScale (loopBody st) = currentScale (adjust st)
  /\ width (loopBody st) = width (adjust st)
  /\ height (loopBody st) = height (adjust st)
  /\ dataUrl (loopBody st)
     = render (width (loopBody st)) (height (loopBody st)) (quality (loopBody st))
  /\ size (loopBody st) = estimateBase64Size (dataUrl (loopBody st)).
Proof. repeat split. Qed.

Lemma loopBody_keeps_floor (st : LoopState) :
  minScale <= currentScale st -> minScale <= currentScale (loopBody st).
Proof.
  intros H. destruct (loopBody_fields st) as (_ & -> & _).
  destruct (Qgtb (quality st) MIN_JPEG_QUALITY) eqn:G.
  - destruct (adjust_quality st G) as (_ & -> & _). exact H.
  - destruct (adjust_scale st G) as (_ & A).
    destruct (Qgtb (currentScale st) minScale).
    + destruct A as (-> & _). apply qmax_ge_l.
    + destruct A as (-> & _). exact H.
Qed.

Lemma scale_above_floor (n : nat) : minScale <= currentScale (iterate n initialState).
Proof.
  induction n as [|n IH].
  - apply minScale_le_initial.
  - rewrite iterate_succ. apply loopBody_keeps_floor, IH.
Qed.

(** The three steps of quality, in doubles. *)
Lemma quality_steps :
  qmax MIN_JPEG_QUALITY (toFixed 2 (double (double (85 # 100) - double (1 # 10))))
  = double (75 # 100)
  /\ qmax MIN_JPEG_QUALITY (toFixed 2 (double (double (75 # 100) - double (1 # 10))))
     = double (65 # 100)
  /\ qmax MIN_JPEG_QUALITY (toFixed 2 (double (double (65 # 100) - double (1 # 10))))
     = double (55 # 100).
Proof. repeat split; vm_compute; reflexivity. Qed.

Lemma qualityAfter_above (n : nat) :
  (n < 3)%nat -> Qgtb (qualityAfter n) MIN_JPEG_QUALITY = true.
Proof.
  intros H. destruct n as [|[|[|n]]]; try (vm_compute; reflexivity). lia.
Qed.

Lemma qualityAfter_floor (n : nat) :
  (3 <= n)%nat -> qualityAfter n = MIN_JPEG_QUALITY.
Proof. intros H. destruct n as [|[|[|n]]]; try lia. reflexivity. Qed.

Lemma floor_not_above : Qgtb MIN_JPEG_QUALITY MIN_JPEG_QUALITY = false.
Proof. vm_compute. reflexivity. Qed.

Lemma quality_trajectory (n : nat) :
  quality (iterate n initialState) = qualityAfter n.
Proof.
  induction n as [|n IH]; [reflexivity|].
  rewrite iterate_succ.
  destruct (loopBody_fields (iterate n initialState)) as (-> & _).
  destruct (le_lt_dec 3 n) as [L|L].
  - assert (G : Qgtb (quality (iterate n initialState)) MIN_JPEG_QUALITY = false)
      by (rewrite IH, (qualityAfter_floor n L); apply floor_not_above).
    destruct (adjust_scale _ G) as (-> & _).
    rewrite IH, (qualityAfter_floor n L), (qualityAfter_floor (S n)) by lia.
    reflexivity.
  - assert (G : Qgtb (quality (iterate n initialState)) MIN_JPEG_QUALITY = true)
      by (rewrite IH; apply qualityAfter_above, L).
    destruct (adjust_quality _ G) as (-> & _). rewrite IH.
    destruct quality_steps as (S1 & S2 & S3).
    destruct n as [|[|[|n]]]; [exact S1 | exact S2 | exact S3 | lia].
Qed.

Lemma scale_waits_for_quality (n : nat) :
  (n <= 3)%nat -> currentScale (iterate n initialState) = initialScale.
Proof.
  induction n as [|n IH]; intros H; [reflexivity|].
  rewrite iterate_succ.
  destruct (loopBody_fields (iterate n initialState)) as (_ & -> & _).
  assert (G : Qgtb (quality (iterate n initialState)) MIN_JPEG_QUALITY = true)
    by (rewrite quality_trajectory; apply qualityAfter_above; lia).
  destruct (adjust_quality _ G) as (_ & -> & _). apply IH. lia.
Qed.

Lemma initialScale_above_zero : 0 < initialScale.
Proof.
  unfold Attachments.initialScale.
  destruct (Qle_bool (qmin 1 (double (inject_Z MAX_ATTACHMENT_EDGE / longestEdge
                                        originalWidth originalHeight))) 0) eqn:E;
    [reflexivity|].
  apply Qle_bool_false, E.
Qed.

Lemma loopBody_keeps_sign (st : LoopState) :
  0 <= currentScale st -> 0 <= currentScale (loopBody st).
Proof.
  intros H. destruct (loopBody_fields st) as (_ & -> & _).
  destruct (Qgtb (quality st) MIN_JPEG_QUALITY) eqn:G.
  - destruct (adjust_quality st G) as (_ & -> & _). exact H.
  - destruct (adjust_scale st G) as (_ & A).
    destruct (Qgtb (currentScale st) minScale).
    + destruct A as (-> & _).
      assert (R : 0 <= toFixed 4 (double (currentScale st * DOWNSCALE_STEP))).
      { apply toFixed_nonneg_result, double_nonneg, Qmult_le_0_compat; [exact H|].
        vm_compute. discriminate. }
      unfold qmax.
      destruct (Qle_bool minScale (toFixed 4 (double (currentScale st * DOWNSCALE_STEP))))
        eqn:B; [exact R|].
      apply Qle_bool_false in B. apply Qle_trans with (1 := R), Qlt_le_weak, B.
    + destruct A as (-> & _). exact H.
Qed.

Lemma scale_sign (n : nat) : 0 <= currentScale (iterate n initialState).
Proof.
  induction n as [|n IH].
  - apply Qlt_le_weak, initialScale_above_zero.
  - rewrite iterate_succ. apply loopBody_keeps_sign, IH.
Qed.

(** As long as the condition holds, the loop goes through the states
    [iterate 0], [iterate 1], ... *)
Lemma whileLoop_iterate (n : nat) :
  forall st,
    (forall k, (k < n)%nat -> loopCondition (iterate k st) = true) ->
    forall fuel, whileLoop (n + fuel) st = whileLoop fuel (iterate n st).
Proof.
  induction n as [|n IH]; intros st H fuel; [reflexivity|].
  cbn [Nat.add Attachments.whileLoop Attachments.iterate].
  assert (H0 : loopCondition (iterate 0 st) = true) by (apply H; lia).
  cbn [Attachments.iterate] in H0. rewrite H0. apply IH.
  intros k Hk. apply (H (S k)). lia.
Qed.

(** C9.  In every iteration of the loop one axis is adjusted, quality
    first.  Quality goes through the doubles 0.85, 0.75, 0.65, 0.55 and
    stays there.  During the first three iterations quality is above its
    floor and the iteration leaves the scale, which is still the initial
    one, and the size of the canvas alone.  From then on quality is at its
    floor 0.55 and an iteration changes the scale only: while the scale is
    above the floor scale it becomes [Number((scale * 0.85).toFixed(4))],
    not below the floor scale, and the canvas gets the original size
    multiplied by the new scale, rounded, at least 1.  The scale is never
    below the floor scale.  Each iteration ends by rendering at the adjusted
    size and quality and measuring the result, and the condition of the
    loop is evaluated on that state; while the condition holds, these are
    the states the [while] loop goes through. *)
Theorem quality_is_lowered_before_scale (n : nat) :
  let st := iterate n initialState in
  let st' := loopBody st in
  quality st = qualityAfter n
  /\ quality st' = qualityAfter (S n)
  /\ ((n < 3)%nat ->
        MIN_JPEG_QUALITY < quality st
        /\ currentScale st = initialScale
        /\ currentScale st' = currentScale st
        /\ width st' = width st
        /\ height st' = height st)
  /\ ((3 <= n)%nat ->
        quality st = MIN_JPEG_QUALITY
        /\ if Qgtb (currentScale st) minScale
           then currentScale st'
                = qmax minScale
                    (double (Qfloor (double (currentScale st * double (85 # 100))
                                     * 10000 + (1 # 2)) # 10000))
                /\ width st'
                   = Z.max (Qfloor (double (inject_Z originalWidth * currentScale st')
                                    + (1 # 2))) 1
                /\ height st'
                   = Z.max (Qfloor (double (inject_Z originalHeight * currentScale st')
                                    + (1 # 2))) 1
           else currentScale st' = currentScale st
                /\ width st' = width st
                /\ height st' = height st)
  /\ minScale <= currentScale st
  /\ minScale <= currentScale st'
  /\ dataUrl st' = render (width st') (height st') (quality st')
  /\ size st' = estimateBase64Size (dataUrl st')
  /\ (forall fuel,
        whileLoop (S fuel) st
        = if loopCondition st then whileLoop fuel st' else Some st)
  /\ ((forall k, (k < n)%nat -> loopCondition (iterate k initialState) = true) ->
      forall fuel, whileLoop (n + fuel) initialState = whileLoop fuel st).
Proof.
  cbn zeta.
  pose proof (loopBody_fields (iterate n initialState)) as (Fq & Fs & Fw & Fh & Fd & Fz).
  split; [apply quality_trajectory|].
  split; [rewrite <- iterate_succ; apply quality_trajectory|].
  split.
  { intros H.
    assert (G : Qgtb (quality (iterate n initialState)) MIN_JPEG_QUALITY = true)
      by (rewrite quality_trajectory; apply qualityAfter_above, H).
    destruct (adjust_quality _ G) as (_ & As & Aw & Ah).
    rewrite Fs, Fw, Fh, As, Aw, Ah.
    split; [apply Qgtb_true, G|].
    split; [apply scale_waits_for_quality; lia|]. repeat split. }
  split.
  { intros H.
    assert (Q0 : quality (iterate n initialState) = MIN_JPEG_QUALITY)
      by (rewrite quality_trajectory; apply qualityAfter_floor, H).
    assert (G : Qgtb (quality (iterate n initialState)) MIN_JPEG_QUALITY = false)
      by (rewrite Q0; apply floor_not_above).
    split; [exact Q0|].
    destruct (adjust_scale _ G) as (_ & A).
    rewrite Fs, Fw, Fh.
    destruct (Qgtb (currentScale (iterate n initialState)) minScale); [|exact A].
    destruct A as (As & Aw & Ah). rewrite Aw, Ah, As.
    rewrite toFixed_nonneg.
    - repeat split.
    - apply double_nonneg, Qmult_le_0_compat; [apply scale_sign|].
      vm_compute. discriminate. }
  split; [apply scale_above_floor|].
  split; [apply loopBody_keeps_floor, scale_above_floor|].
  split; [exact Fd|]. split; [exact Fz|].
  split; [intros fuel; reflexivity|].
  intros H fuel. apply whileLoop_iterate, H.
Qed.

Lemma whileLoop_exit (fuel : nat) (st final : LoopState) :
  whileLoop fuel st = Some final ->
  loopCondition final = false
  /\ (final = st \/ exists previous, final = loopBody previous).
Proof.
  revert st. induction fuel as [|fuel IH]; intros st H; cbn [Attachments.whileLoop] in H;
    revert H; destruct (loopCondition st) eqn:C;
    intros H; try discriminate H.
  - injection H as <-. split; [exact C | left; reflexivity].
  - destruct (IH _ H) as [E [-> | [previous ->]]].
    + split; [exact E | right; exists st; reflexivity].
    + split; [exact E | right; exists previous; reflexivity].
  - injection H as <-. split; [exact C | left; reflexivity].
Qed.

(** When the loop is left, the call ends in one of two ways: an artifact
    whose size, measured on the data URL it carries, is at or under the
    ceiling, or the error that names the file and the ceiling of 1.5 MB,
    thrown with both axes at their floors. *)
Lemma compression_outcome (fuel : nat) (fileName : string) (final : LoopState) :
  whileLoop fuel initialState = Some final ->
  match finish fileName final with
  | inr artifact =>
      (out_size artifact <= MAX_BASE64_ATTACHMENT_BYTES)%Z
      /\ out_size artifact = estimateBase64Size (out_dataUrl artifact)
      /\ out_type artifact = "image/jpeg"%string
  | inl message =>
      message = ("We couldn't compress " ++ fileName
                 ++ " below 1.5 MB. Try a smaller image.")%string
      /\ (MAX_BASE64_ATTACHMENT_BYTES < size final)%Z
      /\ quality final <= MIN_JPEG_QUALITY
      /\ currentScale final <= minScale
  end.
Proof.
  intros H. destruct (whileLoop_exit _ _ _ H) as [C M].
  unfold finish.
  destruct (MAX_BASE64_ATTACHMENT_BYTES <? size final)%Z eqn:S.
  - split; [reflexivity|]. split; [apply Z.ltb_lt, S|].
    unfold Attachments.loopCondition in C. rewrite S in C. cbn [andb] in C.
    apply orb_false_elim in C. destruct C as [Cq Cs].
    unfold Qgtb in Cq, Cs. split; apply Qle_bool_iff.
    + destruct (Qle_bool (quality final) MIN_JPEG_QUALITY);
        [reflexivity | discriminate Cq].
    + destruct (Qle_bool (currentScale final) minScale);
        [reflexivity | discriminate Cs].
  - cbn [out_size out_dataUrl out_type]. split; [apply Z.ltb_ge, S|].
    split; [|reflexivity].
    destruct M as [-> | [previous ->]]; reflexivity.
Qed.

End CompressionClaims.

(** ** The loop on an image of 5,000,000 by 5,000,000 pixels *)

Section StalledScale.

Local Open Scope Q_scope.

Variable render : Z -> Z -> Q -> string.

(** Every rendering stays above the ceiling. *)
Hypothesis oversized :
  forall w h q, (MAX_BASE64_ATTACHMENT_BYTES < estimateBase64Size (render w h q))%Z.

Local Abbreviation side := 5000000%Z.
Local Abbreviation start := (initialState side side render).
Local Abbreviation body := (loopBody side side render).

Lemma stalled_initial : stalled start.
Proof. split; [apply oversized|]. left. vm_compute. reflexivity. Qed.

Lemma stalled_step (st : LoopState) :
  stalled st -> loopCondition side side st = true /\ stalled (body st).
Proof.
  intros [Hsize Hphase]. split.
  - unfold loopCondition. apply Z.ltb_lt in Hsize. rewrite Hsize.
    cbn [In stalledPhases] in Hphase.
    destruct Hphase as [E | [E | [E | [E | [E | []]]]]];
      pose proof (f_equal fst E) as Eq; pose proof (f_equal snd E) as Es;
      cbn [fst snd] in Eq, Es; rewrite <- Eq, <- Es; vm_compute; reflexivity.
  - split; [apply oversized|].
    destruct st as [q s w h d z]. cbn [quality currentScale] in Hphase.
    cbn [In stalledPhases] in Hphase.
    destruct Hphase as [E | [E | [E | [E | [E | []]]]]];
      pose proof (f_equal fst E) as Eq; pose proof (f_equal snd E) as Es;
      cbn [fst snd] in Eq, Es; clear E; subst q s; vm_compute.
    + right. left. reflexivity.
    + right. right. left. reflexivity.
    + right. right. right. left. reflexivity.
    + right. right. right. right. left. reflexivity.
    + right. right. right. right. left. reflexivity.
Qed.

Lemma stalled_forever (fuel : nat) (st : LoopState) :
  stalled st -> whileLoop side side render fuel st = None.
Proof.
  revert st. induction fuel as [|fuel IH]; intros st H;
    destruct (stalled_step st H) as [C N]; cbn [whileLoop]; rewrite C.
  - reflexivity.
  - apply IH, N.
Qed.

Lemma stuck_step (st : LoopState) : stuck st -> stuck (body st).
Proof.
  intros (Hsize & Hq & Hs). split; [apply oversized|].
  destruct st as [q s w h d z]. cbn [quality currentScale] in Hq, Hs.
  subst q s. split; vm_compute; reflexivity.
Qed.

Lemma stuck_after_four (n : nat) :
  stuck (iterate side side render (4 + n) start).
Proof.
  induction n as [|n IH].
  - split; [apply oversized|]. split; vm_compute; reflexivity.
  - replace (4 + S n)%nat with (S (4 + n)) by lia.
    rewrite iterate_succ. apply stuck_step, IH.
Qed.

(** C2 fails on the code at this image.  When every rendering of an image
    of 5,000,000 by 5,000,000 pixels is above the ceiling, the loop never
    leaves: whatever the number of iterations allowed, [compressImageFile]
    has neither returned nor thrown, and from the fourth iteration on the
    state is the same at every check of the condition, quality 0.55 and
    scale 0.0003, above the floor scale 0.0001024 and over the ceiling. *)
Theorem compression_loop_stalls (fuel : nat) (fileName : string) :
  compressImageFile side side render fuel fileName = None
  /\ let st := iterate side side render (4 + fuel) start in
     quality st = double (11 # 20)
     /\ currentScale st = double (3 # 10000)
     /\ minScale side side < currentScale st
     /\ loopCondition side side st = true.
Proof.
  split.
  - unfold compressImageFile.
    rewrite (stalled_forever fuel _ stalled_initial). reflexivity.
  - cbn zeta. destruct (stuck_after_four fuel) as (Hsize & Hq & Hs).
    rewrite Hq, Hs. split; [reflexivity|]. split; [reflexivity|].
    split; [vm_compute; reflexivity|].
    unfold loopCondition. apply Z.ltb_lt in Hsize. rewrite Hsize, Hq, Hs.
    vm_compute. reflexivity.
Qed.

End StalledScale.

Lemma oversizedRender_size (w h : Z) (q : Q) :
  (MAX_BASE64_ATTACHMENT_BYTES < estimateBase64Size (oversizedRender w h q))%Z.
Proof.
  unfold oversizedRender.
  rewrite estimate_of_encoding by reflexivity.
  unfold oversizedPayload.
  rewrite repeat_length, Z2Nat.id by (unfold MAX_BASE64_ATTACHMENT_BYTES; lia).
  lia.
Qed.

Lemma compression_loop_stalls_witness :
  compressImageFile 5000000 5000000 oversizedRender 1000 "noise.svg" = None.
Proof.
  exact (proj1 (compression_loop_stalls oversizedRender oversizedRender_size
                  1000 "noise.svg")).
Defined.

(** The loop on a photograph of 4000 by 3000 pixels whose renderings stay
    above the ceiling: the seventh rendering is 982 by 737 pixels, at scale
    0.2456. *)
Lemma quality_is_lowered_before_scale_witness :
  (3 <= 5)%nat
  /\ (forall k, (k < 5)%nat ->
        loopCondition 4000 3000
          (iterate 4000 3000 oversizedRender k (initialState 4000 3000 oversizedRender))
        = true)
  /\ currentScale (iterate 4000 3000 oversizedRender 6
                     (initialState 4000 3000 oversizedRender))
     = double (2456 # 10000)
  /\ width (iterate 4000 3000 oversizedRender 6
              (initialState 4000 3000 oversizedRender)) = 982%Z
  /\ height (iterate 4000 3000 oversizedRender 6
               (initialState 4000 3000 oversizedRender)) = 737%Z
  /\ forall fuel,
       whileLoop 4000 3000 oversizedRender (5 + fuel)
         (initialState 4000 3000 oversizedRender)
       = whileLoop 4000 3000 oversizedRender fuel
           (iterate 4000 3000 oversizedRender 5
              (initialState 4000 3000 oversizedRender)).
Proof.
  assert (L : forall k, (k < 5)%nat ->
                loopCondition 4000 3000
                  (iterate 4000 3000 oversizedRender k
                     (initialState 4000 3000 oversizedRender))
                = true).
  { intros k Hk. unfold loopCondition.
    assert (Sz : forall st,
               (st = initialState 4000 3000 oversizedRender
                \/ exists p, st = loopBody 4000 3000 oversizedRender p) ->
               (MAX_BASE64_ATTACHMENT_BYTES <? size st)%Z = true).
    { intros st [-> | [p ->]]; apply Z.ltb_lt, oversizedRender_size. }
    rewrite Sz.
    - destruct k as [|[|[|[|[|k]]]]]; try lia; lazy; reflexivity.
    - destruct k as [|k]; [left; reflexivity|].
      right. eexists. apply iterate_succ. }
  pose proof (quality_is_lowered_before_scale 4000 3000 oversizedRender 5) as T.
  cbn zeta in T.
  destruct T as (_ & _ & _ & Scale & _ & _ & _ & _ & _ & Loop).
  specialize (Scale (le_S _ _ (le_S _ _ (le_n 3)))).
  destruct Scale as (_ & Scale).
  assert (G : Qgtb (currentScale (iterate 4000 3000 oversizedRender 5
                                    (initialState 4000 3000 oversizedRender)))
                   (minScale 4000 3000) = true) by (lazy; reflexivity).
  rewrite G in Scale. destruct Scale as (Es & Ew & Eh).
  split; [lia|]. split; [exact L|].
  change (iterate 4000 3000 oversizedRender 6 (initialState 4000 3000 oversizedRender))
    with (loopBody 4000 3000 oversizedRender
            (iterate 4000 3000 oversizedRender 5
               (initialState 4000 3000 oversizedRender))).
  split; [rewrite Es; lazy; reflexivity|].
  split; [rewrite Ew, Es; lazy; reflexivity|].
  split; [rewrite Eh, Es; lazy; reflexivity|].
  exact (Loop L).
Defined.

(** ** The loop on images of ordinary size *)

Section SettlingScale.

Local Open Scope Q_scope.

Variable originalWidth originalHeight : Z.
Variable render : Z -> Z -> Q -> string.

Local Abbreviation start := (initialState originalWidth originalHeight render).
Local Abbreviation body := (loopBody originalWidth originalHeight render).
Local Abbreviation condition := (loopCondition originalWidth originalHeight).
Local Abbreviation run := (whileLoop originalWidth originalHeight render).
Local Abbreviation after := (iterate originalWidth originalHeight render).
Local Abbreviation floor := (minScale originalWidth originalHeight).

(** The digits [toFixed(4)] writes after a downscale step. *)
Local Abbreviation digits :=
  (fun s : Q => Qfloor (double (s * DOWNSCALE_STEP) * inject_Z 10000 + (1 # 2))).

Lemma digits_bound (s : Q) :
  0 < s -> inject_Z (digits s) <= 8501 * s + (1 # 2).
Proof.
  intros P.
  assert (Ps : 0 < s * DOWNSCALE_STEP)
    by (apply Qmult_lt_0_compat; [exact P | vm_compute; reflexivity]).
  destruct (double_error _ Ps) as [_ U].
  pose proof (Qfloor_le (double (s * DOWNSCALE_STEP) * inject_Z 10000 + (1 # 2))) as F.
  assert (C : DOWNSCALE_STEP + DOWNSCALE_STEP * pow2 (-53) <= 8501 # 10000)
    by (vm_compute; discriminate).
  assert (M : s * (DOWNSCALE_STEP + DOWNSCALE_STEP * pow2 (-53)) <= s * (8501 # 10000))
    by (apply Qmult_le_l; assumption).
  setoid_replace (s * (DOWNSCALE_STEP + DOWNSCALE_STEP * pow2 (-53)))
    with (s * DOWNSCALE_STEP + s * DOWNSCALE_STEP * pow2 (-53)) in M by ring.
  apply Qle_trans with (1 := F).
  change (inject_Z 10000) with (10000 # 1).
  set (t := double (s * DOWNSCALE_STEP)) in *. clearbody t.
  set (a := s * DOWNSCALE_STEP) in *. set (b := a * pow2 (-53)) in *.
  clearbody b. clearbody a. clear - U M. lra.
Qed.

Lemma digits_nonneg (s : Q) : 0 <= s -> (0 <= digits s)%Z.
Proof.
  intros H. change 0%Z with (Qfloor 0). apply Qfloor_resp_le.
  assert (D : 0 <= double (s * DOWNSCALE_STEP)).
  { apply double_nonneg, Qmult_le_0_compat; [exact H | vm_compute; discriminate]. }
  change (inject_Z 10000) with (10000 # 1).
  set (t := double (s * DOWNSCALE_STEP)) in *. clearbody t. lra.
Qed.

(** A scale written with four decimals. *)
Lemma grid_bound (k : Z) :
  (0 < k)%Z -> double (k # 10000) <= (k # 10000) + (k # 10000) * pow2 (-53).
Proof.
  intros H. apply double_error. unfold Qlt. cbn [Qnum Qden]. lia.
Qed.

Lemma grid_order (k : Z) : (k <= 3)%Z -> double (k # 10000) < double (4 # 10000).
Proof.
  intros H.
  apply Qle_lt_trans with (double (3 # 10000)); [|vm_compute; reflexivity].
  destruct (Z_le_gt_dec k 0) as [N|P].
  - apply Qle_trans with 0.
    + apply double_nonpositive. unfold Qle. cbn [Qnum Qden]. lia.
    + vm_compute. discriminate.
  - apply double_le; unfold Qle; cbn [Qnum Qden]; lia.
Qed.

Lemma whileLoop_enough (n : nat) :
  forall st, condition (after n st) = false -> exists final, run n st = Some final.
Proof.
  induction n as [|n IH]; intros st H; cbn [whileLoop].
  - cbn [iterate] in H. rewrite H. exists st. reflexivity.
  - destruct (condition st) eqn:C; [|exists st; reflexivity].
    apply IH. exact H.
Qed.

Lemma iterate_add (a b : nat) (st : LoopState) :
  after (a + b) st = after b (after a st).
Proof.
  revert st. induction a as [|a IH]; intros st; [reflexivity|].
  cbn [Nat.add iterate]. apply IH.
Qed.

Lemma initialScale_le_one : initialScale originalWidth originalHeight <= 1.
Proof.
  unfold initialScale.
  destruct (Qle_bool _ 0); [apply Qle_refl | apply qmin_le_l].
Qed.

(** With quality at its floor, an iteration that the condition lets
    through writes the scale with four decimals, unless the floor scale is
    above that. *)
Lemma scale_step (st : LoopState) :
  quality st = MIN_JPEG_QUALITY ->
  condition st = true ->
  0 <= currentScale st ->
  quality (body st) = MIN_JPEG_QUALITY
  /\ currentScale (body st) = qmax floor (double (digits (currentScale st) # 10000)).
Proof.
  intros Hq C P.
  assert (G : Qgtb (quality st) MIN_JPEG_QUALITY = false)
    by (rewrite Hq; apply floor_not_above).
  assert (S' : Qgtb (currentScale st) floor = true).
  { unfold loopCondition in C. rewrite G in C.
    apply andb_prop in C. destruct C as [_ C]. exact C. }
  destruct (loopBody_fields originalWidth originalHeight render st) as (Fq & Fs & _).
  destruct (adjust_scale originalWidth originalHeight st G) as (Aq & A).
  rewrite S' in A. destruct A as (As & _).
  rewrite Fq, Fs, Aq, As. split; [exact Hq|].
  rewrite toFixed_nonneg; [reflexivity|].
  apply double_nonneg, Qmult_le_0_compat; [exact P | vm_compute; discriminate].
Qed.

Lemma at_floor (st : LoopState) :
  quality st = MIN_JPEG_QUALITY -> currentScale st = floor -> condition st = false.
Proof.
  intros Hq Hs. unfold loopCondition. rewrite Hq, Hs, floor_not_above.
  assert (Z0 : Qgtb floor floor = false).
  { unfold Qgtb.
    assert (L : Qle_bool floor floor = true) by (apply Qle_bool_iff, Qle_refl).
    rewrite L. reflexivity. }
  rewrite Z0. apply andb_false_r.
Qed.

(** The floor scale is 0.0004 or more: the longest edge is at most
    1,280,000 pixels. *)
Hypothesis ordinary : double (4 # 10000) <= floor.

(** With quality at its floor and the scale written with four decimals,
    the loop is left within as many iterations as the scale has
    ten-thousandths. *)
Lemma settle (m : nat) :
  forall st k,
    quality st = MIN_JPEG_QUALITY ->
    currentScale st = double (k # 10000) ->
    (k <= Z.of_nat m)%Z ->
    exists n, (n <= m)%nat /\ condition (after n st) = false.
Proof.
  induction m as [|m IH]; intros st k Hq Hs Hm;
    (destruct (condition st) eqn:C;
     [|exists 0%nat; split; [lia | exact C]]).
  all: assert (G : Qgtb (quality st) MIN_JPEG_QUALITY = false)
         by (rewrite Hq; apply floor_not_above).
  all: assert (S' : floor < currentScale st)
         by (apply Qgtb_true; unfold loopCondition in C; rewrite G in C;
             apply andb_prop in C; destruct C as [_ C]; exact C).
  all: assert (K : (4 <= k)%Z)
         by (destruct (Z_le_gt_dec k 3) as [L|L]; [|lia]; exfalso;
             pose proof (grid_order k L) as O; rewrite <- Hs in O;
             apply (Qlt_irrefl floor);
             apply Qlt_trans with (1 := S');
             apply Qlt_le_trans with (1 := O); exact ordinary).
  - lia.
  - assert (P : 0 < currentScale st).
    { rewrite Hs. apply double_positive. unfold Qlt. cbn [Qnum Qden]. lia. }
    destruct (scale_step st Hq C (Qlt_le_weak _ _ P)) as (Bq & Bs).
    set (k' := digits (currentScale st)) in *.
    assert (D : (k' < k)%Z).
    { pose proof (digits_bound _ P) as B. fold k' in B.
      pose proof (grid_bound k ltac:(lia)) as Gk. rewrite <- Hs in Gk.
      assert (U : (k # 10000) * pow2 (-53) <= (k # 10000) * (1 # 100000)).
      { apply Qmult_le_l; [unfold Qlt; cbn [Qnum Qden]; lia | vm_compute; discriminate]. }
      assert (E : k # 10000 == inject_Z k * (1 # 10000)).
      { unfold Qeq. cbn [Qnum Qden inject_Z Qmult]. lia. }
      rewrite E in Gk, U.
      assert (Ik : 4 <= inject_Z k) by (rewrite <- (Zle_Qle 4); exact K).
      rewrite Zlt_Qlt.
      set (x := inject_Z k) in *. set (y := inject_Z k') in *.
      set (s := currentScale st) in *. set (u := x * (1 # 10000) * pow2 (-53)) in *.
      clearbody x y s u. clear - B Gk U Ik. lra. }
    destruct (Qle_bool floor (double (k' # 10000))) eqn:R.
    + destruct (IH (body st) k') as (n & Hn & Hc).
      * exact Bq.
      * rewrite Bs. unfold qmax. rewrite R. reflexivity.
      * lia.
      * exists (S n). split; [lia | exact Hc].
    + exists 1%nat. split; [lia|]. cbn [iterate].
      apply at_floor; [exact Bq|].
      rewrite Bs. unfold qmax. rewrite R. reflexivity.
Qed.

(** On such an image [compressImageFile] ends, whatever the canvas
    renders: three iterations bring quality to its floor, one more writes
    the scale with four decimals, and at most 8501 more bring the scale to
    its floor or the size under the ceiling. *)
Lemma compression_ends (fileName : string) :
  exists fuel outcome,
    (Z.of_nat fuel <= 10003)%Z
    /\ compressImageFile originalWidth originalHeight render fuel fileName
       = Some outcome.
Proof.
  assert (Q3 : quality (after 3 start) = MIN_JPEG_QUALITY)
    by (apply (quality_trajectory originalWidth originalHeight render 3)).
  assert (S3 : currentScale (after 3 start) = initialScale originalWidth originalHeight)
    by (apply scale_waits_for_quality; lia).
  assert (E : exists n, (Z.of_nat n <= 8505)%Z /\ condition (after n start) = false).
  { destruct (condition (after 3 start)) eqn:C;
      [|exists 3%nat; split; [lia | exact C]].
    pose proof (initialScale_above_zero originalWidth originalHeight) as P.
    rewrite <- S3 in P.
    destruct (scale_step _ Q3 C (Qlt_le_weak _ _ P)) as (Bq & Bs).
    set (k := digits (currentScale (after 3 start))) in *.
    assert (D : (k <= 8501)%Z).
    { pose proof (digits_bound _ P) as B. fold k in B.
      pose proof initialScale_le_one as L. rewrite <- S3 in L.
      assert (I : inject_Z k < inject_Z 8502).
      { change (inject_Z 8502) with (8502 # 1).
        set (x := inject_Z k) in *. set (s := currentScale (after 3 start)) in *.
        clearbody x s. clear - B L. lra. }
      rewrite <- Zlt_Qlt in I. lia. }
    destruct (Qle_bool floor (double (k # 10000))) eqn:R.
    - destruct (settle (Z.to_nat 8501) (body (after 3 start)) k) as (n & Hn & Hc).
      + exact Bq.
      + rewrite Bs. unfold qmax. rewrite R. reflexivity.
      + rewrite Z2Nat.id by lia. exact D.
      + exists (3 + 1 + n)%nat. split; [|rewrite iterate_add; exact Hc].
        assert (Hz : (Z.of_nat n <= 8501)%Z).
        { apply Nat2Z.inj_le in Hn. rewrite Z2Nat.id in Hn by lia. exact Hn. }
        rewrite !Nat2Z.inj_add. change (Z.of_nat 3) with 3%Z.
        change (Z.of_nat 1) with 1%Z. lia.
    - exists (3 + 1)%nat. split; [cbn; lia|]. rewrite iterate_add.
      change (after 1 (after 3 start)) with (body (after 3 start)).
      apply at_floor; [exact Bq|].
      rewrite Bs. unfold qmax. rewrite R. reflexivity. }
  destruct E as (n & Hn & Hc).
  destruct (whileLoop_enough _ _ Hc) as (final & Hf).
  exists n, (finish fileName final). split; [lia|].
  unfold compressImageFile. rewrite Hf. reflexivity.
Qed.

End SettlingScale.

Lemma ordinary_floor (w h : Z) :
  (0 < Z.max w h <= 1280000)%Z -> (double (4 # 10000) <= minScale w h)%Q.
Proof.
  intros [P B]. unfold minScale, longestEdge, qmin.
  destruct (Qle_bool 1 (double (inject_Z MIN_ATTACHMENT_EDGE / inject_Z (Z.max w h)))).
  - vm_compute. discriminate.
  - apply double_le; [vm_compute; discriminate|].
    destruct (Z.max w h) as [|p|p]; try lia.
    unfold Qle, Qdiv, Qmult, Qinv, inject_Z, MIN_ATTACHMENT_EDGE. cbn. lia.
Qed.

(** Every image whose longest edge is at most 1,280,000 pixels is
    compressed or refused within 10003 iterations. *)
Lemma compression_ends_on_ordinary_images
    (w h : Z) (render : Z -> Z -> Q -> string) (fileName : string) :
  (0 < Z.max w h <= 1280000)%Z ->
  exists fuel outcome,
    (Z.of_nat fuel <= 10003)%Z
    /\ compressImageFile w h render fuel fileName = Some outcome.
Proof.
  intros H. apply compression_ends, ordinary_floor, H.
Qed.

(** * Further properties of the code *)

(** ** Trimming *)

Section TrimFacts.

Lemma trimStart_tight (s : string) : tightStart (trimStart s).
Proof.
  induction s as [|c s IH]; [exact I|].
  cbn [trimStart]. destruct (is_ws c) eqn:W; [exact IH | exact W].
Qed.

Lemma trimStart_of_tight (s : string) : tightStart s -> trimStart s = s.
Proof.
  destruct s as [|c s]; [reflexivity|].
  cbn [tightStart trimStart]. intros ->. reflexivity.
Qed.

Lemma trimEnd_tight (s : string) : tightStart s -> tightStart (trimEnd s).
Proof.
  destruct s as [|c s]; [intros _; exact I|].
  cbn [tightStart trimEnd]. intros W.
  destruct (trimEnd s); [rewrite W|]; exact W.
Qed.

Lemma trimEnd_idempotent (s : string) : trimEnd (trimEnd s) = trimEnd s.
Proof.
  induction s as [|c s IH]; [reflexivity|].
  cbn [trimEnd]. destruct (trimEnd s) as [|d t] eqn:T.
  - destruct (is_ws c) eqn:W; [reflexivity|].
    cbn [trimEnd]. rewrite W. reflexivity.
  - cbn [trimEnd] in IH |- *. rewrite IH. reflexivity.
Qed.

Lemma trim_idempotent (s : string) : trim (trim s) = trim s.
Proof.
  unfold trim.
  rewrite (trimStart_of_tight (trimEnd (trimStart s)))
    by apply trimEnd_tight, trimStart_tight.
  apply trimEnd_idempotent.
Qed.

Lemma trimStart_blanks (pad s : string) :
  everyChar is_ws pad = true -> trimStart (pad ++ s) = trimStart s.
Proof.
  induction pad as [|c pad IH]; intros H; [reflexivity|].
  cbn [everyChar] in H. apply andb_prop in H. destruct H as [Hc Hp].
  cbn [append trimStart]. rewrite Hc. apply IH, Hp.
Qed.

Lemma trimStart_all_blank (pad : string) :
  everyChar is_ws pad = true -> trimStart pad = "".
Proof.
  intros H. rewrite <- (append_nil_r pad). apply (trimStart_blanks pad "" H).
Qed.

Lemma trimEnd_all_blank (pad : string) :
  everyChar is_ws pad = true -> trimEnd pad = "".
Proof.
  induction pad as [|c pad IH]; intros H; [reflexivity|].
  cbn [everyChar] in H. apply andb_prop in H. destruct H as [Hc Hp].
  cbn [trimEnd]. rewrite (IH Hp), Hc. reflexivity.
Qed.

Lemma trimEnd_blanks (s pad : string) :
  everyChar is_ws pad = true -> trimEnd (s ++ pad) = trimEnd s.
Proof.
  intros H. induction s as [|c s IH].
  - apply trimEnd_all_blank, H.
  - cbn [append trimEnd]. rewrite IH. reflexivity.
Qed.

(** White space around a text that has none at its ends is what [trim]
    removes. *)
Lemma trim_padded (before core after : string) :
  everyChar is_ws before = true ->
  everyChar is_ws after = true ->
  tightStart core ->
  trimEnd core = core ->
  trim (before ++ core ++ after) = core.
Proof.
  intros Hb Ha Hs He. unfold trim.
  rewrite (trimStart_blanks _ _ Hb).
  destruct core as [|c core].
  - cbn [append]. rewrite (trimStart_all_blank _ Ha). reflexivity.
  - rewrite trimStart_of_tight by exact Hs.
    rewrite (trimEnd_blanks _ _ Ha). exact He.
Qed.

End TrimFacts.

(** ** The decoder: shape of the events, frames and remainders *)

Section DecoderShape.

Variable JSON_parse : string -> option JValue.

Local Abbreviation segmentEvents := (segmentEvents JSON_parse).
Local Abbreviation extractEventsFromBuffer := (extractEventsFromBuffer JSON_parse).
Local Abbreviation feed := (feed JSON_parse).

Lemma nonEmpty_true (s : string) : nonEmpty s = true -> s <> "".
Proof.
  unfold nonEmpty. intros H ->. discriminate H.
Qed.

Lemma deltaEvents_shape (parsed : JValue) :
  deltaEvents parsed = []
  \/ exists content reasoning,
       deltaEvents parsed = [Delta content reasoning]
       /\ wellFormed (Delta content reasoning).
Proof.
  unfold deltaEvents. cbv zeta.
  match goal with
  | |- context [if (nonEmpty ?a || nonEmpty ?b)%bool then _ else _] =>
      set (contentDelta := a); set (reasoningDelta := b)
  end.
  destruct (nonEmpty contentDelta) eqn:C; destruct (nonEmpty reasoningDelta) eqn:R;
    cbn [orb]; [right | right | right | left; reflexivity];
    eexists; eexists; (split; [reflexivity|]); cbn [wellFormed].
  - repeat split; try (left; discriminate);
      intros [= E]; [apply (nonEmpty_true _ C E) | apply (nonEmpty_true _ R E)].
  - repeat split; try (left; discriminate); try discriminate.
    intros [= E]. apply (nonEmpty_true _ C E).
  - repeat split; try (right; discriminate); try discriminate.
    intros [= E]. apply (nonEmpty_true _ R E).
Qed.

Lemma segmentEvents_shape (segment : string) :
  segmentEvents segment = []
  \/ exists e, segmentEvents segment = [e] /\ wellFormed e.
Proof.
  unfold Streaming.segmentEvents.
  destruct (framePayload segment) as [payload|]; [|left; reflexivity].
  destruct (payload =? "[DONE]").
  - right. exists Done. split; [reflexivity | exact I].
  - destruct (JSON_parse payload) as [parsed|].
    + destruct (deltaEvents_shape parsed) as [-> | (c & r & -> & W)].
      * left. reflexivity.
      * right. exists (Delta c r). split; [reflexivity | exact W].
    + right. exists (Error parseFailure). split; reflexivity.
Qed.

Lemma feed_events_forall (P : StreamEvent -> Prop) :
  (forall buffer, Forall P (events (extractEventsFromBuffer buffer))) ->
  forall chunks buffer, Forall P (fst (feed buffer chunks)).
Proof.
  intros H chunks. induction chunks as [|chunk rest IH]; intros buffer.
  - constructor.
  - cbn [Streaming.feed].
    specialize (IH (remainder (extractEventsFromBuffer (buffer ++ chunk)))).
    destruct (Streaming.feed JSON_parse
                (remainder (extractEventsFromBuffer (buffer ++ chunk))) rest)
      as [evs final].
    cbn [fst] in *. apply Forall_app. split; [apply H | exact IH].
Qed.

Lemma events_wellFormed (buffer : string) :
  Forall wellFormed (events (extractEventsFromBuffer buffer)).
Proof.
  rewrite events_completeFrames. apply Forall_flat_map.
  apply Forall_forall. intros segment _.
  destruct (segmentEvents_shape segment) as [-> | (e & -> & W)].
  - constructor.
  - constructor; [exact W | constructor].
Qed.

(** X1.  Whatever the buffer and whatever the parser returns, a call emits
    only [done] events, [error] events with the fixed message, and [delta]
    events that carry at least one field, none of which is the empty string;
    so does every run of the read loop. *)
Theorem decoder_events_wellFormed (buffer : string) (chunks : list string) :
  Forall wellFormed (events (extractEventsFromBuffer buffer))
  /\ Forall wellFormed (fst (feed buffer chunks)).
Proof.
  split; [apply events_wellFormed | apply feed_events_forall, events_wellFormed].
Qed.

(** X2.  A frame gives at most one event: a call never returns more events
    than the buffer has delimiters, that is, one less than the number of
    segments the split gives. *)
Theorem one_event_per_frame (buffer : string) :
  (List.length (events (extractEventsFromBuffer buffer))
   <= List.length (split delimiter buffer) - 1)%nat.
Proof.
  rewrite events_scan, split_scan, length_app. cbn [List.length].
  replace (List.length (fst (scan buffer)) + 1 - 1)%nat
    with (List.length (fst (scan buffer))) by lia.
  induction (fst (scan buffer)) as [|segment rest IH]; [apply le_n|].
  cbn [flat_map]. rewrite length_app. cbn [List.length].
  destruct (segmentEvents_shape segment) as [-> | (e & -> & _)];
    cbn [List.length]; lia.
Qed.

Lemma scan_no_delimiter (s : string) :
  hasDelimiter s = false -> scan s = ([], s).
Proof.
  induction s as [| c | c c' s IHs IHc] using string_pair_ind; intros H.
  - reflexivity.
  - reflexivity.
  - cbn [hasDelimiter] in H. apply orb_false_elim in H. destruct H as [E H].
    rewrite (scan_other _ _ _ E).
    change (hasDelimiter (String c' s) = false) in H.
    rewrite (IHc H). reflexivity.
Qed.

Lemma no_delimiter_open (s : string) :
  hasDelimiter s = false -> endsWith delimiter s = false.
Proof.
  intros H. destruct (endsWith delimiter s) eqn:T; [|reflexivity].
  pose proof (terminated_open _ T) as O.
  rewrite (scan_no_delimiter _ H) in O. cbn [snd] in O.
  destruct O as [-> | ->]; discriminate T.
Qed.

Lemma open_has_no_delimiter (s : string) : hasDelimiter (snd (scan s)) = false.
Proof.
  induction s as [| c | c c' s IHs IHc] using string_pair_ind.
  - reflexivity.
  - reflexivity.
  - destruct (Ascii.eqb c nl && Ascii.eqb c' nl)%bool eqn:E.
    + apply andb_prop in E. destruct E as [E1 E2].
      apply Ascii.eqb_eq in E1, E2. subst c c'.
      rewrite scan_close. exact IHs.
    + rewrite (scan_other _ _ _ E). unfold consScan.
      destruct (fst (scan (String c' s))) as [|seg rest] eqn:F.
      * cbn [snd]. rewrite (scan_open_all _ F) in IHc |- *.
        cbn [hasDelimiter]. rewrite E. exact IHc.
      * exact IHc.
Qed.

Lemma decode_without_delimiter (buffer : string) :
  hasDelimiter buffer = false ->
  extractEventsFromBuffer buffer = {| events := []; remainder := buffer |}.
Proof.
  intros H.
  pose proof (events_scan JSON_parse buffer) as E.
  pose proof (remainder_scan JSON_parse buffer) as R.
  rewrite (no_delimiter_open _ H) in R.
  rewrite (scan_no_delimiter _ H) in E, R. cbn [fst snd flat_map] in E, R.
  destruct (extractEventsFromBuffer buffer) as [evs rem].
  cbn [events remainder] in E, R. subst. reflexivity.
Qed.

(** X3.  A buffer without two line feeds in a row holds no complete frame:
    the call emits nothing and hands the whole buffer back.  (A stream whose
    lines end with CR LF never has two line feeds in a row.) *)
Theorem undelimited_buffer_is_held_back (buffer : string) :
  hasDelimiter buffer = false ->
  extractEventsFromBuffer buffer = {| events := []; remainder := buffer |}.
Proof. intros H. apply decode_without_delimiter. exact H. Qed.

(** X4.  The remainder of a call never holds a delimiter, so decoding it
    again on its own emits nothing and returns it unchanged: nothing is
    lost or repeated while the caller waits for the next chunk. *)
Theorem remainder_is_stable (buffer : string) :
  let r := remainder (extractEventsFromBuffer buffer) in
  hasDelimiter r = false
  /\ extractEventsFromBuffer r = {| events := []; remainder := r |}.
Proof.
  cbn zeta.
  assert (H : hasDelimiter (remainder (extractEventsFromBuffer buffer)) = false).
  { rewrite remainder_scan.
    destruct (endsWith delimiter buffer); [reflexivity|].
    apply open_has_no_delimiter. }
  split; [exact H | apply decode_without_delimiter, H].
Qed.

End DecoderShape.

Lemma undelimited_buffer_is_held_back_witness :
  hasDelimiter ("data: {" ++ newline ++ "id: 7") = false
  /\ extractEventsFromBuffer sampleParse ("data: {" ++ newline ++ "id: 7")
     = {| events := []; remainder := "data: {" ++ newline ++ "id: 7" |}.
Proof.
  split; [reflexivity|].
  exact (undelimited_buffer_is_held_back sampleParse
           ("data: {" ++ newline ++ "id: 7") eq_refl).
Defined.

(** ** The decoder: lines and payloads *)

Section FrameLines.

Variable JSON_parse : string -> option JValue.

Local Abbreviation segmentEvents := (segmentEvents JSON_parse).

Lemma split_newline_other (c : ascii) (s : string) :
  notNewline c = true ->
  split newline (String c s) = cons_head c (split newline s).
Proof.
  intros H. unfold split, newline. cbn [split_go String.prefix].
  destruct (ascii_dec nl c) as [<-|N]; [|reflexivity].
  unfold notNewline in H. rewrite Ascii.eqb_refl in H. discriminate H.
Qed.

Lemma split_newline_none (s : string) :
  everyChar notNewline s = true -> split newline s = [s].
Proof.
  induction s as [|c s IH]; intros H; [reflexivity|].
  cbn [everyChar] in H. apply andb_prop in H. destruct H as [Hc Hs].
  rewrite (split_newline_other _ _ Hc), (IH Hs). reflexivity.
Qed.

Lemma split_newline_first (line rest : string) :
  everyChar notNewline line = true ->
  split newline (line ++ String nl rest) = line :: split newline rest.
Proof.
  induction line as [|c line IH]; intros H.
  - apply split_newline_leading.
  - cbn [everyChar] in H. apply andb_prop in H. destruct H as [Hc Hs].
    cbn [append]. rewrite (split_newline_other _ _ Hc), (IH Hs). reflexivity.
Qed.

Lemma everyChar_append (p : ascii -> bool) (a b : string) :
  everyChar p (a ++ b) = (everyChar p a && everyChar p b)%bool.
Proof.
  induction a as [|c a IH]; [reflexivity|].
  cbn [append everyChar]. rewrite IH. apply andb_assoc.
Qed.

Lemma everyChar_weaken (p q : ascii -> bool) (s : string) :
  (forall c, p c = true -> q c = true) ->
  everyChar p s = true -> everyChar q s = true.
Proof.
  intros I. induction s as [|c s IH]; intros H; [reflexivity|].
  cbn [everyChar] in H |- *. apply andb_prop in H. destruct H as [Hc Hs].
  rewrite (I _ Hc), (IH Hs). reflexivity.
Qed.

(** X5.  Of a frame only the first line that starts with [data:] counts:
    when the frame opens with such a line, whatever follows the line feed
    (further [data:] lines included) has no effect on the events. *)
Theorem later_lines_are_ignored (line rest : string) :
  startsWith "data:" line = true ->
  everyChar notNewline line = true ->
  segmentEvents (line ++ String nl rest) = segmentEvents line.
Proof.
  intros Hd Hn. unfold Streaming.segmentEvents, framePayload.
  rewrite (split_newline_first _ _ Hn), (split_newline_none _ Hn).
  cbn [find]. rewrite Hd. reflexivity.
Qed.

(** X6.  White space between [data:] and the payload and after the payload
    is dropped: the frame [data:], blanks, [core], blanks hands exactly
    [core] on, so that a padded [[DONE]] is still the sentinel, and any other
    [core] is what [JSON.parse] receives. *)
Theorem payload_ignores_padding (before core after : string) :
  everyChar isBlank before = true ->
  everyChar isBlank after = true ->
  everyChar notNewline core = true ->
  tightStart core ->
  trimEnd core = core ->
  core <> "" ->
  framePayload ("data:" ++ before ++ core ++ after) = Some core
  /\ segmentEvents ("data:" ++ before ++ core ++ after)
     = if core =? "[DONE]" then [Done]
       else match JSON_parse core with
            | Some parsed => deltaEvents parsed
            | None => [Error parseFailure]
            end.
Proof.
  intros Hb Ha Hn Hs He Hc.
  assert (Bw : forall c, isBlank c = true -> is_ws c = true).
  { intros c H. unfold isBlank in H. apply andb_prop in H. apply H. }
  assert (Bn : forall c, isBlank c = true -> notNewline c = true).
  { intros c H. unfold isBlank in H. apply andb_prop in H. apply H. }
  assert (P : framePayload ("data:" ++ before ++ core ++ after) = Some core).
  { unfold framePayload. rewrite split_newline_none.
    - cbn [find]. unfold startsWith. cbn [append String.prefix].
      repeat (match goal with
              | |- context [ascii_dec ?x ?x] =>
                  destruct (ascii_dec x x) as [_|N]; [|now elim N]
              end).
      rewrite prefix_nil. cbn [String.length slice].
      rewrite (trim_padded before core after
                 (everyChar_weaken _ _ _ Bw Hb) (everyChar_weaken _ _ _ Bw Ha) Hs He).
      destruct (core =? "") eqn:E; [|reflexivity].
      apply String.eqb_eq in E. contradiction.
    - rewrite !everyChar_append, Hn.
      rewrite (everyChar_weaken _ _ _ Bn Hb), (everyChar_weaken _ _ _ Bn Ha).
      reflexivity. }
  split; [exact P|].
  unfold Streaming.segmentEvents. rewrite P. reflexivity.
Qed.

End FrameLines.

Lemma later_lines_are_ignored_witness :
  segmentEvents sampleParse ("data: [DONE]" ++ newline ++ "data: {oops")
  = segmentEvents sampleParse "data: [DONE]".
Proof.
  exact (later_lines_are_ignored sampleParse "data: [DONE]" "data: {oops"
           eq_refl eq_refl).
Defined.

Lemma payload_ignores_padding_witness :
  framePayload ("data:" ++ "   " ++ "[DONE]" ++ " ") = Some "[DONE]"
  /\ segmentEvents sampleParse ("data:" ++ "   " ++ "[DONE]" ++ " ") = [Done].
Proof.
  exact (payload_ignores_padding sampleParse "   " "[DONE]" " "
           eq_refl eq_refl eq_refl eq_refl eq_refl
           (fun H : "[DONE]" = "" =>
              eq_ind "[DONE]"
                (fun s => match s with "" => False | String _ _ => True end)
                I _ H)).
Defined.

(** ** Frames that fail to parse, and frames without payload *)

Section MalformedFrames.

Variable JSON_parse : string -> option JValue.

Local Abbreviation segmentEvents := (segmentEvents JSON_parse).
Local Abbreviation extractEventsFromBuffer := (extractEventsFromBuffer JSON_parse).

(** A [data:] line that holds nothing but blanks has no payload. *)
Lemma blank_payload (pad : string) :
  everyChar isBlank pad = true -> framePayload ("data:" ++ pad) = None.
Proof.
  intros Hb.
  assert (Bw : forall c, isBlank c = true -> is_ws c = true).
  { intros c H. unfold isBlank in H. apply andb_prop in H. apply H. }
  assert (Bn : forall c, isBlank c = true -> notNewline c = true).
  { intros c H. unfold isBlank in H. apply andb_prop in H. apply H. }
  unfold framePayload. rewrite split_newline_none.
  - cbn [find]. unfold startsWith. cbn [append String.prefix].
    repeat (match goal with
            | |- context [ascii_dec ?x ?x] =>
                destruct (ascii_dec x x) as [_|N]; [|now elim N]
            end).
    rewrite prefix_nil. cbn [String.length slice].
    pose proof (trim_padded pad "" "" (everyChar_weaken _ _ _ Bw Hb) eq_refl I eq_refl)
      as T.
    cbn [append] in T. rewrite append_nil_r in T. rewrite T. reflexivity.
  - rewrite everyChar_append, (everyChar_weaken _ _ _ Bn Hb). reflexivity.
Qed.

(** C6 (amended).  The events of a call are those of its complete frames,
    in order, each frame giving its own events whatever its siblings are.  A
    frame whose payload reaches [JSON.parse], is not the [[DONE]] sentinel
    and is rejected gives exactly one [Error] event.  A frame without
    payload gives no event at all: a frame whose first [data:] line is empty
    once trimmed, as when it holds nothing but blanks, which is skipped
    before parsing although [JSON.parse] would reject its empty payload, and
    a frame without a [data:] line. *)
Theorem malformed_frame_is_local
    (buffer frame : string) (before after : list string) :
  completeFrames buffer = (before ++ frame :: after)%list ->
  events (extractEventsFromBuffer buffer)
  = (flat_map segmentEvents before ++ segmentEvents frame
     ++ flat_map segmentEvents after)%list
  /\ (forall payload,
        framePayload frame = Some payload ->
        payload <> "[DONE]" ->
        JSON_parse payload = None ->
        segmentEvents frame = [Error parseFailure])
  /\ (forall dataLine,
        find (startsWith "data:") (split newline frame) = Some dataLine ->
        trim (slice (String.length "data:") dataLine) = "" ->
        segmentEvents frame = [])
  /\ (forall pad,
        frame = "data:" ++ pad ->
        everyChar isBlank pad = true ->
        segmentEvents frame = [])
  /\ (find (startsWith "data:") (split newline frame) = None ->
      segmentEvents frame = []).
Proof.
  intros Hframes. split; [|split; [|split; [|split]]].
  - rewrite events_completeFrames, Hframes, flat_map_app. reflexivity.
  - intros payload Hpayload Hdone Hparse.
    unfold Streaming.segmentEvents. rewrite Hpayload.
    apply String.eqb_neq in Hdone. rewrite Hdone, Hparse. reflexivity.
  - intros dataLine Hfind Hempty. unfold Streaming.segmentEvents, framePayload.
    rewrite Hfind, Hempty. reflexivity.
  - intros pad -> Hb. unfold Streaming.segmentEvents.
    rewrite (blank_payload pad Hb). reflexivity.
  - intros Hfind. unfold Streaming.segmentEvents, framePayload.
    rewrite Hfind. reflexivity.
Qed.

End MalformedFrames.

Lemma malformed_frame_is_local_witness :
  completeFrames mixedBuffer = ["data: {}"; "data: {oops"; "data: [DONE]"]
  /\ framePayload "data: {oops" = Some "{oops"
  /\ "{oops" <> "[DONE]"
  /\ sampleParse "{oops" = None
  /\ events (extractEventsFromBuffer sampleParse mixedBuffer)
     = [Error parseFailure; Done]
  /\ segmentEvents sampleParse "data: {oops" = [Error parseFailure].
Proof.
  split; [reflexivity|]. split; [reflexivity|].
  split; [discriminate|]. split; [reflexivity|]. split.
  - exact (proj1 (malformed_frame_is_local sampleParse mixedBuffer
                    "data: {oops" ["data: {}"] ["data: [DONE]"] eq_refl)).
  - exact (proj1 (proj2 (malformed_frame_is_local sampleParse mixedBuffer
                           "data: {oops" ["data: {}"] ["data: [DONE]"] eq_refl))
             "{oops" eq_refl
             (fun H : "{oops" = "[DONE]" =>
                eq_ind "{oops"
                  (fun s => match s with String "{" _ => True | _ => False end)
                  I _ H)
             eq_refl).
Defined.

(** C6, as stated, fails: the payload of the frame ["data:  "] is the empty
    string, which is not the [[DONE]] sentinel and which the parser rejects,
    and the frame gives no [Error] event; its sibling still gives its
    own. *)
Lemma blank_payload_gives_no_error :
  trim (slice (String.length "data:") "data:  ") = ""
  /\ "" <> "[DONE]"
  /\ sampleParse "" = None
  /\ segmentEvents sampleParse "data:  " = []
  /\ segmentEvents sampleParse "data:  " <> [Error parseFailure]
  /\ events (extractEventsFromBuffer sampleParse ("data:  " ++ delimiter ++ hiFrame))
     = [Delta (Some "Hi") None].
Proof.
  split; [reflexivity|]. split; [discriminate|]. split; [reflexivity|].
  split; [reflexivity|]. split; [vm_compute; discriminate|]. reflexivity.
Qed.

(** ** The decoder: the channels of a [delta] document *)

Section DeltaChannels.

Lemma firstOccurrences_pair (a b : string) :
  join (firstOccurrences [a; b]) = if a =? b then a else a ++ b.
Proof.
  unfold firstOccurrences, join.
  cbn [List.length seq combine filter indexOf fst snd map].
  rewrite !String.eqb_refl. cbn [Nat.eqb filter map].
  destruct (a =? b) eqn:E.
  - cbn [Nat.eqb filter map String.concat]. reflexivity.
  - cbn [Nat.eqb filter map String.concat]. reflexivity.
Qed.

Lemma firstOccurrences_single (a : string) : join (firstOccurrences [a]) = a.
Proof.
  unfold firstOccurrences, join.
  cbn [List.length seq combine filter indexOf fst snd map].
  rewrite String.eqb_refl. reflexivity.
Qed.

(** X7.  On the usual document, with [content], [reasoning] and
    [reasoning_details] strings in [choices[0].delta], the event carries the
    content as it is and, as reasoning, the two reasoning texts one after the
    other, or the text once when both are the same; empty channels are left
    out and a document with nothing in either channel gives no event. *)
Theorem delta_channels (c a b : string) :
  deltaEvents (choiceDelta c a b)
  = let reasoning := if a =? b then a else a ++ b in
    if nonEmpty c || nonEmpty reasoning
    then [Delta (presentField c) (presentField reasoning)]
    else [].
Proof.
  unfold deltaEvents, choiceDelta.
  cbn [getProp getIndex0 lookup String.eqb Ascii.eqb Bool.eqb nullish
       textOf reasoningOf extractTextFromContent extractReasoningText filter].
  cbv zeta.
  destruct (nonEmpty a) eqn:A; destruct (nonEmpty b) eqn:B.
  - rewrite firstOccurrences_pair. reflexivity.
  - rewrite firstOccurrences_single.
    unfold nonEmpty in B. destruct (b =? "") eqn:E; [|discriminate B].
    apply String.eqb_eq in E. subst b.
    rewrite append_nil_r.
    destruct (a =? "") eqn:E'; [|reflexivity].
    apply String.eqb_eq in E'. subst a. discriminate A.
  - rewrite firstOccurrences_single.
    unfold nonEmpty in A. destruct (a =? "") eqn:E; [|discriminate A].
    apply String.eqb_eq in E. subst a.
    cbn [append].
    destruct ("" =? b) eqn:E'; [|reflexivity].
    apply String.eqb_eq in E'. subst b. discriminate B.
  - unfold nonEmpty in A, B.
    destruct (a =? "") eqn:Ea; [|discriminate A].
    destruct (b =? "") eqn:Eb; [|discriminate B].
    apply String.eqb_eq in Ea, Eb. subst a b. reflexivity.
Qed.

(** X8.  When [choices[0].delta] has no [content], or a [null] one, the
    content of [choices[0].message] is used instead, whatever else the delta
    and the message hold: the frame gives an event with that content when it
    is not empty, and no content otherwise.  When neither the delta nor the
    message holds reasoning, that content is all the event carries, and an
    empty one gives no event. *)
Theorem content_falls_back_to_message
    (fields mfields : list (string * JValue)) :
  lookup "content" fields = None \/ lookup "content" fields = Some JNull ->
  let evs := deltaEvents (choiceOf (JObject fields) (JObject mfields)) in
  let c := textOf (lookup "content" mfields) in
  contentChannel evs = presentField c
  /\ (nonEmpty c = true -> exists r, evs = [Delta (Some c) r])
  /\ (lookup "reasoning" fields = None ->
      lookup "reasoning_details" fields = None ->
      lookup "reasoning" mfields = None ->
      lookup "reasoning_details" mfields = None ->
      evs = if nonEmpty c then [Delta (Some c) None] else []).
Proof.
  intros Hc. cbn zeta. unfold deltaEvents, choiceOf.
  cbn [getProp getIndex0 lookup String.eqb Ascii.eqb Bool.eqb nullish].
  assert (E : nullish (lookup "content" fields) (lookup "content" mfields)
              = lookup "content" mfields)
    by (destruct Hc as [-> | ->]; reflexivity).
  rewrite E. clear E Hc.
  set (c := textOf (lookup "content" mfields)).
  set (chunks := filter nonEmpty _).
  split; [|split].
  - unfold presentField.
    destruct (nonEmpty c); [reflexivity|].
    cbn [orb].
    destruct (nonEmpty match chunks with [] => "" | _ => join (firstOccurrences chunks) end);
      reflexivity.
  - intros N. rewrite N. cbn [orb]. eexists. reflexivity.
  - intros R1 R2 R3 R4. unfold chunks. rewrite R1, R2, R3, R4.
    cbn [nullish reasoningOf filter nonEmpty String.eqb negb orb].
    destruct (nonEmpty c); reflexivity.
Qed.

(** X9.  A content given as a list of parts [{type: "text", text: t}] is
    read as the texts joined in order, by both extractors. *)
Theorem text_parts_are_joined (texts : list string) :
  extractTextFromContent (textParts texts) = join texts
  /\ extractReasoningText (textParts texts) = join texts.
Proof.
  unfold textParts.
  split; cbn [extractTextFromContent extractReasoningText];
    induction texts as [|t rest IH]; try reflexivity;
    cbn [map joinMap]; rewrite IH, join_cons; reflexivity.
Qed.

End DeltaChannels.

Lemma content_falls_back_to_message_witness :
  contentChannel
    (deltaEvents (choiceOf (JObject [("role", JString "assistant")])
                           (JObject [("content", JString "Hi");
                                     ("reasoning", JString "hmm")])))
  = Some "Hi".
Proof.
  exact (proj1 (content_falls_back_to_message [("role", JString "assistant")]
                  [("content", JString "Hi"); ("reasoning", JString "hmm")]
                  (or_introl eq_refl))).
Defined.

(** ** The message list and the fold of a whole response *)

Section MessageList.

Local Open Scope Z_scope.

Lemma updateMessageById_cons
    (m : ChatMessage) (rest : list ChatMessage) (target : string)
    (updater : ChatMessage -> ChatMessage) :
  updateMessageById (m :: rest) target updater
  = if (id m =? target)%string then updater m :: rest
    else m :: updateMessageById rest target updater.
Proof.
  unfold updateMessageById. cbn [findIndex].
  destruct (id m =? target)%string; [reflexivity|].
  destruct (findIndex target rest) as [i|]; [|reflexivity].
  cbn [nth_error]. destruct (nth_error rest i); reflexivity.
Qed.

(** X10.  [updateMessageById] replaces the first message that has the id by
    its update and leaves every other message, before and after it, as it
    is; the list keeps its length. *)
Theorem update_replaces_first_match
    (before after : list ChatMessage) (m : ChatMessage) (target : string)
    (updater : ChatMessage -> ChatMessage) :
  absent target before = true ->
  id m = target ->
  updateMessageById (before ++ m :: after) target updater
  = (before ++ updater m :: after)%list
  /\ List.length (updateMessageById (before ++ m :: after) target updater)
     = List.length (before ++ m :: after)%list.
Proof.
  intros Hb Hm.
  assert (E : updateMessageById (before ++ m :: after) target updater
              = (before ++ updater m :: after)%list).
  { induction before as [|b before IH].
    - cbn [app]. rewrite updateMessageById_cons, Hm, String.eqb_refl. reflexivity.
    - cbn [absent forallb] in Hb. apply andb_prop in Hb. destruct Hb as [Hx Hb].
      cbn [app]. rewrite updateMessageById_cons.
      destruct (id b =? target)%string; [discriminate Hx|].
      rewrite (IH Hb). reflexivity. }
  split; [exact E|]. rewrite E, !length_app. reflexivity.
Qed.

Lemma foldInto_identity (message : ChatMessage) (f : Fold) :
  id (foldInto message f) = id message
  /\ role (foldInto message f) = role message
  /\ attachments (foldInto message f) = attachments message.
Proof.
  destruct f as [now content reasoning | now | fallback]; cbn [foldInto].
  - destruct (negb (hasText content) && negb (hasText reasoning))%bool;
      [repeat split|].
    unfold applyDelta.
    destruct (hasText reasoning); [repeat split|].
    destruct (hasText content && truthy (isReasoningStreaming message))%bool;
      repeat split.
  - repeat split.
  - repeat split.
Qed.

(** No event changes the id, the role or the attachments of the message it
    is folded into, over any sequence of events. *)
Lemma fold_keeps_identity (message : ChatMessage) (fs : list Fold) :
  id (foldAll message fs) = id message
  /\ role (foldAll message fs) = role message
  /\ attachments (foldAll message fs) = attachments message.
Proof.
  unfold foldAll. revert message.
  induction fs as [|f fs IH]; intros message; [repeat split|].
  cbn [fold_left].
  destruct (IH (foldInto message f)) as (-> & -> & ->).
  apply foldInto_identity.
Qed.

Lemma update_twice
    (messages : list ChatMessage) (target : string)
    (first second : ChatMessage -> ChatMessage) :
  (forall m, id (first m) = id m) ->
  updateMessageById (updateMessageById messages target first) target second
  = updateMessageById messages target (fun m => second (first m)).
Proof.
  intros H. induction messages as [|m rest IH]; [reflexivity|].
  rewrite !updateMessageById_cons.
  destruct (id m =? target)%string eqn:E.
  - rewrite updateMessageById_cons, H, E. reflexivity.
  - rewrite updateMessageById_cons, E, IH. reflexivity.
Qed.

Lemma update_identity (messages : list ChatMessage) (target : string) :
  updateMessageById messages target (fun m => m) = messages.
Proof.
  induction messages as [|m rest IH]; [reflexivity|].
  rewrite updateMessageById_cons, IH.
  destruct (id m =? target)%string; reflexivity.
Qed.

(** X11.  Folding the events of a response one by one through
    [updateMessageById], as [sendMessage] does, is one update of the list by
    the fold of all the events on the message: the other messages are never
    touched and the placeholder goes through exactly the message-level
    fold. *)
Theorem list_fold_is_message_fold
    (messages : list ChatMessage) (target : string) (fs : list Fold) :
  fold_left (foldIntoList target) fs messages
  = updateMessageById messages target (fun m => foldAll m fs).
Proof.
  revert messages. induction fs as [|f fs IH]; intros messages.
  - cbn [fold_left foldAll]. symmetry. apply update_identity.
  - cbn [fold_left]. rewrite IH. unfold foldIntoList.
    rewrite update_twice; [reflexivity|].
    intros m. apply foldInto_identity.
Qed.

Lemma noText_empty (o : option string) :
  hasText o = false -> match o with Some x => x | None => ""%string end = ""%string.
Proof.
  destruct o as [x|]; intros H; [|reflexivity]. cbn [hasText] in H.
  destruct (x =? "")%string eqn:E; [|discriminate H].
  apply String.eqb_eq in E. exact E.
Qed.

Lemma applyDelta_content (now : Z) (c r : option string) (message : ChatMessage) :
  content (applyDelta now c r message)
  = (content message ++ match c with Some x => x | None => "" end)%string.
Proof.
  assert (E : content (applyDelta now c r message)
              = if hasText c
                then (content message ++ match c with Some x => x | None => "" end)%string
                else content message).
  { unfold applyDelta. destruct (hasText r); [reflexivity|].
    destruct (hasText c && truthy (isReasoningStreaming message))%bool; reflexivity. }
  rewrite E. destruct (hasText c) eqn:C; [reflexivity|].
  rewrite (noText_empty _ C), append_nil_r. reflexivity.
Qed.

Lemma applyDelta_reasoning (now : Z) (c r : option string) (message : ChatMessage) :
  reasoningText (applyDelta now c r message)
  = (reasoningText message ++ match r with Some x => x | None => "" end)%string.
Proof.
  unfold reasoningText, applyDelta. destruct (hasText r) eqn:R.
  - reflexivity.
  - rewrite (noText_empty _ R), append_nil_r.
    destruct (hasText c && truthy (isReasoningStreaming message))%bool; reflexivity.
Qed.

Lemma foldInto_text (message : ChatMessage) (f : Fold) :
  isDeltaFold f = true ->
  content (foldInto message f) = (content message ++ addedContent f)%string
  /\ reasoningText (foldInto message f)
     = (reasoningText message ++ addedReasoning f)%string.
Proof.
  destruct f as [now c r | now | fallback]; intros D; try discriminate D.
  cbn [foldInto].
  replace (addedContent (FoldDelta now c r))
    with (match c with Some x => x | None => ""%string end)
    by (destruct c; reflexivity).
  replace (addedReasoning (FoldDelta now c r))
    with (match r with Some x => x | None => ""%string end)
    by (destruct c; destruct r; reflexivity).
  destruct (negb (hasText c) && negb (hasText r))%bool eqn:G.
  - apply andb_prop in G. destruct G as [Gc Gr].
    apply negb_true_iff in Gc, Gr.
    rewrite (noText_empty _ Gc), (noText_empty _ Gr), !append_nil_r.
    split; reflexivity.
  - split; [apply applyDelta_content | apply applyDelta_reasoning].
Qed.

Lemma foldAll_text (fs : list Fold) :
  forall message,
    forallb isDeltaFold fs = true ->
    content (foldAll message fs)
    = (content message ++ join (map addedContent fs))%string
    /\ reasoningText (foldAll message fs)
       = (reasoningText message ++ join (map addedReasoning fs))%string.
Proof.
  induction fs as [|f fs IH]; intros message H.
  - cbn [foldAll fold_left map]. change (join []) with ""%string.
    rewrite !append_nil_r. split; reflexivity.
  - cbn [forallb] in H. apply andb_prop in H. destruct H as [Hf Hfs].
    change (foldAll message (f :: fs)) with (foldAll (foldInto message f) fs).
    destruct (IH (foldInto message f) Hfs) as [-> ->].
    destruct (foldInto_text message f Hf) as [-> ->].
    cbn [map]. rewrite !join_cons, !append_assoc. split; reflexivity.
Qed.

(** X12.  The text of a response is the text of its events, in order: after
    any sequence of [delta] events folded into a new placeholder, the content
    is the concatenation of their content texts and the reasoning the
    concatenation of their reasoning texts; when the stream then ends, the
    content is that concatenation without its trailing white space. *)
Theorem response_text_is_accumulated (newId : string) (fs : list Fold) (now : Z) :
  forallb isDeltaFold fs = true ->
  content (foldAll (createPlaceholderMessage newId) fs) = join (map addedContent fs)
  /\ reasoningText (foldAll (createPlaceholderMessage newId) fs)
     = join (map addedReasoning fs)
  /\ content (foldAll (createPlaceholderMessage newId) (fs ++ [FoldStreamEnd now]))
     = trimEnd (join (map addedContent fs)).
Proof.
  intros H.
  destruct (foldAll_text fs (createPlaceholderMessage newId) H) as [C R].
  change (content (createPlaceholderMessage newId)) with ""%string in C.
  change (reasoningText (createPlaceholderMessage newId)) with ""%string in R.
  cbn [append] in C, R.
  split; [exact C|]. split; [exact R|].
  unfold foldAll. rewrite fold_left_app. cbn [fold_left foldInto].
  unfold finalizeDone, formatAssistantMessage. cbn [content].
  fold (foldAll (createPlaceholderMessage newId) fs). rewrite C. reflexivity.
Qed.

End MessageList.

Lemma update_replaces_first_match_witness :
  absent "m1" [imageOnlyMessage] = true
  /\ id (createPlaceholderMessage "m1") = "m1"
  /\ updateMessageById
       [imageOnlyMessage; createPlaceholderMessage "m1"; createPlaceholderMessage "m1"]
       "m1" (finalizeError "offline")
     = [imageOnlyMessage; finalizeError "offline" (createPlaceholderMessage "m1");
        createPlaceholderMessage "m1"].
Proof.
  split; [reflexivity|]. split; [reflexivity|].
  exact (proj1 (update_replaces_first_match [imageOnlyMessage]
                  [createPlaceholderMessage "m1"] (createPlaceholderMessage "m1")
                  "m1" (finalizeError "offline") eq_refl eq_refl)).
Defined.

Lemma response_text_is_accumulated_witness :
  content (foldAll (createPlaceholderMessage "m1")
             [FoldDelta 1000 None (Some "hmm"); FoldDelta 2000 (Some "Hi ") None;
              FoldStreamEnd 3000])
  = "Hi".
Proof.
  exact (proj2 (proj2
           (response_text_is_accumulated "m1"
              [FoldDelta 1000 None (Some "hmm"); FoldDelta 2000 (Some "Hi ") None]
              3000 eq_refl))).
Defined.

(** ** Timing of the reasoning phase *)

Section ReasoningTiming.

Local Open Scope Z_scope.

Lemma reasoning_step (message : ChatMessage) (event : Z * string) :
  nonEmpty (snd event) = true ->
  let next := foldInto message (reasoningFold event) in
  reasoningStartedAt next
  = match reasoningStartedAt message with
    | Some t => Some t
    | None => Some (fst event)
    end
  /\ reasoningStoppedAt next = Some (fst event)
  /\ isReasoningStreaming next = Some true
  /\ reasoningDurationSeconds next = reasoningDurationSeconds message.
Proof.
  intros H. destruct event as [t r]. cbn [fst snd] in *.
  unfold reasoningFold. cbn [fst snd foldInto hasText negb andb].
  unfold nonEmpty in H. rewrite H. cbn [andb].
  unfold applyDelta. cbn [hasText]. rewrite H. repeat split.
Qed.

Lemma last_default {A : Type} (l : list A) (x d d' : A) :
  last (x :: l) d = last (x :: l) d'.
Proof.
  revert x. induction l as [|y l IH]; intros x; [reflexivity|].
  change (last (x :: y :: l) d) with (last (y :: l) d).
  change (last (x :: y :: l) d') with (last (y :: l) d').
  apply IH.
Qed.

Lemma reasoning_run (events : list (Z * string)) :
  forall message started stopped,
    reasoningStartedAt message = Some started ->
    reasoningStoppedAt message = Some stopped ->
    isReasoningStreaming message = Some true ->
    forallb (fun e => nonEmpty (snd e)) events = true ->
    let next := foldAll message (map reasoningFold events) in
    reasoningStartedAt next = Some started
    /\ reasoningStoppedAt next = Some (last (map fst events) stopped)
    /\ isReasoningStreaming next = Some true
    /\ reasoningDurationSeconds next = reasoningDurationSeconds message.
Proof.
  induction events as [|e events IH]; intros message started stopped Hs Ht Hr He.
  - cbn. repeat split; assumption.
  - cbn [forallb] in He. apply andb_prop in He. destruct He as [He Hes].
    destruct (reasoning_step message e He) as (S1 & S2 & S3 & S4).
    rewrite Hs in S1.
    cbn zeta. cbn [map].
    change (foldAll message (reasoningFold e :: map reasoningFold events))
      with (foldAll (foldInto message (reasoningFold e)) (map reasoningFold events)).
    destruct (IH _ _ _ S1 S2 S3 Hes) as (I1 & I2 & I3 & I4).
    rewrite I1, I2, I3, I4, S4. repeat split.
    destruct events as [|e' events]; [reflexivity|].
    cbn [map]. f_equal.
    change (last (fst e :: fst e' :: map fst events) stopped)
      with (last (fst e' :: map fst events) stopped).
    apply last_default.
Qed.

(** X13.  The thinking time is measured on the reasoning events alone: when
    a run of reasoning [delta] events, the first read at [t0], is followed by
    a content [delta], the frozen duration is the time from [t0] to the last
    reasoning event, rounded to seconds and at least 1, whenever the content
    arrives; the same holds when the stream ends during the reasoning, if the
    clock did not go backwards. *)
Theorem thinking_time_spans_reasoning
    (newId : string) (t0 : Z) (r0 : string) (events : list (Z * string))
    (tc : Z) (c : string) (tEnd : Z) :
  forallb (fun e => nonEmpty (snd e)) ((t0, r0) :: events) = true ->
  nonEmpty c = true ->
  let thinking :=
    foldAll (createPlaceholderMessage newId)
            (map reasoningFold ((t0, r0) :: events)) in
  isReasoningStreaming thinking = Some true
  /\ reasoningDurationSeconds thinking = None
  /\ reasoningDurationSeconds (foldInto thinking (FoldDelta tc (Some c) None))
     = Some (elapsedSeconds t0 (lastTime t0 events))
  /\ isReasoningStreaming (foldInto thinking (FoldDelta tc (Some c) None))
     = Some false
  /\ reasoningDurationSeconds (foldInto thinking (FoldStreamEnd tEnd))
     = if t0 <=? lastTime t0 events
       then Some (elapsedSeconds t0 (lastTime t0 events))
       else None.
Proof.
  intros He Hc. cbn zeta.
  cbn [forallb] in He. apply andb_prop in He. destruct He as [H0 Hes].
  destruct (reasoning_step (createPlaceholderMessage newId) (t0, r0) H0)
    as (S1 & S2 & S3 & S4).
  cbn [createPlaceholderMessage reasoningStartedAt reasoningDurationSeconds fst]
    in S1, S2, S4.
  cbn [map].
  change (foldAll (createPlaceholderMessage newId)
            (reasoningFold (t0, r0) :: map reasoningFold events))
    with (foldAll (foldInto (createPlaceholderMessage newId) (reasoningFold (t0, r0)))
            (map reasoningFold events)).
  destruct (reasoning_run events _ _ _ S1 S2 S3 Hes) as (I1 & I2 & I3 & I4).
  rewrite S4 in I4. fold (lastTime t0 events) in I2.
  set (thinking := foldAll _ (map reasoningFold events)) in *.
  split; [exact I3|]. split; [exact I4|].
  unfold nonEmpty in Hc.
  cbn [foldInto hasText negb andb]. rewrite Hc. cbn [negb andb].
  unfold applyDelta. cbn [hasText]. rewrite Hc, I3. cbn [truthy andb].
  cbn [reasoningDurationSeconds isReasoningStreaming].
  rewrite I4, I1, I2.
  split; [reflexivity|]. split; [reflexivity|].
  unfold finalizeDone. cbn [reasoningDurationSeconds].
  rewrite I4, I1, I2. reflexivity.
Qed.

Lemma foldInto_duration_floor (message : ChatMessage) (f : Fold) :
  match reasoningDurationSeconds message with Some d => 1 <= d | None => True end ->
  match reasoningDurationSeconds (foldInto message f) with
  | Some d => 1 <= d
  | None => True
  end.
Proof.
  intros H.
  assert (E : forall a b, 1 <= elapsedSeconds a b)
    by (intros a b; unfold elapsedSeconds; apply Z.le_max_l).
  destruct f as [now c r | now | fallback]; cbn [foldInto].
  - destruct (negb (hasText c) && negb (hasText r))%bool; [exact H|].
    unfold applyDelta. destruct (hasText r); [exact H|].
    destruct (hasText c && truthy (isReasoningStreaming message))%bool;
      cbn [reasoningDurationSeconds]; [|exact H].
    destruct (reasoningDurationSeconds message); [exact H|].
    destruct (reasoningStartedAt message); [apply E | exact I].
  - unfold finalizeDone. cbn [reasoningDurationSeconds].
    destruct (reasoningDurationSeconds message); [exact H|].
    destruct (reasoningStartedAt message) as [t0|];
      destruct (reasoningStoppedAt message) as [t1|];
      try (destruct (truthy (isReasoningStreaming message)));
      try exact I;
      match goal with
      | |- context [if ?a <=? ?b then _ else _] =>
          destruct (a <=? b); [apply E | exact I]
      end.
  - exact I.
Qed.

(** X14.  A duration is never shorter than one second: whatever events are
    folded into a new placeholder, [reasoningDurationSeconds] is unset or at
    least 1. *)
Theorem duration_is_at_least_one (newId : string) (fs : list Fold) :
  match reasoningDurationSeconds (foldAll (createPlaceholderMessage newId) fs) with
  | Some d => 1 <= d
  | None => True
  end.
Proof.
  unfold foldAll.
  assert (G : forall message,
             match reasoningDurationSeconds message with
             | Some d => 1 <= d | None => True end ->
             match reasoningDurationSeconds (fold_left foldInto fs message) with
             | Some d => 1 <= d | None => True end).
  { induction fs as [|f fs IH]; intros message H; [exact H|].
    cbn [fold_left]. apply IH, foldInto_duration_floor, H. }
  apply G. exact I.
Qed.

(** X15.  Finalizing at the end of the stream is idempotent: a second
    finalization, at any later time, changes nothing; in particular the
    content and the reasoning are not trimmed further and the duration is
    neither recomputed nor lost. *)
Theorem finalizeDone_idempotent (now later : Z) (message : ChatMessage) :
  finalizeDone later (finalizeDone now message) = finalizeDone now message.
Proof.
  unfold finalizeDone at 1.
  cbn [finalizeDone id role content attachments Types.reasoning
       reasoningDurationSeconds reasoningStartedAt reasoningStoppedAt
       isReasoningStreaming].
  unfold formatAssistantMessage. rewrite trimEnd_idempotent.
  assert (R : forall o : option string,
             match option_map trim
                     match option_map trim o with
                     | Some r => if (r =? "")%string then None else Some r
                     | None => None
                     end
             with
             | Some r => if (r =? "")%string then None else Some r
             | None => None
             end
             = match option_map trim o with
               | Some r => if (r =? "")%string then None else Some r
               | None => None
               end).
  { intros [r|]; [|reflexivity]. cbn [option_map].
    destruct (trim r =? "")%string eqn:E; [reflexivity|].
    cbn [option_map]. rewrite trim_idempotent, E. reflexivity. }
  unfold finalizeDone. unfold formatAssistantMessage.
  rewrite R.
  f_equal.
  destruct (match reasoningDurationSeconds message with
            | Some d => _ | None => _ end); reflexivity.
Qed.

End ReasoningTiming.

Lemma thinking_time_spans_reasoning_witness :
  reasoningDurationSeconds
    (foldInto
       (foldAll (createPlaceholderMessage "m1")
          (map reasoningFold [(1000, "a"); (2200, "b"); (4600, "c")]%Z))
       (FoldDelta 9000 (Some "Hi") None))
  = Some 4%Z.
Proof.
  exact (proj1 (proj2 (proj2
           (thinking_time_spans_reasoning "m1" 1000 "a" [(2200, "b"); (4600, "c")]%Z
              9000 "Hi" 0 eq_refl eq_refl)))).
Defined.

(** ** The request content of a message *)

Section RequestContent.

Lemma mapMessage_cases (message : ChatMessage) :
  mapMessageToApiContent message
  = match attachments message with
    | Some (first :: others) =>
        inr (TextPart (if trim (content message) =? ""
                       then ATTACHMENT_ONLY_FALLBACK_TEXT
                       else content message)
             :: map imagePart (first :: others))
    | _ =>
        inl (if trim (content message) =? "" then "" else content message)
    end.
Proof.
  unfold mapMessageToApiContent, hasAttachments.
  destruct (attachments message) as [[|first others]|];
    destruct (trim (content message) =? ""); reflexivity.
Qed.

(** X16.  What is sent for a message depends on its attachments only for
    the shape: without attachments it is a string, the content as typed
    (not trimmed) or the empty string when the content is blank; with
    attachments it is a list of parts, a text part (the content as typed, or
    the fallback sentence when it is blank) followed by the images in
    order. *)
Theorem api_content_by_cases (message : ChatMessage) :
  mapMessageToApiContent message
  = match attachments message with
    | Some (first :: others) =>
        inr (TextPart (if trim (content message) =? ""
                       then ATTACHMENT_ONLY_FALLBACK_TEXT
                       else content message)
             :: map imagePart (first :: others))
    | _ =>
        inl (if trim (content message) =? "" then "" else content message)
    end.
Proof. exact (mapMessage_cases message). Qed.

(** X17.  [sendMessage] sends nothing for a blank input without
    attachments, and otherwise never sends an empty content: the user's
    message carries the trimmed input, which goes out as it is when there is
    no attachment, and as the text part in front of the images (replaced by
    the fallback sentence when blank) when there are some. *)
Theorem user_message_is_never_empty
    (newId input : string) (attached : list ChatAttachment) (isStreaming : bool) :
  match userMessage newId input attached with
  | None =>
      trim input = "" /\ attached = []
      /\ canSend isStreaming input attached = false
  | Some message =>
      content message = trim input
      /\ mapMessageToApiContent message <> inl ""
      /\ mapMessageToApiContent message
         = match attached with
           | [] => inl (trim input)
           | _ => inr (TextPart (if trim input =? ""
                                 then ATTACHMENT_ONLY_FALLBACK_TEXT
                                 else trim input)
                       :: map imagePart attached)
           end
  end.
Proof.
  unfold userMessage, canSend.
  destruct (trim input =? "") eqn:E; destruct attached as [|a rest];
    cbn [List.length Nat.eqb andb negb orb].
  - apply String.eqb_eq in E. repeat split; [exact E|].
    apply andb_false_r.
  - split; [reflexivity|].
    rewrite mapMessage_cases.
    cbn [attachments content]. rewrite map_id, trim_idempotent, E.
    split; [discriminate | reflexivity].
  - split; [reflexivity|].
    rewrite mapMessage_cases.
    cbn [attachments content]. rewrite trim_idempotent, E.
    split; [|reflexivity].
    intros [= H]. rewrite H in E. discriminate E.
  - split; [reflexivity|].
    rewrite mapMessage_cases.
    cbn [attachments content]. rewrite map_id, trim_idempotent, E.
    split; [discriminate | reflexivity].
Qed.

End RequestContent.

(** ** The attachment list of the composer *)

Section Composer.

Lemma addAttachments_slots (prev toAdd : list ChatAttachment) :
  fst (addAttachments prev toAdd)
  = (prev ++ firstn (MAX_ATTACHMENTS - List.length prev) toAdd)%list
  /\ snd (addAttachments prev toAdd)
     = Nat.min (MAX_ATTACHMENTS - List.length prev) (List.length toAdd).
Proof.
  unfold addAttachments.
  destruct (Nat.leb (MAX_ATTACHMENTS - List.length prev) 0) eqn:L.
  - apply Nat.leb_le in L.
    assert (Z0 : (MAX_ATTACHMENTS - List.length prev = 0)%nat) by lia.
    rewrite Z0. cbn [firstn fst snd Nat.min]. rewrite app_nil_r. split; reflexivity.
  - destruct (Nat.eqb (List.length (firstn (MAX_ATTACHMENTS - List.length prev) toAdd)) 0)
      eqn:E; cbn [fst snd].
    + apply Nat.eqb_eq in E. pose proof E as E'.
      apply length_zero_iff_nil in E'. rewrite E', app_nil_r.
      rewrite length_firstn in E. split; [reflexivity | symmetry; exact E].
    + split; [reflexivity | apply length_firstn].
Qed.

(** X18.  Selecting files fills the free slots and no more: the new list is
    the old one followed by as many of the new attachments, from the front,
    as there are slots left out of 4, and [addedCount] is their number. *)
Theorem addAttachments_fills_slots (prev toAdd : list ChatAttachment) :
  fst (addAttachments prev toAdd)
  = (prev ++ firstn (MAX_ATTACHMENTS - List.length prev) toAdd)%list
  /\ snd (addAttachments prev toAdd)
     = Nat.min (MAX_ATTACHMENTS - List.length prev) (List.length toAdd).
Proof. exact (addAttachments_slots prev toAdd). Qed.

Lemma composerStep_bound (attached : list ChatAttachment) (a : ComposerAction) :
  (List.length attached <= MAX_ATTACHMENTS)%nat ->
  (List.length (composerStep attached a) <= MAX_ATTACHMENTS)%nat.
Proof.
  intros H. destruct a as [toAdd | target |]; cbn [composerStep].
  - rewrite (proj1 (addAttachments_slots attached toAdd)).
    rewrite length_app, length_firstn. lia.
  - unfold removeAttachment.
    pose proof (filter_length_le
                  (fun attachment => negb (att_id attachment =? target)) attached).
    lia.
  - apply Nat.le_0_l.
Qed.

(** X19.  The composer never holds more than 4 attachments, whatever files
    are selected or removed and whenever a message is sent. *)
Theorem attachments_never_exceed_limit (actions : list ComposerAction) :
  (List.length (fold_left composerStep actions []) <= MAX_ATTACHMENTS)%nat.
Proof.
  assert (G : forall attached,
             (List.length attached <= MAX_ATTACHMENTS)%nat ->
             (List.length (fold_left composerStep actions attached)
              <= MAX_ATTACHMENTS)%nat).
  { induction actions as [|a actions IH]; intros attached H; [exact H|].
    cbn [fold_left]. apply IH, composerStep_bound, H. }
  apply G, Nat.le_0_l.
Qed.

Lemma validate_accumulates (files : list File) :
  forall errors valid,
    snd (validate files errors valid)
    = (valid ++ filter (fun f => isImage f && withinFileLimit f) files)%list.
Proof.
  induction files as [|file rest IH]; intros errors valid.
  - cbn. symmetry. apply app_nil_r.
  - cbn [validate filter].
    destruct (isImage file); cbn [negb andb].
    + destruct (withinFileLimit file); cbn [negb].
      * rewrite IH, <- app_assoc. reflexivity.
      * apply IH.
    + apply IH.
Qed.

Lemma validate_clean (files : list File) :
  forall errors valid,
    fst (validate files errors valid) = [] ->
    errors = [] /\ forallb (fun f => isImage f && withinFileLimit f) files = true.
Proof.
  assert (A : forall message errors, addMessage message errors <> []).
  { intros message errors. unfold addMessage.
    destruct (existsb (String.eqb message) errors) eqn:E.
    - destruct errors; [discriminate E | discriminate].
    - destruct errors; discriminate. }
  induction files as [|file rest IH]; intros errors valid H.
  - split; [exact H | reflexivity].
  - cbn [validate] in H. cbn [forallb].
    destruct (isImage file); cbn [negb andb] in H |- *.
    + destruct (withinFileLimit file); cbn [negb] in H |- *.
      * apply (IH _ _ H).
      * destruct (IH _ _ H) as [E _]. elim (A _ _ E).
    + destruct (IH _ _ H) as [E _]. elim (A _ _ E).
Qed.

(** X20.  The validation keeps exactly the files whose type starts with
    [image/] and whose size is at most 5 MB, in the order selected; no
    message is raised exactly when every file is kept. *)
Theorem validation_keeps_small_images (files : list File) :
  snd (validate files [] [])
  = filter (fun f => isImage f && withinFileLimit f) files
  /\ (fst (validate files [] []) = []
      <-> forallb (fun f => isImage f && withinFileLimit f) files = true).
Proof.
  split; [apply (validate_accumulates files [] [])|].
  split; [intros H; apply (validate_clean files [] [] H)|].
  assert (G : forall errors valid,
             forallb (fun f => isImage f && withinFileLimit f) files = true ->
             fst (validate files errors valid) = errors).
  { induction files as [|file rest IH]; intros errors valid H; [reflexivity|].
    cbn [forallb] in H. apply andb_prop in H. destruct H as [Hf Hr].
    apply andb_prop in Hf. destruct Hf as [Hi Hl].
    cbn [validate]. rewrite Hi, Hl. cbn [negb]. apply IH, Hr. }
  apply G.
Qed.

End Composer.

(** ** The size estimate at its edges *)

Section EstimateEdges.

Local Open Scope Z_scope.

(** X21.  Only the text between the first and the second comma is
    measured: whatever follows a second comma does not change the
    estimate. *)
Theorem estimate_stops_at_second_comma (header body rest : string) :
  everyChar notComma header = true ->
  everyChar notComma body = true ->
  estimateBase64Size (header ++ "," ++ body ++ "," ++ rest)
  = estimateBase64Size (header ++ "," ++ body).
Proof.
  intros Hh Hb. unfold estimateBase64Size.
  change (header ++ "," ++ body ++ "," ++ rest)%string
    with (header ++ String "," (body ++ String "," rest))%string.
  change (header ++ "," ++ body)%string with (header ++ String "," body)%string.
  rewrite (base64Part_after_header _ _ Hh Hb).
  unfold base64Part.
  rewrite (split_comma_first _ _ Hh), (split_comma_first _ _ Hb). reflexivity.
Qed.

Lemma split_comma_lengths (s : string) :
  Forall (fun seg => (String.length seg <= String.length s)%nat) (split "," s).
Proof.
  induction s as [|c s IH].
  - constructor; [apply le_n | constructor].
  - destruct (notComma c) eqn:C.
    + rewrite (split_comma_other _ _ C).
      destruct (split "," s) as [|seg segs]; cbn [cons_head].
      * constructor; [cbn [String.length]; lia | constructor].
      * inversion IH as [|? ? Hseg Hsegs]; subst.
        constructor; [cbn [String.length]; lia|].
        eapply Forall_impl; [|exact Hsegs].
        cbn [String.length]. intros; lia.
    + unfold notComma in C. apply negb_false_iff, Ascii.eqb_eq in C. subst c.
      rewrite split_comma_hit. constructor; [cbn [String.length]; lia|].
      eapply Forall_impl; [|exact IH]. cbn [String.length]. intros; lia.
Qed.

Lemma paddingOf_range (base64 : string) : 0 <= paddingOf base64 <= 2.
Proof.
  unfold paddingOf.
  destruct (endsWith "==" base64); [lia|].
  destruct (endsWith "=" base64); lia.
Qed.

(** X22.  The estimate is never negative and never more than three
    quarters of the length of the whole string. *)
Theorem estimate_bounds (dataUrl : string) :
  0 <= estimateBase64Size dataUrl <= Z.of_nat (String.length dataUrl) * 3 / 4.
Proof.
  assert (L : (String.length (base64Part dataUrl) <= String.length dataUrl)%nat).
  { unfold base64Part. pose proof (split_comma_lengths dataUrl) as F.
    destruct (split "," dataUrl) as [|a [|b rest]];
      try (cbn [String.length]; lia).
    inversion F as [|? ? _ F']; subst. inversion F' as [|? ? Hb _]; subst.
    exact Hb. }
  assert (U : 0 <= Z.of_nat (String.length dataUrl) * 3 / 4)
    by (apply Z.div_pos; lia).
  unfold estimateBase64Size.
  destruct (base64Part dataUrl =? "")%string; [lia|].
  pose proof (paddingOf_range (base64Part dataUrl)) as P.
  assert (D : Z.of_nat (String.length (base64Part dataUrl)) * 3 / 4
              <= Z.of_nat (String.length dataUrl) * 3 / 4)
    by (apply Z.div_le_mono; lia).
  lia.
Qed.

End EstimateEdges.

Lemma estimate_stops_at_second_comma_witness :
  estimateBase64Size "data:image/png;base64,QUJD,QUJDQUJD" = 3%Z.
Proof.
  exact (estimate_stops_at_second_comma "data:image/png;base64" "QUJD" "QUJDQUJD"
           eq_refl eq_refl).
Defined.

(** ** The name and the first rendering of a compressed image *)

Section CompressedArtifact.

Local Open Scope Z_scope.

Lemma stripExtension_prefix (name : string) :
  exists ext, name = (stripExtension name ++ ext)%string.
Proof.
  induction name as [|c rest [ext IH]].
  - exists ""%string. reflexivity.
  - cbn [stripExtension].
    destruct (Ascii.eqb c "." && negb (rest =? "")%string
              && everyChar extensionChar rest)%bool.
    + exists (String c rest). reflexivity.
    + exists ext. cbn [append]. rewrite <- IH. reflexivity.
Qed.

Lemma dotted_tail (stem ext : string) :
  everyChar extensionChar (stem ++ String "." ext) = false.
Proof.
  induction stem as [|c stem IH]; cbn [append everyChar].
  - reflexivity.
  - rewrite IH. apply andb_false_r.
Qed.

(** The extension that is removed is the last one. *)
Lemma stripExtension_last (stem ext : string) :
  ext <> ""%string ->
  everyChar extensionChar ext = true ->
  stripExtension (stem ++ String "." ext) = stem.
Proof.
  intros N E. induction stem as [|c stem IH]; cbn [append stripExtension].
  - apply String.eqb_neq in N. rewrite N, E. reflexivity.
  - rewrite dotted_tail, andb_false_r, IH. reflexivity.
Qed.

(** A name is left as it is unless it ends with an extension. *)
Lemma stripExtension_cases (name : string) :
  stripExtension name = name
  \/ exists stem ext,
       name = (stem ++ String "." ext)%string
       /\ ext <> ""%string
       /\ everyChar extensionChar ext = true.
Proof.
  induction name as [|c rest IH]; [left; reflexivity|].
  cbn [stripExtension].
  destruct (Ascii.eqb c "." && negb (rest =? "")%string
            && everyChar extensionChar rest)%bool eqn:M.
  - right. apply andb_prop in M. destruct M as [M E].
    apply andb_prop in M. destruct M as [C N].
    apply Ascii.eqb_eq in C. subst c.
    exists ""%string, rest. split; [reflexivity|]. split; [|exact E].
    apply negb_true_iff, String.eqb_neq in N. exact N.
  - destruct IH as [-> | (stem & ext & -> & N & E)]; [left; reflexivity|].
    right. exists (String c stem), ext. repeat split; assumption.
Qed.

(** X23.  A compressed image is typed [image/jpeg] and named after the
    file, with [.jpg] in place of its last extension.  When the name ends
    with a dot followed by one or more characters other than a dot and a
    slash, the new name is what stands before that dot followed by [.jpg],
    or the whole name followed by [.jpg] when nothing stands before it.
    When the name has no such ending, the new name is the whole name
    followed by [.jpg].  In every case the new name is a prefix of the
    file's name followed by [.jpg], and the prefix is empty only for a file
    without a name. *)
Theorem compressed_name_has_stem
    (fileName : string) (st : LoopState) (artifact : OptimizedImageAttachment) :
  finish fileName st = inr artifact ->
  out_type artifact = "image/jpeg"%string
  /\ (forall stem ext,
        fileName = (stem ++ "." ++ ext)%string ->
        ext <> ""%string ->
        everyChar extensionChar ext = true ->
        out_name artifact
        = ((if (stem =? "")%string then fileName else stem) ++ ".jpg")%string)
  /\ ((forall stem ext,
         fileName = (stem ++ "." ++ ext)%string ->
         ext = ""%string \/ everyChar extensionChar ext = false) ->
      out_name artifact = (fileName ++ ".jpg")%string)
  /\ exists stem ext,
       out_name artifact = (stem ++ ".jpg")%string
       /\ fileName = (stem ++ ext)%string
       /\ (fileName <> ""%string -> stem <> ""%string).
Proof.
  unfold finish. destruct (MAX_BASE64_ATTACHMENT_BYTES <? size st); [discriminate|].
  intros [= <-]. cbn [out_type out_name]. split; [reflexivity|].
  split.
  { intros stem ext -> N E.
    change (stem ++ "." ++ ext)%string with (stem ++ String "." ext)%string.
    rewrite (stripExtension_last stem ext N E).
    destruct (stem =? "")%string; reflexivity. }
  split.
  { intros H.
    destruct (stripExtension_cases fileName) as [-> | (stem & ext & F & N & E)].
    - destruct (fileName =? "")%string; reflexivity.
    - exfalso. destruct (H stem ext F) as [Z0 | Z0].
      + contradiction.
      + rewrite Z0 in E. discriminate E. }
  destruct (stripExtension fileName =? "")%string eqn:E.
  - exists fileName, ""%string. rewrite append_nil_r. repeat split. auto.
  - destruct (stripExtension_prefix fileName) as [ext P].
    exists (stripExtension fileName), ext. repeat split; [exact P|].
    intros _ H. rewrite H in E. discriminate E.
Qed.

Lemma qmin_le_r (a b : Q) : (qmin a b <= b)%Q.
Proof.
  unfold qmin. destruct (Qle_bool a b) eqn:E;
    [apply Qle_bool_iff, E | apply Qle_refl].
Qed.

Lemma edge_ratio_positive (longest : positive) :
  (0 < inject_Z MAX_ATTACHMENT_EDGE / inject_Z (Z.pos longest))%Q.
Proof. unfold Qlt, Qdiv, Qmult, Qinv, inject_Z, MAX_ATTACHMENT_EDGE. cbn. lia. Qed.

(** The product of an edge with the first scale, as the multiplication
    rounds it, is less than 1600.5. *)
Lemma scaled_within_edge (original longest : positive) :
  (original <= longest)%positive ->
  (double (inject_Z (Z.pos original)
           * qmin 1 (double (inject_Z MAX_ATTACHMENT_EDGE / inject_Z (Z.pos longest))))
   <= inject_Z MAX_ATTACHMENT_EDGE + (1 # 4))%Q.
Proof.
  intros H.
  pose proof (edge_ratio_positive longest) as R.
  destruct (double_error _ R) as [_ U].
  pose proof (double_positive _ R) as D.
  set (r := (inject_Z MAX_ATTACHMENT_EDGE / inject_Z (Z.pos longest))%Q) in *.
  set (d := double r) in *.
  assert (X : (0 < inject_Z (Z.pos original))%Q) by reflexivity.
  assert (L : (inject_Z (Z.pos original) <= inject_Z (Z.pos longest))%Q)
    by (rewrite <- Zle_Qle; lia).
  assert (P : (0 <= inject_Z (Z.pos original) * qmin 1 d)%Q).
  { apply Qmult_le_0_compat; [apply Qlt_le_weak, X|].
    unfold qmin. destruct (Qle_bool 1 d); [discriminate | apply Qlt_le_weak, D]. }
  assert (B : (inject_Z (Z.pos original) * qmin 1 d
               <= inject_Z MAX_ATTACHMENT_EDGE
                  + inject_Z MAX_ATTACHMENT_EDGE * pow2 (-53))%Q).
  { apply Qle_trans with (inject_Z (Z.pos original) * d)%Q;
      [apply Qmult_le_l; [exact X | apply qmin_le_r]|].
    apply Qle_trans with (inject_Z (Z.pos longest) * d)%Q;
      [apply Qmult_le_r; assumption|].
    apply Qle_trans with (inject_Z (Z.pos longest) * (r + r * pow2 (-53)))%Q;
      [apply Qmult_le_l; [reflexivity | exact U]|].
    assert (E : (inject_Z (Z.pos longest) * r == inject_Z MAX_ATTACHMENT_EDGE)%Q).
    { unfold r. field. unfold Qeq. cbn. lia. }
    setoid_replace (inject_Z (Z.pos longest) * (r + r * pow2 (-53)))%Q
      with (inject_Z (Z.pos longest) * r
            + inject_Z (Z.pos longest) * r * pow2 (-53))%Q by ring.
    rewrite E. apply Qle_refl. }
  apply Qle_trans with (1 := double_le _ _ P B).
  vm_compute. discriminate.
Qed.

Lemma initialScale_positive (w h : Z) :
  0 < Z.max w h ->
  initialScale w h
  = qmin 1 (double (inject_Z MAX_ATTACHMENT_EDGE / inject_Z (Z.max w h))).
Proof.
  intros H. unfold initialScale, longestEdge.
  destruct (Qle_bool (qmin 1 (double (inject_Z MAX_ATTACHMENT_EDGE
                                        / inject_Z (Z.max w h)))) 0)
    eqn:E; [|reflexivity].
  exfalso. apply Qle_bool_iff in E. revert E. unfold qmin.
  destruct (Qle_bool 1 (double (inject_Z MAX_ATTACHMENT_EDGE / inject_Z (Z.max w h)))).
  - unfold Qle. cbn. lia.
  - destruct (Z.max w h) as [|p|p]; try lia.
    intros E. pose proof (double_positive _ (edge_ratio_positive p)) as D.
    apply (Qlt_irrefl 0%Q). apply Qlt_le_trans with (1 := D). exact E.
Qed.

Lemma scaledEdge_bound (original : positive) (scale : Q) :
  (double (inject_Z (Z.pos original) * scale)
   <= inject_Z MAX_ATTACHMENT_EDGE + (1 # 4))%Q ->
  1 <= scaledEdge (Z.pos original) scale <= MAX_ATTACHMENT_EDGE.
Proof.
  intros H. unfold scaledEdge, roundHalfUp. split; [apply Z.le_max_r|].
  apply Z.max_lub; [|unfold MAX_ATTACHMENT_EDGE; lia].
  change MAX_ATTACHMENT_EDGE
    with (Qfloor (inject_Z MAX_ATTACHMENT_EDGE + (1 # 4) + (1 # 2))).
  apply Qfloor_resp_le. apply Qplus_le_l. exact H.
Qed.

Lemma roundHalfUp_Z (z : Z) : roundHalfUp (inject_Z z) = z.
Proof.
  unfold roundHalfUp, Qfloor, Qplus, inject_Z. cbn [Qnum Qden].
  change (Z.pos (1 * 2)) with 2.
  replace (z * 2 + 1 * 1) with (1 + z * 2) by lia.
  rewrite Z.div_add by lia. reflexivity.
Qed.

(** X24.  The first rendering never exceeds the longest edge allowed: for
    an image with positive dimensions, the canvas is between 1 and 1600
    pixels on both edges, and an image that already fits in 1600 by 1600 is
    drawn at its own size. *)
Theorem first_render_fits_edge
    (originalWidth originalHeight : Z) (render : Z -> Z -> Q -> string) :
  0 < originalWidth ->
  0 < originalHeight ->
  let st := initialState originalWidth originalHeight render in
  1 <= width st <= MAX_ATTACHMENT_EDGE
  /\ 1 <= height st <= MAX_ATTACHMENT_EDGE
  /\ (Z.max originalWidth originalHeight <= MAX_ATTACHMENT_EDGE ->
      width st = originalWidth /\ height st = originalHeight).
Proof.
  intros Hw Hh. cbn zeta. cbn [initialState width height].
  assert (M : 0 < Z.max originalWidth originalHeight) by lia.
  rewrite (initialScale_positive _ _ M).
  destruct originalWidth as [|w|w]; try lia.
  destruct originalHeight as [|h|h]; try lia.
  destruct (Z.max (Z.pos w) (Z.pos h)) as [|m|m] eqn:E; try lia.
  split; [apply scaledEdge_bound, scaled_within_edge; lia|].
  split; [apply scaledEdge_bound, scaled_within_edge; lia|].
  intros B.
  assert (S1 : qmin 1 (double (inject_Z MAX_ATTACHMENT_EDGE / inject_Z (Z.pos m)))
               = 1%Q).
  { unfold qmin.
    assert (L : (1 <= double (inject_Z MAX_ATTACHMENT_EDGE / inject_Z (Z.pos m)))%Q).
    { apply Qle_trans with (double 1); [vm_compute; discriminate|].
      apply double_le; [discriminate|].
      unfold Qle, Qdiv, Qmult, Qinv, inject_Z, MAX_ATTACHMENT_EDGE in *. cbn. lia. }
    apply Qle_bool_iff in L. rewrite L. reflexivity. }
  rewrite S1.
  assert (R : forall p, Z.pos p <= MAX_ATTACHMENT_EDGE -> scaledEdge (Z.pos p) 1 = Z.pos p).
  { intros p Hp. unfold scaledEdge.
    assert (D : (double (inject_Z (Z.pos p) * 1) == inject_Z (Z.pos p))%Q).
    { rewrite (double_comp_eq _ (inject_Z (Z.pos p))) by ring.
      apply double_Z. unfold MAX_ATTACHMENT_EDGE in Hp. split; [lia|].
      apply Z.le_lt_trans with 1600; [exact Hp | reflexivity]. }
    unfold roundHalfUp at 1.
    assert (D' : (double (inject_Z (Z.pos p) * 1) + (1 # 2)
                  == inject_Z (Z.pos p) + (1 # 2))%Q) by (rewrite D; reflexivity).
    rewrite (Qfloor_comp _ _ D').
    fold (roundHalfUp (inject_Z (Z.pos p))). rewrite roundHalfUp_Z. lia. }
  rewrite !R by lia. split; reflexivity.
Qed.

End CompressedArtifact.

Lemma compressed_name_has_stem_witness :
  finish "holiday.photo.png"
    (initialState 800 600 smallRender)
  = inr {| out_dataUrl := "data:image/jpeg;base64,QUJD";
           out_size := 3;
           out_type := "image/jpeg";
           out_name := "holiday.photo.jpg" |}
  /\ "holiday.photo.png" = "holiday.photo" ++ "." ++ "png"
  /\ "png" <> ""
  /\ everyChar extensionChar "png" = true
  /\ out_name {| out_dataUrl := "data:image/jpeg;base64,QUJD";
                 out_size := 3;
                 out_type := "image/jpeg";
                 out_name := "holiday.photo.jpg" |}
     = "holiday.photo" ++ ".jpg".
Proof.
  split; [lazy; reflexivity|]. split; [reflexivity|].
  split; [discriminate|]. split; [reflexivity|].
  exact (proj1 (proj2 (compressed_name_has_stem "holiday.photo.png"
                         (initialState 800 600 smallRender) _ eq_refl))
           "holiday.photo" "png" eq_refl
           (fun H : "png" = "" =>
              eq_ind "png"
                (fun s => match s with String _ _ => True | EmptyString => False end)
                I _ H)
           eq_refl).
Defined.

Lemma first_render_fits_edge_witness :
  width (initialState 4000 3000 smallRender) = 1600%Z
  /\ height (initialState 4000 3000 smallRender) = 1200%Z
  /\ (1 <= width (initialState 4000 3000 smallRender) <= MAX_ATTACHMENT_EDGE)%Z.
Proof.
  split; [vm_compute; reflexivity|]. split; [vm_compute; reflexivity|].
  exact (proj1 (first_render_fits_edge 4000 3000 smallRender eq_refl eq_refl)).
Defined.

(** ** [prepareImageAttachment] *)

Section PrepareClaims.

Local Open Scope Z_scope.

Lemma unmodified_within_budget (file : File) (dataUrl : string) :
  estimateBase64Size dataUrl <= MAX_BASE64_ATTACHMENT_BYTES ->
  withinBudget (unmodified file dataUrl).
Proof. intros H. split; [reflexivity | exact H]. Qed.

Lemma fallback_within_budget (file : File) (catchRead : ReadResult)
    (artifact : OptimizedImageAttachment) :
  fallback file catchRead = inr artifact -> withinBudget artifact.
Proof.
  unfold fallback. destruct catchRead as [dataUrl | message]; [|discriminate].
  destruct (MAX_BASE64_ATTACHMENT_BYTES <? estimateBase64Size dataUrl) eqn:L;
    [discriminate|].
  intros [= <-]. apply unmodified_within_budget, Z.ltb_ge, L.
Qed.

Lemma compressFile_within_budget
    (loaded : option (Z * Z)) (hasContext : bool)
    (render : Z -> Z -> Q -> string) (fuel : nat) (file : File)
    (artifact : OptimizedImageAttachment) :
  compressFile loaded hasContext render fuel file = Some (inr artifact) ->
  withinBudget artifact.
Proof.
  unfold compressFile. destruct loaded as [[w h]|]; [|discriminate].
  destruct (negb hasContext); [discriminate|].
  destruct ((w =? 0) || (h =? 0))%bool; [discriminate|].
  unfold compressImageFile.
  destruct (whileLoop w h render fuel (initialState w h render)) as [final|] eqn:W;
    [|discriminate].
  cbn [option_map]. intros [= F].
  pose proof (compression_outcome w h render fuel (file_name file) final W) as O.
  rewrite F in O. destruct O as (B & E & _). split; assumption.
Qed.

(** X25.  Every attachment [prepareImageAttachment] returns is within the
    ceiling, and its size is the estimate of the data URL it carries,
    whichever path produced it: the fast path, the compression, or the
    unmodified file after a failed compression. *)
Theorem prepared_attachment_is_within_budget
    (file : File) (tryRead catchRead : ReadResult)
    (loaded : option (Z * Z)) (hasContext : bool)
    (render : Z -> Z -> Q -> string) (fuel : nat)
    (artifact : OptimizedImageAttachment) :
  prepareImageAttachment file tryRead catchRead
    (compressFile loaded hasContext render fuel file)
  = Some (inr artifact) ->
  withinBudget artifact.
Proof.
  unfold prepareImageAttachment.
  set (compressed := compressFile loaded hasContext render fuel file).
  assert (C : match compressed with
              | None => None
              | Some (inr a) => Some (inr a)
              | Some (inl _) => Some (fallback file catchRead)
              end = Some (inr artifact) -> withinBudget artifact).
  { destruct compressed as [[message | a]|] eqn:E; try discriminate.
    - intros [= F]. apply (fallback_within_budget _ _ _ F).
    - intros [= <-]. apply (compressFile_within_budget _ _ _ _ _ _ E). }
  destruct (negb (file_type file =? "image/jpeg")%string
            || (COMPRESS_THRESHOLD_BYTES <? file_size file))%bool; [exact C|].
  destruct tryRead as [dataUrl | message].
  - destruct (estimateBase64Size dataUrl <=? MAX_BASE64_ATTACHMENT_BYTES) eqn:L;
      [|exact C].
    intros [= <-]. apply unmodified_within_budget, Z.leb_le, L.
  - intros [= F]. apply (fallback_within_budget _ _ _ F).
Qed.

(** X26.  A JPEG file of at most 900 KB whose data URL is within the
    ceiling is returned as read, with its own name and type: the image is
    not decoded, no compression runs and no second read is made. *)
Theorem small_jpeg_is_untouched
    (file : File) (dataUrl : string) (catchRead : ReadResult)
    (compressed : option (string + OptimizedImageAttachment)) :
  file_type file = "image/jpeg"%string ->
  file_size file <= COMPRESS_THRESHOLD_BYTES ->
  estimateBase64Size dataUrl <= MAX_BASE64_ATTACHMENT_BYTES ->
  prepareImageAttachment file (ReadOk dataUrl) catchRead compressed
  = Some (inr {| out_dataUrl := dataUrl;
                 out_size := estimateBase64Size dataUrl;
                 out_type := file_type file;
                 out_name := file_name file |}).
Proof.
  intros Ht Hs He. unfold prepareImageAttachment, unmodified.
  rewrite Ht. cbn [String.eqb Ascii.eqb Bool.eqb negb orb].
  apply Z.ltb_ge in Hs. rewrite Hs.
  apply Z.leb_le in He. rewrite He. reflexivity.
Qed.

(** X27.  The error of a failed compression never reaches the caller: it is
    always replaced by what the unmodified file gives.  An error of
    [prepareImageAttachment] is either the second read's own failure or the
    message that names the file as too large, raised when the unmodified
    data URL is above the ceiling; and a returned attachment is either the
    compressed artifact or the unmodified file. *)
Theorem prepare_outcomes
    (file : File) (tryRead catchRead : ReadResult)
    (compressed : option (string + OptimizedImageAttachment)) :
  match prepareImageAttachment file tryRead catchRead compressed with
  | Some (inl message) =>
      catchRead = ReadFailed message
      \/ (message = tooLarge (file_name file)
          /\ exists dataUrl,
               catchRead = ReadOk dataUrl
               /\ MAX_BASE64_ATTACHMENT_BYTES < estimateBase64Size dataUrl)
  | Some (inr artifact) =>
      compressed = Some (inr artifact)
      \/ exists dataUrl,
           artifact = unmodified file dataUrl
           /\ (tryRead = ReadOk dataUrl \/ catchRead = ReadOk dataUrl)
  | None => compressed = None
  end.
Proof.
  assert (F : match fallback file catchRead with
              | inl message =>
                  catchRead = ReadFailed message
                  \/ (message = tooLarge (file_name file)
                      /\ exists dataUrl,
                           catchRead = ReadOk dataUrl
                           /\ MAX_BASE64_ATTACHMENT_BYTES < estimateBase64Size dataUrl)
              | inr artifact =>
                  exists dataUrl,
                    artifact = unmodified file dataUrl /\ catchRead = ReadOk dataUrl
              end).
  { unfold fallback. destruct catchRead as [dataUrl | message].
    - destruct (MAX_BASE64_ATTACHMENT_BYTES <? estimateBase64Size dataUrl) eqn:L.
      + right. split; [reflexivity|]. exists dataUrl.
        split; [reflexivity | apply Z.ltb_lt, L].
      + exists dataUrl. split; reflexivity.
    - left. reflexivity. }
  assert (G : match fallback file catchRead with
              | inl message =>
                  catchRead = ReadFailed message
                  \/ (message = tooLarge (file_name file)
                      /\ exists dataUrl,
                           catchRead = ReadOk dataUrl
                           /\ MAX_BASE64_ATTACHMENT_BYTES < estimateBase64Size dataUrl)
              | inr artifact =>
                  compressed = Some (inr artifact)
                  \/ exists dataUrl,
                       artifact = unmodified file dataUrl
                       /\ (tryRead = ReadOk dataUrl \/ catchRead = ReadOk dataUrl)
              end).
  { destruct (fallback file catchRead) as [message | artifact]; [exact F|].
    destruct F as (dataUrl & E1 & E2). right. exists dataUrl. auto. }
  unfold prepareImageAttachment.
  assert (C : match match compressed with
                    | None => None
                    | Some (inr a) => Some (inr a)
                    | Some (inl _) => Some (fallback file catchRead)
                    end
              with
              | Some (inl message) =>
                  catchRead = ReadFailed message
                  \/ (message = tooLarge (file_name file)
                      /\ exists dataUrl,
                           catchRead = ReadOk dataUrl
                           /\ MAX_BASE64_ATTACHMENT_BYTES < estimateBase64Size dataUrl)
              | Some (inr artifact) =>
                  compressed = Some (inr artifact)
                  \/ exists dataUrl,
                       artifact = unmodified file dataUrl
                       /\ (tryRead = ReadOk dataUrl \/ catchRead = ReadOk dataUrl)
              | None => compressed = None
              end).
  { destruct compressed as [[message | a]|]; [exact G | left; reflexivity | reflexivity]. }
  destruct (negb (file_type file =? "image/jpeg")%string
            || (COMPRESS_THRESHOLD_BYTES <? file_size file))%bool; [exact C|].
  destruct tryRead as [dataUrl | message]; [|exact G].
  destruct (estimateBase64Size dataUrl <=? MAX_BASE64_ATTACHMENT_BYTES); [|exact C].
  right. exists dataUrl. split; [reflexivity | left; reflexivity].
Qed.

End PrepareClaims.

Lemma prepared_attachment_is_within_budget_witness :
  prepareImageAttachment photo (ReadFailed "unused") (ReadFailed "unused")
    (compressFile (Some (800, 600)%Z) true smallRender 0 photo)
  = Some (inr {| out_dataUrl := "data:image/jpeg;base64,QUJD";
                 out_size := 3;
                 out_type := "image/jpeg";
                 out_name := "holiday.photo.jpg" |})
  /\ withinBudget {| out_dataUrl := "data:image/jpeg;base64,QUJD";
                     out_size := 3;
                     out_type := "image/jpeg";
                     out_name := "holiday.photo.jpg" |}.
Proof.
  split; [reflexivity|].
  exact (prepared_attachment_is_within_budget photo (ReadFailed "unused")
           (ReadFailed "unused") (Some (800, 600)%Z) true smallRender 0 _ eq_refl).
Defined.

Lemma small_jpeg_is_untouched_witness :
  prepareImageAttachment smallJpeg (ReadOk "data:image/jpeg;base64,QUJD")
    (ReadFailed "unused") None
  = Some (inr {| out_dataUrl := "data:image/jpeg;base64,QUJD";
                 out_size := 3;
                 out_type := "image/jpeg";
                 out_name := "small.jpg" |}).
Proof.
  exact (small_jpeg_is_untouched smallJpeg "data:image/jpeg;base64,QUJD"
           (ReadFailed "unused") None eq_refl
           (fun H : (400000 ?= 921600)%Z = Gt =>
              eq_ind Lt (fun c => match c with Gt => False | _ => True end) I _ H)
           (fun H : (3 ?= 1572864)%Z = Gt =>
              eq_ind Lt (fun c => match c with Gt => False | _ => True end) I _ H)).
Defined.

(** ** The read loop of [sendMessage] *)

Section ResponseLoop.

Variable JSON_parse : string -> option JValue.
Variable clock : nat -> Z.

Local Abbreviation segmentEvents := (segmentEvents JSON_parse).
Local Abbreviation extractEventsFromBuffer := (extractEventsFromBuffer JSON_parse).
Local Abbreviation feed := (feed JSON_parse).
Local Abbreviation forEvents := (forEvents clock).
Local Abbreviation readLoop := (readLoop JSON_parse clock).
Local Abbreviation doneIsLast := (doneIsLast JSON_parse).
Local Abbreviation respond := (respond JSON_parse clock).

Lemma append_eq_nil (a b : string) : a ++ b = "" -> a = "" /\ b = "".
Proof. destruct a; [intros H; split; [reflexivity | exact H] | discriminate]. Qed.

Lemma join_app (a b : list string) : join (a ++ b) = join a ++ join b.
Proof.
  induction a as [|x a IH]; [reflexivity|].
  cbn [app]. rewrite !join_cons, IH, append_assoc. reflexivity.
Qed.

Lemma eventContent_delta (c r : option string) :
  eventContent (Delta c r) = match c with Some x => x | None => "" end.
Proof. destruct c; reflexivity. Qed.

Lemma eventReasoning_delta (c r : option string) :
  eventReasoning (Delta c r) = match r with Some x => x | None => "" end.
Proof. destruct c, r; reflexivity. Qed.

Lemma deltas_only (evs : list StreamEvent) :
  forallb isDelta evs = true ->
  existsb isError evs = false /\ existsb isDone evs = false.
Proof.
  induction evs as [|e evs IH]; intros H; [split; reflexivity|].
  cbn [forallb] in H. apply andb_prop in H. destruct H as [He Hs].
  destruct e; try discriminate He. cbn [existsb isError isDone orb]. apply IH, Hs.
Qed.

(** The events of one call without an [error] event: the deltas are applied
    in order, and the buffer is emptied when a [done] event is among them. *)
Lemma forEvents_deltas (evs : list StreamEvent) :
  forall buffer applied,
    existsb isError evs = false ->
    exists folds,
      forEvents evs buffer applied
      = inr (if existsb isDone evs then "" else buffer, (applied ++ folds)%list)
      /\ forallb isDeltaFold folds = true
      /\ join (map addedContent folds) = join (map eventContent evs)
      /\ join (map addedReasoning folds) = join (map eventReasoning evs).
Proof.
  induction evs as [|e evs IH]; intros buffer applied H.
  - exists []. rewrite app_nil_r. repeat split.
  - destruct e as [c r | | m]; cbn [existsb isError orb] in H.
    + cbn [ReadLoop.forEvents existsb isDone orb].
      destruct (negb (hasText c) && negb (hasText r))%bool eqn:G.
      * destruct (IH buffer applied H) as (folds & E & D & C & R).
        exists folds. split; [exact E|]. split; [exact D|].
        apply andb_prop in G. destruct G as [Gc Gr].
        apply negb_true_iff in Gc, Gr.
        cbn [map]. rewrite !join_cons, eventContent_delta, eventReasoning_delta.
        rewrite (noText_empty _ Gc), (noText_empty _ Gr). cbn [append].
        split; assumption.
      * destruct (IH buffer
                    (applied ++ [FoldDelta (clock (List.length applied)) c r])%list H)
          as (folds & E & D & C & R).
        exists (FoldDelta (clock (List.length applied)) c r :: folds).
        rewrite E, <- app_assoc. cbn [app]. split; [reflexivity|].
        split; [exact D|].
        cbn [map]. rewrite !join_cons, C, R, eventContent_delta, eventReasoning_delta.
        split; destruct c, r; reflexivity.
    + cbn [ReadLoop.forEvents existsb isDone orb].
      destruct (IH "" applied H) as (folds & E & D & C & R).
      exists folds. rewrite E. split.
      { destruct (existsb isDone evs); reflexivity. }
      split; [exact D|].
      cbn [map]. rewrite !join_cons. cbn [eventContent eventReasoning append].
      split; assumption.
    + discriminate H.
Qed.

(** The events of one call, whatever they are: the loop throws the parse
    failure, or it ends after some updates. *)
Lemma forEvents_outcome (evs : list StreamEvent) :
  forall buffer applied,
    Forall wellFormed evs ->
    (existsb isError evs = true
     /\ exists folds,
          forEvents evs buffer applied
          = inl (applied ++ folds ++ [FoldFailure parseFailure])%list)
    \/ (existsb isError evs = false
        /\ exists buffer' folds,
             forEvents evs buffer applied = inr (buffer', (applied ++ folds)%list)).
Proof.
  induction evs as [|e evs IH]; intros buffer applied W.
  - right. split; [reflexivity|]. exists buffer, []. rewrite app_nil_r. reflexivity.
  - inversion W as [|? ? We Ws]; subst.
    destruct e as [c r | | m]; cbn [ReadLoop.forEvents existsb isError orb].
    + destruct (negb (hasText c) && negb (hasText r))%bool.
      * apply IH, Ws.
      * destruct (IH buffer
                    (applied ++ [FoldDelta (clock (List.length applied)) c r])%list Ws)
          as [(X & folds & E) | (X & b & folds & E)].
        -- left. split; [exact X|].
           exists (FoldDelta (clock (List.length applied)) c r :: folds).
           rewrite E, <- app_assoc. reflexivity.
        -- right. split; [exact X|].
           exists b, (FoldDelta (clock (List.length applied)) c r :: folds).
           rewrite E, <- app_assoc. reflexivity.
    + apply IH, Ws.
    + left. split; [reflexivity|]. exists []. cbn [wellFormed] in We. subst m.
      reflexivity.
Qed.

Lemma decode_nil :
  extractEventsFromBuffer "" = {| events := []; remainder := "" |}.
Proof. apply decode_without_delimiter. reflexivity. Qed.

(** Once the buffer is empty, empty chunks change nothing. *)
Lemma readLoop_quiet (chunks : list string) :
  forall applied,
    join chunks = "" ->
    readLoop chunks Closed "" applied
    = (applied ++ [FoldStreamEnd (clock (List.length applied))])%list.
Proof.
  induction chunks as [|chunk rest IH]; intros applied H; [reflexivity|].
  rewrite join_cons in H. apply append_eq_nil in H. destruct H as [-> H].
  cbn [ReadLoop.readLoop append]. rewrite decode_nil. cbn [events remainder].
  cbn [ReadLoop.forEvents]. apply IH, H.
Qed.

Lemma feed_quiet (chunks : list string) :
  forall buffer,
    hasDelimiter buffer = false ->
    join chunks = "" ->
    fst (feed buffer chunks) = [].
Proof.
  induction chunks as [|chunk rest IH]; intros buffer B H; [reflexivity|].
  rewrite join_cons in H. apply append_eq_nil in H. destruct H as [-> H].
  cbn [Streaming.feed]. rewrite append_nil_r.
  rewrite (decode_without_delimiter JSON_parse buffer B). cbn [events remainder].
  pose proof (IH buffer B H) as E.
  destruct (feed buffer rest) as [evs final]. cbn [fst] in *. subst evs.
  reflexivity.
Qed.

Lemma remainder_no_delimiter (buffer : string) :
  hasDelimiter (remainder (extractEventsFromBuffer buffer)) = false.
Proof.
  rewrite remainder_scan.
  destruct (endsWith delimiter buffer); [reflexivity|].
  apply open_has_no_delimiter.
Qed.

(** The read loop on a stream without [error] events in which nothing
    follows a [done] event: the updates are the deltas the decoder finds,
    then the end of the stream. *)
Lemma readLoop_folds (chunks : list string) :
  forall buffer applied,
    existsb isError (fst (feed buffer chunks)) = false ->
    doneIsLast buffer chunks ->
    exists folds,
      readLoop chunks Closed buffer applied
      = (applied ++ folds
           ++ [FoldStreamEnd (clock (List.length (applied ++ folds)))])%list
      /\ forallb isDeltaFold folds = true
      /\ join (map addedContent folds)
         = join (map eventContent (fst (feed buffer chunks)))
      /\ join (map addedReasoning folds)
         = join (map eventReasoning (fst (feed buffer chunks))).
Proof.
  induction chunks as [|chunk rest IH]; intros buffer applied H L.
  - exists []. cbn [ReadLoop.readLoop app]. rewrite app_nil_r. repeat split.
  - cbn [ReadLoop.readLoop]. cbn [ReadLoop.doneIsLast] in L. destruct L as [L1 L2].
    cbn [Streaming.feed] in H |- *.
    pose proof (IH (remainder (extractEventsFromBuffer (buffer ++ chunk)))) as IH'.
    pose proof (feed_quiet rest _ (remainder_no_delimiter (buffer ++ chunk))) as Q.
    destruct (feed (remainder (extractEventsFromBuffer (buffer ++ chunk))) rest)
      as [evs final].
    cbn [fst] in *. rewrite existsb_app in H. apply orb_false_iff in H.
    destruct H as [H1 H2].
    destruct (forEvents_deltas (events (extractEventsFromBuffer (buffer ++ chunk)))
                (remainder (extractEventsFromBuffer (buffer ++ chunk))) applied H1)
      as (folds1 & E & D1 & C1 & R1).
    rewrite E.
    destruct (existsb isDone (events (extractEventsFromBuffer (buffer ++ chunk))))
      eqn:Dn.
    + specialize (L1 eq_refl). rewrite (readLoop_quiet rest _ L1).
      rewrite (Q L1). exists folds1. rewrite app_nil_r, <- app_assoc.
      repeat split; assumption.
    + destruct (IH' (applied ++ folds1)%list H2 L2) as (folds2 & E2 & D2 & C2 & R2).
      exists (folds1 ++ folds2)%list. rewrite E2.
      rewrite !map_app, !join_app, forallb_app, D1, D2, C1, C2, R1, R2.
      rewrite <- !app_assoc. rewrite (app_assoc applied folds1 folds2).
      repeat split.
Qed.

Lemma doneIsLast_without_done (chunks : list string) :
  forall buffer,
    existsb isDone (fst (feed buffer chunks)) = false ->
    doneIsLast buffer chunks.
Proof.
  induction chunks as [|chunk rest IH]; intros buffer H; [exact I|].
  cbn [ReadLoop.doneIsLast]. cbn [Streaming.feed] in H.
  pose proof (IH (remainder (extractEventsFromBuffer (buffer ++ chunk)))) as IH'.
  destruct (feed (remainder (extractEventsFromBuffer (buffer ++ chunk))) rest)
    as [evs final].
  cbn [fst] in *. rewrite existsb_app in H. apply orb_false_iff in H.
  destruct H as [H1 H2]. split.
  - intros X. rewrite X in H1. discriminate H1.
  - apply IH', H2.
Qed.

(** When the last closed segment of the stream is the only one that gives a
    [done] event and nothing follows it, the call that emits the event
    receives the end of the stream. *)
Lemma doneIsLast_scan (chunks : list string) :
  forall received buffer segs final,
    upToNewline (snd (scan received)) buffer ->
    fst (scan (received ++ join chunks)) = (segs ++ [final])%list ->
    existsb isDone (flat_map segmentEvents segs) = false ->
    snd (scan (received ++ join chunks)) = "" ->
    doneIsLast buffer chunks.
Proof.
  induction chunks as [|chunk rest IH]; intros received buffer segs final R F N T;
    [exact I|].
  rewrite join_cons, <- append_assoc in F, T.
  destruct (decode_step JSON_parse _ _ chunk R) as [He Ht].
  cbn [ReadLoop.doneIsLast]. split.
  - intros X. rewrite <- He in X.
    rewrite scan_append in F, T. cbn [fst snd] in F, T.
    destruct (fst (scan (snd (scan (received ++ chunk)) ++ join rest)))
      as [|y ys] eqn:Z.
    + apply scan_open_all in Z. rewrite T in Z. symmetry in Z.
      apply append_eq_nil in Z. apply Z.
    + exfalso.
      destruct (@exists_last _ (y :: ys)) as (front & x & Zx); [discriminate|].
      rewrite Zx, app_assoc in F. apply app_inj_tail in F.
      destruct F as [F _]. rewrite <- F in N.
      rewrite scan_append in N. cbn [fst] in N.
      rewrite !flat_map_app, !existsb_app, X in N.
      rewrite orb_true_r in N. discriminate N.
  - apply (IH (received ++ chunk) _ segs final); try assumption.
    rewrite scan_append. cbn [snd]. exact Ht.
Qed.

Lemma feed_events_whole (chunks : list string) :
  fst (feed "" chunks) = flat_map segmentEvents (fst (scan (join chunks))).
Proof.
  destruct (feed_scan JSON_parse chunks "" "" (upToNewline_refl _)) as [He _].
  cbn [append scan fst flat_map app] in He. symmetry. exact He.
Qed.

(** The closed segments of a finished stream. *)
Lemma finished_scan (body : string) :
  body = "" \/ endsWith delimiter body = true ->
  exists final,
    scan (body ++ doneFrame) = ((fst (scan body) ++ [final])%list, "")
    /\ segmentEvents final = [Done].
Proof.
  intros B. rewrite scan_append.
  assert (O : snd (scan body) = "" \/ snd (scan body) = newline).
  { destruct B as [-> | B]; [left; reflexivity | apply terminated_open, B]. }
  destruct O as [-> | ->].
  - exists "data: [DONE]". split; reflexivity.
  - exists (newline ++ "data: [DONE]"). split; reflexivity.
Qed.

Lemma delta_keeps_reasoning (message : ChatMessage) (f : Fold) :
  isDeltaFold f = true ->
  reasoning message <> None ->
  reasoning (foldInto message f) <> None.
Proof.
  destruct f as [now c r | now | fallback]; intros D H; try discriminate D.
  cbn [foldInto].
  destruct (negb (hasText c) && negb (hasText r))%bool; [exact H|].
  unfold applyDelta. destruct (hasText r); [discriminate|].
  destruct (hasText c && truthy (isReasoningStreaming message))%bool; exact H.
Qed.

Lemma deltas_keep_reasoning (fs : list Fold) :
  forall message,
    forallb isDeltaFold fs = true ->
    reasoning message <> None ->
    reasoning (foldAll message fs) = Some (reasoningText (foldAll message fs)).
Proof.
  induction fs as [|f fs IH]; intros message D H.
  - cbn [foldAll fold_left]. unfold reasoningText.
    destruct (reasoning message); [reflexivity | contradiction].
  - cbn [forallb] in D. apply andb_prop in D. destruct D as [Df Dfs].
    change (foldAll message (f :: fs)) with (foldAll (foldInto message f) fs).
    apply IH; [exact Dfs | apply delta_keeps_reasoning; assumption].
Qed.

(** The placeholder after a stream that the reader closes. *)
Lemma respond_text (newId : string) (chunks : list string) :
  existsb isError (fst (feed "" chunks)) = false ->
  doneIsLast "" chunks ->
  content (respond newId chunks Closed)
  = trimEnd (join (map eventContent (fst (feed "" chunks))))
  /\ reasoning (respond newId chunks Closed)
     = cleaned (join (map eventReasoning (fst (feed "" chunks)))).
Proof.
  intros H L.
  destruct (readLoop_folds chunks "" [] H L) as (folds & E & D & C & R).
  unfold ReadLoop.respond. rewrite E. cbn [app].
  unfold foldAll. rewrite fold_left_app. cbn [fold_left foldInto].
  fold (foldAll (createPlaceholderMessage newId) folds).
  destruct (foldAll_text folds (createPlaceholderMessage newId) D) as [Tc Tr].
  change (content (createPlaceholderMessage newId)) with "" in Tc.
  change (reasoningText (createPlaceholderMessage newId)) with "" in Tr.
  cbn [append] in Tc, Tr.
  assert (S : reasoning (foldAll (createPlaceholderMessage newId) folds)
              = Some (join (map addedReasoning folds))).
  { rewrite <- Tr. apply deltas_keep_reasoning; [exact D | discriminate]. }
  unfold finalizeDone, formatAssistantMessage. cbn [content reasoning].
  rewrite Tc, S, C, R. cbn [option_map]. split; reflexivity.
Qed.

(** X28.  A response of [delta] frames is shown the same however the network
    cuts it into chunks, with or without the closing [[DONE]] frame: when the
    reader closes, the content is the concatenation of the content texts of
    the frames, in order, without its trailing white space, and the reasoning
    is the trimmed concatenation of their reasoning texts, or absent when
    that is empty.  Text after the last delimiter is never shown. *)
Theorem answer_does_not_depend_on_chunking
    (newId : string) (chunks : list string) (body : string) :
  join chunks = body
  \/ (join chunks = body ++ doneFrame
      /\ (body = "" \/ endsWith delimiter body = true)) ->
  forallb isDelta (events (extractEventsFromBuffer body)) = true ->
  content (respond newId chunks Closed)
  = trimEnd (join (map eventContent (events (extractEventsFromBuffer body))))
  /\ reasoning (respond newId chunks Closed)
     = cleaned (join (map eventReasoning (events (extractEventsFromBuffer body)))).
Proof.
  intros S D. rewrite events_scan in D |- *.
  destruct (deltas_only _ D) as [NoError NoDone].
  destruct S as [S | [S B]].
  - assert (F : fst (feed "" chunks) = flat_map segmentEvents (fst (scan body)))
      by (rewrite feed_events_whole, S; reflexivity).
    rewrite <- F. apply respond_text.
    + rewrite F. exact NoError.
    + apply doneIsLast_without_done. rewrite F. exact NoDone.
  - destruct (finished_scan body B) as (final & Sc & Ev).
    assert (F : fst (feed "" chunks)
                = (flat_map segmentEvents (fst (scan body)) ++ [Done])%list).
    { rewrite feed_events_whole, S, Sc. cbn [fst].
      rewrite flat_map_app. cbn [flat_map]. rewrite Ev. reflexivity. }
    assert (T : forall f : StreamEvent -> string,
               f Done = "" ->
               join (map f (fst (feed "" chunks)))
               = join (map f (flat_map segmentEvents (fst (scan body))))).
    { intros f Hf. rewrite F, map_app, join_app. cbn [map]. rewrite Hf.
      change (join [""]) with "". apply append_nil_r. }
    rewrite <- (T eventContent eq_refl), <- (T eventReasoning eq_refl).
    apply respond_text.
    + rewrite F, existsb_app, NoError. reflexivity.
    + apply (doneIsLast_scan chunks "" "" (fst (scan body)) final).
      * apply upToNewline_refl.
      * cbn [append]. rewrite S, Sc. reflexivity.
      * exact NoDone.
      * cbn [append]. rewrite S, Sc. reflexivity.
Qed.

(** X29.  One malformed frame ends the response and replaces it: whatever
    was received before, in this chunk or in earlier ones, and whatever the
    later chunks hold, the placeholder ends as the failure sign followed by
    the decoder's message, without reasoning and without a thinking time. *)
Theorem malformed_frame_ends_response
    (newId buffer chunk frame payload : string) (before after : list string)
    (rest : list string) (ending : Ending) (applied : list Fold) :
  completeFrames (buffer ++ chunk) = (before ++ frame :: after)%list ->
  framePayload frame = Some payload ->
  payload <> "[DONE]" ->
  JSON_parse payload = None ->
  let message :=
    foldAll (createPlaceholderMessage newId)
            (readLoop (chunk :: rest) ending buffer applied) in
  content message = failureMarker ++ parseFailure
  /\ reasoning message = None
  /\ reasoningDurationSeconds message = None
  /\ isReasoningStreaming message = Some false.
Proof.
  intros Hframes Hpayload Hdone Hparse. cbn zeta.
  assert (X : existsb isError (events (extractEventsFromBuffer (buffer ++ chunk)))
              = true).
  { rewrite events_completeFrames, Hframes, flat_map_app, existsb_app.
    cbn [flat_map]. unfold Streaming.segmentEvents at 2. rewrite Hpayload.
    apply String.eqb_neq in Hdone. rewrite Hdone, Hparse.
    cbn [app existsb isError orb]. apply orb_true_r. }
  cbn [ReadLoop.readLoop].
  destruct (forEvents_outcome (events (extractEventsFromBuffer (buffer ++ chunk)))
              (remainder (extractEventsFromBuffer (buffer ++ chunk))) applied
              (events_wellFormed JSON_parse _))
    as [(_ & folds & E) | (N & _)].
  - rewrite E, app_assoc. unfold foldAll. rewrite fold_left_app.
    cbn [fold_left foldInto]. repeat split.
  - rewrite N in X. discriminate X.
Qed.

(** Every run of the read loop that ends with a rejected read ends with a
    failure: the one thrown for a malformed frame, or the rejection. *)
Lemma readLoop_rejected (chunks : list string) (fallback : string) :
  forall buffer applied,
    exists folds text,
      readLoop chunks (Rejected fallback) buffer applied
      = (folds ++ [FoldFailure text])%list
      /\ (text = fallback \/ text = parseFailure).
Proof.
  induction chunks as [|chunk rest IH]; intros buffer applied.
  - exists applied, fallback. split; [reflexivity | left; reflexivity].
  - cbn [ReadLoop.readLoop].
    destruct (forEvents_outcome (events (extractEventsFromBuffer (buffer ++ chunk)))
                (remainder (extractEventsFromBuffer (buffer ++ chunk))) applied
                (events_wellFormed JSON_parse _))
      as [(_ & folds & E) | (_ & b & folds & E)]; rewrite E.
    + exists (applied ++ folds)%list, parseFailure.
      rewrite app_assoc. split; [reflexivity | right; reflexivity].
    + apply IH.
Qed.

(** X30.  When a read is rejected, as it is after the stop button aborts
    the request, the partial answer is not kept: the placeholder ends as the
    failure sign followed by the text of the rejection (or by the decoder's
    message, when a malformed frame came first), without reasoning and
    without a thinking time. *)
Theorem rejected_read_replaces_answer
    (newId : string) (chunks : list string) (fallback : string) :
  let message := respond newId chunks (Rejected fallback) in
  (content message = failureMarker ++ fallback
   \/ content message = failureMarker ++ parseFailure)
  /\ reasoning message = None
  /\ reasoningDurationSeconds message = None
  /\ isReasoningStreaming message = Some false.
Proof.
  cbn zeta. unfold ReadLoop.respond.
  destruct (readLoop_rejected chunks fallback "" []) as (folds & text & E & T).
  rewrite E. unfold foldAll. rewrite fold_left_app. cbn [fold_left foldInto].
  cbn [finalizeError content reasoning reasoningDurationSeconds isReasoningStreaming].
  split; [|repeat split].
  destruct T as [-> | ->]; [left | right]; reflexivity.
Qed.

End ResponseLoop.

Lemma answer_does_not_depend_on_chunking_witness :
  join hiChunks = (hiFrame ++ hiFrame) ++ doneFrame
  /\ endsWith delimiter (hiFrame ++ hiFrame) = true
  /\ forallb isDelta
       (events (extractEventsFromBuffer sampleParse (hiFrame ++ hiFrame))) = true
  /\ content (respond sampleParse tickClock "m1" hiChunks Closed) = "HiHi"
  /\ reasoning (respond sampleParse tickClock "m1" hiChunks Closed) = None.
Proof.
  split; [reflexivity|]. split; [reflexivity|]. split; [reflexivity|].
  exact (answer_does_not_depend_on_chunking sampleParse tickClock "m1" hiChunks
           (hiFrame ++ hiFrame)
           (or_intror (conj eq_refl (or_intror eq_refl))) eq_refl).
Defined.

Lemma malformed_frame_ends_response_witness :
  completeFrames ("" ++ mixedBuffer) = ["data: {}"; "data: {oops"; "data: [DONE]"]
  /\ framePayload "data: {oops" = Some "{oops"
  /\ "{oops" <> "[DONE]"
  /\ sampleParse "{oops" = None
  /\ content (respond sampleParse tickClock "m1" [mixedBuffer; hiFrame] Closed)
     = failureMarker ++ parseFailure.
Proof.
  split; [reflexivity|]. split; [reflexivity|].
  split; [discriminate|]. split; [reflexivity|].
  exact (proj1 (malformed_frame_ends_response sampleParse tickClock "m1" ""
                  mixedBuffer "data: {oops" "{oops" ["data: {}"] ["data: [DONE]"]
                  [hiFrame] Closed []
                  eq_refl eq_refl
                  (fun H : "{oops" = "[DONE]" =>
                     eq_ind "{oops"
                       (fun s => match s with String "{" _ => True | _ => False end)
                       I _ H)
                  eq_refl)).
Defined.
